(** * recipenet2: ingredient consolidation, analysis and finalization

    A shallow embedding of [scripts/analyzeConsolidation.py] and
    [scripts/finalizeConsolidation.py], and the properties of the word index,
    the scorer, the greedy group assigner, the proposal codec and the
    hierarchy builder.

    Modelling conventions.
    - A Python [str] is a [list ascii]: the ingredient descriptors are ASCII
      text.  Character classes follow Python on code points below 128
      ([str.isspace], the regular expression classes [\w] and [\s],
      [str.upper]); a code point of 128 or more is outside the data and is
      classed here as neither a word character nor white space.
    - A [dict], [defaultdict] or [Counter] is an association list in insertion
      order with unique keys; a [set] of names is a duplicate-free list in
      insertion order (the iteration order of a Python set is unspecified;
      no statement below depends on it beyond what is said there).
    - The data frame of ingredients is the list of its rows
      [(pd_name, food_group)], in row order.
    - Scores are binary64 floats in Python.  The scorer is embedded in exact
      rational arithmetic, for the bounds of the scores, and in module
      [Binary64] with the rounding of every operation, for the order of the
      scores. *)

From Stdlib Require Import Ascii String.
From Stdlib Require Import List Bool Arith Lia PeanoNat.
From Stdlib Require Import ZArith QArith Lqa.
From Stdlib Require Import Permutation Sorted.
From Stdlib Require Floats Uint63.
Import ListNotations.
Close Scope Q_scope.

Set Implicit Arguments.

(** ** Strings *)

Definition str := list ascii.

(** String literals: [$"CHEESE"] is the character list of the literal. *)
Notation "$ s" := (list_ascii_of_string s%string) (at level 1, format "$ s").

Definition code (c : ascii) : nat := nat_of_ascii c.

Definition in_range (lo hi : nat) (c : ascii) : bool :=
  (lo <=? code c) && (code c <=? hi).

(** [str.isspace] on ASCII: tab, LF, VT, FF, CR, FS, GS, RS, US and space. *)
Definition is_space (c : ascii) : bool :=
  in_range 9 13 c || in_range 28 32 c.

Definition is_lower (c : ascii) : bool := in_range 97 122 c.

(** The class [\w] on ASCII: letters, digits and the underscore. *)
Definition is_word (c : ascii) : bool :=
  in_range 48 57 c || in_range 65 90 c || is_lower c || (code c =? 95).

Definition space : ascii := " "%char.
Definition comma : ascii := ","%char.
Definition hash : ascii := "#"%char.
Definition lbracket : ascii := "["%char.
Definition rbracket : ascii := "]"%char.
Definition LF : ascii := ascii_of_nat 10.
Definition CR : ascii := ascii_of_nat 13.

Definition ascii_eqb := Ascii.eqb.

Fixpoint str_eqb (a b : str) : bool :=
  match a, b with
  | [], [] => true
  | x :: a', y :: b' => ascii_eqb x y && str_eqb a' b'
  | _, _ => false
  end.

(** Code point order, as Python compares strings. *)
Fixpoint str_leb (a b : str) : bool :=
  match a, b with
  | [], _ => true
  | _ :: _, [] => false
  | x :: a', y :: b' =>
      if code x <? code y then true
      else if code y <? code x then false
      else str_leb a' b'
  end.

Definition upper_char (c : ascii) : ascii :=
  if is_lower c then ascii_of_nat (code c - 32) else c.

(** [s.upper()] *)
Definition upper (s : str) : str := map upper_char s.

(** [s.lstrip()], [s.rstrip()] and [s.strip()] *)
Fixpoint lstrip (s : str) : str :=
  match s with
  | [] => []
  | c :: s' => if is_space c then lstrip s' else s
  end.

Fixpoint rstrip (s : str) : str :=
  match s with
  | [] => []
  | c :: s' =>
      match rstrip s' with
      | [] => if is_space c then [] else [c]
      | r => c :: r
      end
  end.

Definition strip (s : str) : str := rstrip (lstrip s).

(** [s.startswith(p)] and [s.endswith(p)] *)
Fixpoint startswith (s p : str) : bool :=
  match p, s with
  | [], _ => true
  | _ :: _, [] => false
  | y :: p', x :: s' => ascii_eqb x y && startswith s' p'
  end.

Definition endswith (s p : str) : bool := startswith (rev s) (rev p).

(** [s.split()]: the maximal runs of characters that are not white space. *)
Fixpoint split (s : str) : list str :=
  match s with
  | [] => []
  | c :: s' =>
      if is_space c then split s'
      else
        match s' with
        | [] => [[c]]
        | d :: _ =>
            if is_space d then [c] :: split s'
            else
              match split s' with
              | w :: ws => (c :: w) :: ws
              | [] => [[c]]
              end
        end
  end.

(** ** analyzeConsolidation.py: constants *)

Definition MIN_WORD_LENGTH : nat := 3.
Definition COMMON_ARTICLES : list str :=
  [$"THE"; $"AND"; $"OR"; $"OF"; $"IN"; $"ON"; $"AT"; $"TO"; $"FOR"; $"WITH"].

Definition MIN_GROUP_SIZE : nat := 2.
Definition MAX_INGREDIENT_PERCENTAGE : Q := (1 # 10)%Q.
Definition MIN_SCORE_THRESHOLD : Q := 30%Q.
Definition MAX_FREQUENCY_SCORE : nat := 100.
Definition BEGINNING_WORD_BONUS : Q := 30%Q.
Definition MEDIUM_WORD_BONUS : Q := 10%Q.
Definition LONG_WORD_BONUS : Q := 20%Q.
Definition COHERENCE_MULTIPLIER : Q := 40%Q.
Definition MAX_PARENTS_PER_INGREDIENT : nat := 3.
Definition MIN_SECONDARY_PARENT_SCORE : Q := 50%Q.
Definition PROCESSING_TERM_THRESHOLD : Q := (15 # 100)%Q.
Definition BASE_WORD_DIVERSITY_RATIO : Q := (3 # 10)%Q.

(** ** Tokenizer *)

(** The characters [re.sub(r'[^\w\s\-\,\.]', ' ', name)] leaves in place. *)
Definition is_kept (c : ascii) : bool :=
  is_word c || is_space c || (code c =? 45) || (code c =? 44) || (code c =? 46).

Definition sub_special (s : str) : str :=
  map (fun c => if is_kept c then c else space) s.

(** [re.sub(r'\s+', ' ', s)]: [in_run] tells that the previous character
    belonged to a run of white space that has already been replaced. *)
Fixpoint sub_spaces (in_run : bool) (s : str) : str :=
  match s with
  | [] => []
  | c :: s' =>
      if is_space c
      then (if in_run then sub_spaces true s' else space :: sub_spaces true s')
      else c :: sub_spaces false s'
  end.

Definition clean_ingredient_name (name : str) : str :=
  let name := strip (upper name) in
  let name := sub_special name in
  let name := sub_spaces false name in
  strip name.

Definition str_mem (w : str) (l : list str) : bool := existsb (str_eqb w) l.

Definition extract_meaningful_words (ingredient_name : str) : list str :=
  let cleaned := clean_ingredient_name ingredient_name in
  let words := split cleaned in
  filter (fun word => (MIN_WORD_LENGTH <=? length word)
                      && negb (str_mem word COMMON_ARTICLES)) words.

(** ** Dictionaries, counters and sets *)

Section Dict.
Variable V : Type.

Definition dict := list (str * V).

Fixpoint dict_get (d : dict) (k : str) : option V :=
  match d with
  | [] => None
  | (k', v) :: d' => if str_eqb k k' then Some v else dict_get d' k
  end.

Definition dict_mem (d : dict) (k : str) : bool :=
  existsb (fun kv => str_eqb k (fst kv)) d.

(** [d[k] = f(d[k])], where a missing key stands for [dflt] (the behaviour
    of a [defaultdict] and of a [Counter]); a key that is present keeps its
    place, a new key goes last. *)
Fixpoint dict_upd (f : V -> V) (dflt : V) (k : str) (d : dict) : dict :=
  match d with
  | [] => [(k, f dflt)]
  | (k', v) :: d' =>
      if str_eqb k k' then (k', f v) :: d'
      else (k', v) :: dict_upd f dflt k d'
  end.

(** [d[k] = v] *)
Definition dict_set (k : str) (v : V) (d : dict) : dict :=
  dict_upd (fun _ => v) v k d.

(** [d[k]] on a [defaultdict], [d.get(k, dflt)] on a [dict] *)
Definition dict_get_default (d : dict) (k : str) (dflt : V) : V :=
  match dict_get d k with
  | Some v => v
  | None => dflt
  end.
End Dict.

(** [s.add(x)] on a set of strings *)
Definition set_add (x : str) (s : list str) : list str :=
  if str_mem x s then s else s ++ [x].

(** [c[k] += 1] on a [Counter] or a [defaultdict(int)] *)
Definition counter_incr (k : str) (c : dict nat) : dict nat :=
  dict_upd S 0 k c.

Definition counter_get (c : dict nat) (k : str) : nat :=
  dict_get_default c k 0.

(** ** Sorting

    [sorted] is stable.  [sorted_by before l] puts [x] in front of the first
    [y] with [before x y]: with [before x y := key x <= key y] it is
    [sorted(l, key=key)], with [before x y := key y <= key x] it is
    [sorted(l, key=key, reverse=True)], which keeps the original order of
    elements with equal keys too. *)

Section Sorting.
Variable A : Type.
Variable before : A -> A -> bool.

Fixpoint insert_sorted (x : A) (l : list A) : list A :=
  match l with
  | [] => [x]
  | y :: l' => if before x y then x :: l else y :: insert_sorted x l'
  end.

Definition sorted_by (l : list A) : list A :=
  fold_right insert_sorted [] l.
End Sorting.

(** ** WordIndex *)

(** A row of the data frame: [pd_name] and [food_group]. *)
Definition row : Type := str * str.
Definition pd_name (r : row) : str := fst r.
Definition row_food_group (r : row) : str := snd r.

Definition index_word (ingredient_name : str)
    (st : dict nat * dict (list str)) (word : str)
    : dict nat * dict (list str) :=
  (counter_incr word (fst st),
   dict_upd (set_add ingredient_name) [] word (snd st)).

Definition index_row (st : dict nat * dict (list str)) (r : row)
    : dict nat * dict (list str) :=
  let ingredient_name := pd_name r in
  let words := extract_meaningful_words ingredient_name in
  fold_left (index_word ingredient_name) words st.

(** Returns [(word_frequency, word_to_ingredients)]. *)
Definition find_word_frequencies (ingredients_df : list row)
    : dict nat * dict (list str) :=
  fold_left index_row ingredients_df ([], []).

(** ** GroupScorer *)

(** The scorer in exact rational arithmetic.  The floats of the code, with
    the rounding of every operation, are in module [Binary64] below. *)

Definition Qnat (n : nat) : Q := inject_Z (Z.of_nat n).
Definition Qltb (a b : Q) : bool := negb (Qle_bool b a).

Definition count_other_words (word : str) (c : dict nat) (ingredient : str)
    : dict nat :=
  fold_left (fun c w => if str_eqb w word then c else counter_incr w c)
            (extract_meaningful_words ingredient) c.

Definition calculate_word_coherence (word : str)
    (ingredients_with_word : list str) : Q :=
  if length ingredients_with_word <? MIN_GROUP_SIZE then 0%Q
  else
    let other_words_counter :=
      fold_left (count_other_words word) ingredients_with_word [] in
    let total_other_words := list_sum (map snd other_words_counter) in
    if total_other_words =? 0 then 0%Q
    else
      let shared_words := filter (fun wc => 1 <? snd wc) other_words_counter in
      let coherence_ratio :=
        match other_words_counter with
        | [] => 0%Q
        | _ => (Qnat (length shared_words)
                / Qnat (length other_words_counter))%Q
        end in
      (coherence_ratio * COHERENCE_MULTIPLIER)%Q.

Definition calculate_grouping_potential (word : str)
    (ingredients_with_word : list str) (all_ingredients : list str) : Q :=
  let num_ingredients := length ingredients_with_word in
  if num_ingredients <? MIN_GROUP_SIZE then 0%Q
  else if Qltb (Qnat (length all_ingredients) * MAX_INGREDIENT_PERCENTAGE)%Q
               (Qnat num_ingredients) then 0%Q
  else
    let score := Qnat (Nat.min (num_ingredients * 10) MAX_FREQUENCY_SCORE) in
    let coherence_score := calculate_word_coherence word ingredients_with_word in
    let score := (score + coherence_score)%Q in
    let beginning_appearances :=
      length (filter (fun ing => startswith (clean_ingredient_name ing)
                                            (word ++ [space]))
                     ingredients_with_word) in
    let beginning_ratio :=
      (Qnat beginning_appearances / Qnat num_ingredients)%Q in
    let score := (score + beginning_ratio * BEGINNING_WORD_BONUS)%Q in
    if 6 <=? length word then (score + LONG_WORD_BONUS)%Q
    else if 4 <=? length word then (score + MEDIUM_WORD_BONUS)%Q
    else score.

(** ** ProcessingTermFilter *)

Definition add_base_words (word : str) (s : list str) (ingredient : str)
    : list str :=
  fold_left (fun s w => if negb (str_eqb w word) && (4 <=? length w)
                        then set_add w s else s)
            (extract_meaningful_words ingredient) s.

Definition identify_processing_terms_dynamically
    (word_frequency : dict nat) (word_to_ingredients : dict (list str))
    : list str :=
  fold_left
    (fun processing_terms wf =>
       let word := fst wf in
       let frequency := snd wf in
       if Qltb (Qnat (length word_to_ingredients) * PROCESSING_TERM_THRESHOLD)%Q
               (Qnat frequency)
       then
         let ingredients := dict_get_default word_to_ingredients word [] in
         let base_word_diversity :=
           fold_left (add_base_words word) ingredients [] in
         if Qltb (Qnat frequency * BASE_WORD_DIVERSITY_RATIO)%Q
                 (Qnat (length base_word_diversity))
         then set_add word processing_terms
         else processing_terms
       else processing_terms)
    word_frequency [].

(** ** GroupAssigner *)

Record child : Type := mk_child { name : str; food_group : str }.

(** [ingredients_df[ingredients_df['pd_name'] == ingredient]['food_group'].iloc[0]]:
    the food group of the first row with that name.  [iloc[0]] raises when
    no row has the name; the assigner only asks for names taken from the
    rows (lemma [lookup_food_group_row]), where the default is not reached. *)
Definition lookup_food_group (ingredients_df : list row) (ingredient : str)
    : str :=
  match find (fun r => str_eqb (pd_name r) ingredient) ingredients_df with
  | Some r => row_food_group r
  | None => []
  end.

(** The candidate words with their scores, in the order of the word index. *)
Definition score_word (ingredients_df : list row)
    (processing_terms : list str) (word_scores : dict Q)
    (entry : str * list str) : dict Q :=
  let word := fst entry in
  let ingredients_with_word := snd entry in
  if str_mem word processing_terms then word_scores
  else
    let score := calculate_grouping_potential word ingredients_with_word
                   (map pd_name ingredients_df) in
    if Qle_bool MIN_SCORE_THRESHOLD score
    then dict_set word score word_scores
    else word_scores.

Definition word_scores_of (ingredients_df : list row) : dict Q :=
  let '(word_frequency, word_to_ingredients) :=
    find_word_frequencies ingredients_df in
  let processing_terms :=
    identify_processing_terms_dynamically word_frequency word_to_ingredients in
  fold_left (score_word ingredients_df processing_terms) word_to_ingredients [].

(** [sorted(word_scores.items(), key=lambda x: x[1], reverse=True)] *)
Definition score_before (x y : str * Q) : bool := Qle_bool (snd y) (snd x).

Definition sorted_words_of (ingredients_df : list row) : list (str * Q) :=
  sorted_by score_before (word_scores_of ingredients_df).

(** The state of the assignment loop: [consolidation_groups] and
    [ingredient_parent_count]. *)
Definition assign_state : Type := dict (list child) * dict nat.

(** [[ing for ing in ingredients_with_word if ingredient_parent_count[ing]
    < MAX_PARENTS_PER_INGREDIENT]].  Reading a missing key of the
    [defaultdict] stores the count 0 for it, which no later read tells from
    the key being absent. *)
Definition available_ingredients (ingredient_parent_count : dict nat)
    (ingredients_with_word : list str) : list str :=
  filter (fun ing => counter_get ingredient_parent_count ing
                     <? MAX_PARENTS_PER_INGREDIENT)
         ingredients_with_word.

(** One round of the inner loop: append the child, count one more parent. *)
Definition add_group_child (ingredients_df : list row)
    (st : list child * dict nat) (ingredient : str) : list child * dict nat :=
  (fst st ++ [mk_child ingredient (lookup_food_group ingredients_df ingredient)],
   counter_incr ingredient (snd st)).

(** One round of the outer loop, for [(word, score)]. *)
Definition assign_word (ingredients_df : list row)
    (word_to_ingredients : dict (list str)) (st : assign_state)
    (ws : str * Q) : assign_state :=
  let word := fst ws in
  let ingredients_with_word := dict_get_default word_to_ingredients word [] in
  (* [min_score], which the code computes here from [score] and
     [MIN_SECONDARY_PARENT_SCORE], is read nowhere. *)
  let available := available_ingredients (snd st) ingredients_with_word in
  if 2 <=? length available then
    let '(group_data, ingredient_parent_count) :=
      fold_left (add_group_child ingredients_df) available ([], snd st) in
    (dict_set word group_data (fst st), ingredient_parent_count)
  else st.

Definition assign_groups (ingredients_df : list row)
    (word_to_ingredients : dict (list str)) (sorted_words : list (str * Q))
    : assign_state :=
  fold_left (assign_word ingredients_df word_to_ingredients) sorted_words
            ([], []).

Definition find_consolidation_groups (ingredients_df : list row)
    : dict (list child) :=
  fst (assign_groups ingredients_df (snd (find_word_frequencies ingredients_df))
                     (sorted_words_of ingredients_df)).

(** Every value [ingredient_parent_count] takes while the loops run: the
    value before each round of the outer loop, after each increment of the
    inner loop, and the final one. *)
Fixpoint scan_left (A B : Type) (f : A -> B -> A) (l : list B) (a : A)
    : list A :=
  a :: match l with
       | [] => []
       | b :: l' => scan_left f l' (f a b)
       end.

Fixpoint parent_count_trace (ingredients_df : list row)
    (word_to_ingredients : dict (list str)) (sorted_words : list (str * Q))
    (st : assign_state) : list (dict nat) :=
  match sorted_words with
  | [] => [snd st]
  | ws :: rest =>
      let available :=
        available_ingredients (snd st)
          (dict_get_default word_to_ingredients (fst ws) []) in
      (if 2 <=? length available
       then map snd (scan_left (add_group_child ingredients_df) available
                               ([], snd st))
       else [snd st])
      ++ parent_count_trace ingredients_df word_to_ingredients rest
           (assign_word ingredients_df word_to_ingredients st ws)
  end.



(** ** ProposalCodec: serialization *)

Definition proposal_header : list str :=
  [ $"# Ingredient Consolidation Proposal";
    $"# ";
    $"# This file contains proposed ingredient consolidations.";
    $"# Each section represents a potential parent ingredient with its children.";
    $"# ";
    $"# The same ingredient can appear under multiple parent sections.";
    $"# ";
    $"# To DISABLE a consolidation group, comment out the entire section";
    $"# by adding '#' at the beginning of each line.";
    $"# ";
    $"# To REMOVE specific children from a group, comment out just those lines.";
    $"# ";
    $"# Format:";
    $"# [PARENT_INGREDIENT_NAME]";
    $"# child_ingredient_name,food_group";
    $"# ";
    $"# After editing, run finalizeConsolidation.py to process this file.";
    $"# " ].

(** [f.write(line + "\n")] *)
Definition write_line (line : str) : str := line ++ [LF].

Definition child_line (c : child) : str := name c ++ [comma] ++ food_group c.

Definition size_before (x y : str * list child) : bool :=
  length (snd y) <=? length (snd x).

Definition name_before (x y : child) : bool := str_leb (name x) (name y).

(** The lines written for one group: the header, the children sorted by
    name, and an empty line. *)
Definition group_lines (g : str * list child) : list str :=
  ([lbracket] ++ fst g ++ [rbracket])
  :: map child_line (sorted_by name_before (snd g)) ++ [[]].

Definition proposal_lines (consolidation_groups : dict (list child))
    : list str :=
  proposal_header
  ++ flat_map group_lines (sorted_by size_before consolidation_groups).

(** The text written to the proposal file. *)
Definition generate_consolidation_proposal
    (consolidation_groups : dict (list child)) : str :=
  concat (map write_line (proposal_lines consolidation_groups)).

(** ** ProposalCodec: parsing *)

Definition is_newline (c : ascii) : bool := ascii_eqb c LF || ascii_eqb c CR.

(** [for line in f]: Python reads with universal newlines, where CR LF, CR
    and LF each end a line.  Here every CR and every LF ends a line, so that
    CR LF gives one more, empty, line; the parser skips empty lines, which
    makes the two readings agree.  The line terminator itself, which
    [line.strip()] removes at once, is not kept. *)
Fixpoint file_lines (text : str) : list str :=
  match text with
  | [] => []
  | c :: text' =>
      if is_newline c then [] :: file_lines text'
      else
        match file_lines text' with
        | l :: ls => (c :: l) :: ls
        | [] => [[c]]
        end
  end.

(** [line.split(',', 1)] for a line that has a comma. *)
Fixpoint split_first_comma (line : str) : str * str :=
  match line with
  | [] => ([], [])
  | c :: line' =>
      if ascii_eqb c comma then ([], line')
      else let '(a, b) := split_first_comma line' in (c :: a, b)
  end.

Definition has_comma (line : str) : bool := existsb (ascii_eqb comma) line.

(** [line[1:-1]] *)
Definition strip_brackets (line : str) : str := removelast (tl line).

(** The parser state: [consolidations] and [current_parent]. *)
Definition parse_state : Type := dict (list child) * option str.

Definition is_header (line : str) : bool :=
  startswith line [lbracket] && endswith line [rbracket].

Definition parse_line (st : parse_state) (raw : str) : parse_state :=
  let line := strip raw in
  match line with
  | [] => st
  | _ =>
      if startswith line [hash] then st
      else if is_header line then
        let current_parent := strip_brackets line in
        (dict_set current_parent [] (fst st), Some current_parent)
      else
        match snd st with
        | Some ((_ :: _) as current_parent) =>
            if has_comma line then
              let '(a, b) := split_first_comma line in
              let entry := mk_child (strip a) (strip b) in
              (dict_upd (fun children => children ++ [entry]) []
                        current_parent (fst st),
               snd st)
            else st
        | _ => st
        end
  end.

(** [if children]: the group has a child. *)
Definition nonempty_group (pc : str * list child) : bool :=
  match snd pc with [] => false | _ => true end.

Definition parse_lines (lines : list str) : dict (list child) :=
  let consolidations := fst (fold_left parse_line lines ([], None)) in
  filter nonempty_group consolidations.

Definition parse_consolidation_proposal (text : str) : dict (list child) :=
  parse_lines (file_lines text).

(** The [(parent, child, food_group)] triples of a group mapping. *)
Definition triples (groups : dict (list child)) : list (str * str * str) :=
  flat_map (fun g => map (fun c => (fst g, name c, food_group c)) (snd g))
           groups.

(** ** HierarchyBuilder *)

Record ingredient : Type :=
  mk_ingredient { i_name : str; i_food_group : str; hierarchy_depth : nat }.

(** [Counter(food_groups).most_common(1)[0][0]]: the first food group, in
    order of first appearance, among those with the largest count.  On an
    empty list of children the indexing raises ([None]). *)
Fixpoint first_max (best : str * nat) (l : list (str * nat)) : str * nat :=
  match l with
  | [] => best
  | kv :: l' => first_max (if snd best <? snd kv then kv else best) l'
  end.

Definition determine_parent_food_group (children : list child) : option str :=
  let food_groups := map food_group children in
  let food_group_counts := fold_left (fun c g => counter_incr g c) food_groups [] in
  match food_group_counts with
  | [] => None
  | kv :: rest => Some (fst (first_max kv rest))
  end.

(** A parent-child relationship: [(parent_name, child_name)]. *)
Definition relationship : Type := str * str.

(** [all_ingredients] and [parent_child_relationships]. *)
Definition build_state : Type := dict ingredient * list relationship.

Definition add_child_edge (parent_name : str) (st : build_state) (c : child)
    : build_state :=
  let child_name := name c in
  let child_food_group := food_group c in
  if str_eqb child_name parent_name then st
  else
    let all_ingredients :=
      if dict_mem (fst st) child_name then fst st
      else dict_set child_name (mk_ingredient child_name child_food_group 1)
                    (fst st) in
    (all_ingredients, snd st ++ [(parent_name, child_name)]).

Definition add_parent_group (st : option build_state)
    (g : str * list child) : option build_state :=
  match st with
  | None => None
  | Some st =>
      let parent_name := fst g in
      let children := snd g in
      match determine_parent_food_group children with
      | None => None
      | Some parent_food_group =>
          let all_ingredients :=
            if dict_mem (fst st) parent_name then fst st
            else dict_set parent_name
                   (mk_ingredient parent_name parent_food_group 0) (fst st) in
          Some (fold_left (add_child_edge parent_name) children
                          (all_ingredients, snd st))
      end
  end.

Definition add_standalone (all_ingredients : dict ingredient) (r : row)
    : dict ingredient :=
  let ingredient_name := pd_name r in
  if dict_mem all_ingredients ingredient_name then all_ingredients
  else dict_set ingredient_name
         (mk_ingredient ingredient_name (row_food_group r) 0) all_ingredients.

(** [child_to_parents[rel['child_name']].append(rel['parent_name'])] *)
Definition child_to_parents_of (parent_child_relationships : list relationship)
    : dict (list str) :=
  fold_left (fun d rel => dict_upd (fun ps => ps ++ [fst rel]) [] (snd rel) d)
            parent_child_relationships [].

(** The loop [for parent in parents: max_parent_depth = max(...)], where
    [depth_of parent] is the recursive call; [None] when a call gives
    none. *)
Definition max_depth_step (depth_of : str -> option nat) (acc : option nat)
    (parent : str) : option nat :=
  match acc with
  | None => None
  | Some max_parent_depth =>
      match depth_of parent with
      | None => None
      | Some parent_depth => Some (Nat.max max_parent_depth parent_depth)
      end
  end.

(** [calculate_depth(ingredient_name, visited)], with the recursion depth
    bounded by [fuel]: [None] means that the fuel ran out.  The call with
    [visited=None] is the call with the empty set.  Every recursive call
    gets its own copy of [visited], which the functional argument is. *)
Fixpoint calculate_depth_fuel (fuel : nat) (child_to_parents : dict (list str))
    (ingredient_name : str) (visited : list str) : option nat :=
  match fuel with
  | 0 => None
  | S fuel' =>
      if str_mem ingredient_name visited then Some 0
      else
        let visited := set_add ingredient_name visited in
        let parents := dict_get_default child_to_parents ingredient_name [] in
        match parents with
        | [] => Some 0
        | _ =>
            match fold_left
                    (max_depth_step
                       (fun parent =>
                          calculate_depth_fuel fuel' child_to_parents parent
                                               visited))
                    parents (Some 0) with
            | None => None
            | Some max_parent_depth => Some (max_parent_depth + 1)
            end
        end
  end.

(** Fuel that is always enough: two more than the number of parent
    entries of the graph. *)
Definition depth_fuel (child_to_parents : dict (list str)) : nat :=
  S (S (length (concat (map snd child_to_parents)))).

Definition calculate_depth (child_to_parents : dict (list str))
    (ingredient_name : str) : nat :=
  match calculate_depth_fuel (depth_fuel child_to_parents) child_to_parents
                             ingredient_name [] with
  | Some depth => depth
  | None => 0
  end.

(** What [generate_hierarchy_files] writes to [ingredients.csv] and to
    [ingredient_parents.csv].  [None] is the exception that an empty group
    of children raises.  The list of food groups and the alias table, which
    come from the same dictionaries and from a file of synonyms, are left
    out. *)
Record hierarchy : Type :=
  mk_hierarchy { ingredients : list ingredient;
                 parent_child_relationships : list relationship }.

Definition generate_hierarchy_files (consolidations : dict (list child))
    (original_df : list row) : option hierarchy :=
  match fold_left add_parent_group consolidations (Some ([], [])) with
  | None => None
  | Some (all_ingredients, relationships) =>
      let all_ingredients := fold_left add_standalone original_df all_ingredients in
      let child_to_parents := child_to_parents_of relationships in
      let with_depth :=
        map (fun kv =>
               mk_ingredient (i_name (snd kv)) (i_food_group (snd kv))
                             (calculate_depth child_to_parents (fst kv)))
            all_ingredients in
      Some (mk_hierarchy with_depth relationships)
  end.

(** The finalization pipeline: parse the proposal, build the hierarchy. *)
Definition finalize (proposal : str) (original_df : list row)
    : option hierarchy :=
  generate_hierarchy_files (parse_consolidation_proposal proposal) original_df.

(** ** Examples *)

Definition cheese_df : list row :=
  [ ($"CHEDDAR CHEESE", $"Dairy"); ($"SWISS CHEESE", $"Dairy");
    ($"COTTAGE CHEESE", $"Dairy"); ($"ORANGE JUICE", $"Fruit") ].

Definition cheese_postings : list str :=
  dict_get_default (snd (find_word_frequencies cheese_df)) $"CHEESE" [].

Definition cheese_processing_terms : list str :=
  identify_processing_terms_dynamically
    (fst (find_word_frequencies cheese_df))
    (snd (find_word_frequencies cheese_df)).

(** The proposal of one section whose second child is commented out. *)
Definition single_child_proposal : str :=
  concat (map write_line
            [ $"[CHEESE]"; $"cheddar cheese,dairy"; $"#swiss cheese,dairy";
              [] ]).

(** ** Vocabulary of the statements *)

(** The number of times [w] occurs in a list of words. *)
Definition occurrences (w : str) (words : list str) : nat :=
  length (filter (str_eqb w) words).

(** The number of token occurrences of [w] over all the rows. *)
Definition token_occurrences (ingredients_df : list row) (w : str) : nat :=
  list_sum (map (fun r => occurrences w (extract_meaningful_words (pd_name r)))
                ingredients_df).

Definition str_dec : forall a b : str, {a = b} + {a <> b} :=
  list_eq_dec ascii_dec.

(** The number of distinct ingredient names whose tokens contain [w]. *)
Definition distinct_ingredients_with (ingredients_df : list row) (w : str)
    : nat :=
  length (nodup str_dec
            (filter (fun n => str_mem w (extract_meaningful_words n))
                    (map pd_name ingredients_df))).

Definition half_and_half_df : list row := [ ($"HALF AND HALF", $"Dairy") ].




Definition has_score (q : Q) (ws : str * Q) : bool := Qeq_bool (snd ws) q.

Definition orchard_df : list row :=
  [ ($"PEAR BARTLETT", $"Fruit"); ($"PEAR BOSC", $"Fruit");
    ($"APPLE FUJI", $"Fruit"); ($"APPLE GALA", $"Fruit");
    ($"BANANA", $"Fruit"); ($"CARROT", $"Vegetable");
    ($"CELERY", $"Vegetable"); ($"GARLIC", $"Vegetable");
    ($"GINGER", $"Spice"); ($"LEMON", $"Fruit"); ($"LIME", $"Fruit");
    ($"MANGO", $"Fruit"); ($"ONION", $"Vegetable"); ($"PAPAYA", $"Fruit");
    ($"PEACH", $"Fruit"); ($"PLUM", $"Fruit"); ($"POTATO", $"Vegetable");
    ($"RADISH", $"Vegetable"); ($"SPINACH", $"Vegetable");
    ($"TOMATO", $"Vegetable"); ($"TURNIP", $"Vegetable");
    ($"WALNUT", $"Nut") ].

(** All the parent entries of the graph. *)
Definition all_parents (child_to_parents : dict (list str)) : list str :=
  concat (map snd child_to_parents).

(** The number of distinct parents that a traversal has not visited. *)
Definition unvisited (child_to_parents : dict (list str))
    (visited : list str) : nat :=
  length (filter (fun p => negb (str_mem p visited))
                 (nodup str_dec (all_parents child_to_parents))).

(** The groups [A: B] and [B: A], which make the cycle of two nodes. *)
Definition cycle_groups : dict (list child) :=
  [ ($"A", [mk_child $"B" $"x"]); ($"B", [mk_child $"A" $"x"]) ].

Definition cycle_relationships : list relationship :=
  [ ($"A", $"B"); ($"B", $"A") ].

(** The parents listed for [c] by the relationships, in order. *)
Definition parents_of (rels : list relationship) (c : str) : list str :=
  map fst (filter (fun rel => str_eqb (snd rel) c) rels).

(** What a line of the proposal is to the parser: the parent that a
    section header names, or the child entry that a child line gives. *)
Definition header_of (raw : str) : option str :=
  let line := strip raw in
  match line with
  | [] => None
  | _ =>
      if startswith line [hash] then None
      else if is_header line then Some (strip_brackets line)
      else None
  end.

Definition child_of (raw : str) : option child :=
  let line := strip raw in
  match line with
  | [] => None
  | _ =>
      if startswith line [hash] then None
      else if is_header line then None
      else if has_comma line then
        let '(a, b) := split_first_comma line in
        Some (mk_child (strip a) (strip b))
      else None
  end.

(** The child entries of the lines up to the next section header. *)
Fixpoint section_children (lines : list str) : list child :=
  match lines with
  | [] => []
  | raw :: rest =>
      match header_of raw with
      | Some _ => []
      | None =>
          match child_of raw with
          | Some entry => entry :: section_children rest
          | None => section_children rest
          end
      end
  end.

(** A proposal in which the section [CHEESE] is opened twice. *)
Definition repeated_header_proposal : str :=
  concat (map write_line
            [ $"[CHEESE]"; $"cheddar cheese,dairy"; $"[MILK]";
              $"whole milk,dairy"; $"[CHEESE]"; $"swiss cheese,dairy";
              $"brie,dairy" ]).

(** The group mappings that respect the format of the proposal file. *)
Definition no_newline (s : str) : Prop :=
  forallb (fun c => negb (is_newline c)) s = true.

Definition trimmed (s : str) : Prop := strip s = s.

Definition child_ok (c : child) : Prop :=
  no_newline (name c) /\ no_newline (food_group c)
  /\ trimmed (name c) /\ trimmed (food_group c)
  /\ has_comma (name c) = false
  /\ startswith (name c) [hash] = false
  /\ is_header (child_line c) = false.

Definition group_ok (g : str * list child) : Prop :=
  fst g <> [] /\ no_newline (fst g) /\ Forall child_ok (snd g).

Definition respects_format (groups : dict (list child)) : Prop :=
  NoDup (map fst groups) /\ Forall group_ok groups.

(** A group as the parser returns it: the children sorted by name. *)
Definition sorted_group (g : str * list child) : str * list child :=
  (fst g, sorted_by name_before (snd g)).

Definition beans_groups : dict (list child) :=
  [ ($"BEANS", [ mk_child $"BEANS, BLACK" $"Legumes";
                 mk_child $"BEANS, PINTO" $"Legumes" ]) ].

Definition cheese_groups : dict (list child) :=
  [ ($"JUICE", [ mk_child $"ORANGE JUICE" $"Fruit";
                 mk_child $"APPLE JUICE" $"Fruit" ]);
    ($"CHEESE", [ mk_child $"SWISS CHEESE" $"Dairy";
                  mk_child $"CHEDDAR CHEESE" $"Dairy";
                  mk_child $"COTTAGE CHEESE" $"Dairy" ]) ].

(** The proposal of one section with two children. *)
Definition two_children_proposal : str :=
  concat (map write_line
            [ $"[CHEESE]"; $"cheddar cheese,dairy"; $"swiss cheese,dairy";
              [] ]).

(** ** Invariants *)

Definition no_lead (s : str) : Prop :=
  match s with
  | [] => True
  | c :: _ => is_space c = false
  end.

(** White space occurs as single space characters only. *)
Fixpoint single_spaced (s : str) : Prop :=
  match s with
  | [] => True
  | c :: s' =>
      (is_space c = true -> c = space /\ no_lead s') /\ single_spaced s'
  end.

Definition postings_ok (w2i : dict (list str)) : Prop :=
  Forall (fun kv => NoDup (snd kv)) w2i.


Definition names_ok (all_ingredients : dict ingredient) : Prop :=
  Forall (fun kv => i_name (snd kv) = fst kv) all_ingredients.

(** [st'] has every node and every edge of [st]. *)
Definition build_le (st st' : build_state) : Prop :=
  incl (map fst (fst st)) (map fst (fst st')) /\ incl (snd st) (snd st').

(** The only parent of [child] is [parent]. *)
Definition only_parent (c2p : dict (list str)) (child parent : str) : Prop :=
  dict_get_default c2p child [] <> []
  /\ forall p, In p (dict_get_default c2p child []) -> p = parent.

(** Two parser states that agree on the current parent and on the
    children of [parent]. *)
Definition agree_on (parent : str) (st st' : parse_state) : Prop :=
  snd st = snd st' /\ dict_get (fst st) parent = dict_get (fst st') parent.

(** ** Vocabulary of the further statements *)

(** A character of a cleaned name: no lower case letter, one of the
    characters the cleaning keeps, and no white space but the space. *)
Definition clean_char (c : ascii) : Prop :=
  is_lower c = false /\ is_kept c = true /\ (is_space c = true -> c = space).

(** [' '.join(words)] *)
Fixpoint join_space (words : list str) : str :=
  match words with
  | [] => []
  | [w] => w
  | w :: ws => w ++ space :: join_space ws
  end.

(** The posting set of a word in the word index. *)
Definition postings_of (ingredients_df : list row) (w : str) : list str :=
  dict_get_default (snd (find_word_frequencies ingredients_df)) w [].

(** The scorer accepts a posting set of [n] names out of [total]: at least
    two names and no more than a tenth of the ingredients. *)
Definition accepted_size (n total : nat) : Prop :=
  MIN_GROUP_SIZE <= n /\ 10 * n <= total.


(** The score of a word in an ingredient collection. *)
Definition score_of (ingredients_df : list row) (w : str) : Q :=
  calculate_grouping_potential w (postings_of ingredients_df w)
                               (map pd_name ingredients_df).

(** Two names with [PEAR] among twenty. *)
Definition twenty_names : list str :=
  [ $"PEAR BARTLETT"; $"PEAR BOSC"; $"A"; $"B"; $"C"; $"D"; $"E"; $"F";
    $"G"; $"H"; $"I"; $"J"; $"K"; $"L"; $"M"; $"N"; $"O"; $"P"; $"Q"; $"R" ].


(** What the parser guarantees of a child entry. *)
Definition child_trimmed (c : child) : Prop :=
  strip (name c) = name c /\ strip (food_group c) = food_group c
  /\ has_comma (name c) = false.

(** A line that the parser passes over: an empty line, a comment, or a
    line that is no section header and has no comma. *)
Definition passed_over (raw : str) : Prop :=
  strip raw = []
  \/ startswith (strip raw) [hash] = true
  \/ (is_header (strip raw) = false /\ has_comma (strip raw) = false).

(** The edges of a group mapping: every child under its parent, but for a
    child with the name of its parent. *)
Definition group_edges (g : str * list child) : list relationship :=
  map (fun c => (fst g, name c))
      (filter (fun c => negb (str_eqb (name c) (fst g))) (snd g)).

Definition non_self_edges (consolidations : dict (list child))
    : list relationship :=
  flat_map group_edges consolidations.

(** A name that occurs in a group mapping, as a parent or as a child. *)
Definition grouped_name (consolidations : dict (list child)) (n : str)
    : Prop :=
  In n (map fst consolidations)
  \/ exists g c, In g consolidations /\ In c (snd g) /\ name c = n.

Definition has_empty_group (consolidations : dict (list child)) : bool :=
  existsb (fun g => negb (nonempty_group g)) consolidations.

(** The groups [CHEESE] and [JUICE] over plain ingredients: a hierarchy of
    two levels. *)
Definition dairy_relationships : list relationship :=
  [ ($"CHEESE", $"SWISS CHEESE"); ($"CHEESE", $"BRIE");
    ($"JUICE", $"APPLE JUICE") ].

(** ** generateCSVs.py: the names of the ingredients *)

Definition lparen : ascii := "("%char.
Definition rparen : ascii := ")"%char.

Definition has_close (s : str) : bool := existsb (ascii_eqb rparen) s.

(** [re.sub(r'\([^)]*\)', '', s)]: an opening parenthesis with a closing
    one somewhere after it goes, together with everything up to the first
    closing one.  [inside] tells that such a parenthesis is open. *)
Fixpoint remove_parens (inside : bool) (s : str) : str :=
  match s with
  | [] => []
  | c :: s' =>
      if inside then
        if ascii_eqb c rparen then remove_parens false s'
        else remove_parens true s'
      else if ascii_eqb c lparen && has_close s' then remove_parens true s'
      else c :: remove_parens false s'
  end.

Definition normalize_ingredient_name (pd_name : str) : str :=
  let pd_name :=
    if has_comma pd_name then strip (fst (split_first_comma pd_name))
    else pd_name in
  let pd_name := strip (remove_parens false pd_name) in
  upper pd_name.

(** No opening parenthesis has a closing one after it. *)
Fixpoint no_parenthetical (s : str) : Prop :=
  match s with
  | [] => True
  | c :: s' =>
      (ascii_eqb c lparen = true -> has_close s' = false)
      /\ no_parenthetical s'
  end.


(** ** Binary64 scores

    The scores of the code are Python floats, IEEE 754 binary64 numbers, and
    the order in which the candidate words are processed depends on their
    last bit: two scores that are equal as rationals need not be equal as
    floats.  In module [Binary64] a float is the rational number it denotes,
    and every operation computes its exact result and rounds it to 53
    significant bits, to the nearest and ties to even, which is binary64 in
    its normal range; the numbers of the scorer stay in that range on data
    of fewer than 2^1000 words.  An [int] below 2^53 is its own float, and
    Python compares an [int] with a float exactly. *)

(** The nearest integer to [num / den], ties to even, for [0 <= num] and
    [0 < den]. *)
Definition round_half_even (num den : Z) : Z :=
  let m := (num / den)%Z in
  match (2 * (num mod den) ?= den)%Z with
  | Lt => m
  | Gt => (m + 1)%Z
  | Eq => if Z.even m then m else (m + 1)%Z
  end.

(** [a / (d * 2^e)] as a fraction of integers. *)
Definition scale (a d e : Z) : Z * Z :=
  if (0 <=? e)%Z then (a, d * 2 ^ e)%Z else (a * 2 ^ (- e), d)%Z.

(** [a / d] rounded to [m * 2^e] with [2^52 <= m <= 2^53], for positive [a]
    and [d]: [e] is the exponent with [2^52 <= a / (d * 2^e) < 2^53]. *)
Definition round64_pos (a d : Z) : Q :=
  let e0 := (Z.log2 a - Z.log2 d - 52)%Z in
  let e := if (fst (scale a d e0) / snd (scale a d e0) <? 2 ^ 52)%Z
           then (e0 - 1)%Z else e0 in
  let m := round_half_even (fst (scale a d e)) (snd (scale a d e)) in
  if (0 <=? e)%Z then inject_Z (m * 2 ^ e)
  else Qred (m # Z.to_pos (2 ^ (- e))).

Definition round64 (q : Q) : Q :=
  match Qnum q with
  | Z0 => 0%Q
  | Zpos a => round64_pos (Zpos a) (Zpos (Qden q))
  | Zneg a => (- round64_pos (Zpos a) (Zpos (Qden q)))%Q
  end.

(** The binary64 numbers of the kernel, to compare [round64] with: the
    rational that a finite float denotes, and the float of a natural
    number. *)
Definition Q_of_float (f : PrimFloat.float) : Q :=
  match FloatOps.Prim2SF f with
  | SpecFloat.S754_finite s m e =>
      let v := if (0 <=? e)%Z then inject_Z (Zpos m * 2 ^ e)
               else Qred (Zpos m # Z.to_pos (2 ^ (- e))) in
      if s then (- v)%Q else v
  | _ => 0%Q
  end.

Definition float_of_nat (n : nat) : PrimFloat.float :=
  PrimFloat.of_uint63 (Uint63.of_Z (Z.of_nat n)).

(** Floats to try the operations on: the ratios [a / b] with [a <= b + 1]
    and [b <= 7], the literals 0.1, 0.15 and 0.3, and integers that are
    sizes, bases and bonuses of scores. *)
Definition sample_floats : list PrimFloat.float :=
  flat_map (fun b => map (fun a => PrimFloat.div (float_of_nat a)
                                                 (float_of_nat b))
                         (seq 0 (b + 2)))
           (seq 1 7)
  ++ map (fun ab => PrimFloat.div (float_of_nat (fst ab))
                                  (float_of_nat (snd ab)))
         [(1, 10); (3, 20); (3, 10)]
  ++ map float_of_nat [10; 20; 22; 30; 40; 50; 100; 190; 1000].

Definition agrees (op : Q -> Q -> Q)
    (prim_op : PrimFloat.float -> PrimFloat.float -> PrimFloat.float)
    (x y : PrimFloat.float) : bool :=
  Qeq_bool (round64 (op (Q_of_float x) (Q_of_float y)))
           (Q_of_float (prim_op x y)).

Definition agrees_on_samples (op : Q -> Q -> Q)
    (prim_op : PrimFloat.float -> PrimFloat.float -> PrimFloat.float)
    : bool :=
  forallb (fun x => forallb (agrees op prim_op x) sample_floats)
          sample_floats.

Module Binary64.

(** [float(n)] *)
Definition float_of_int (n : nat) : Q := round64 (Qnat n).

(** [x + y] and [x * y] on floats, and on an [int] and a float. *)
Definition add (x y : Q) : Q := round64 (x + y).
Definition mul (x y : Q) : Q := round64 (x * y).

(** [a / b] on two [int]s: the quotient, correctly rounded. *)
Definition true_div (a b : nat) : Q := round64 (Qnat a / Qnat b).

(** The literals [0.1], [0.15] and [0.3]. *)
Definition MAX_INGREDIENT_PERCENTAGE : Q := round64 (1 # 10).
Definition PROCESSING_TERM_THRESHOLD : Q := round64 (15 # 100).
Definition BASE_WORD_DIVERSITY_RATIO : Q := round64 (3 # 10).

Definition calculate_word_coherence (word : str)
    (ingredients_with_word : list str) : Q :=
  if length ingredients_with_word <? MIN_GROUP_SIZE then 0%Q
  else
    let other_words_counter :=
      fold_left (count_other_words word) ingredients_with_word [] in
    let total_other_words := list_sum (map snd other_words_counter) in
    if total_other_words =? 0 then 0%Q
    else
      let shared_words := filter (fun wc => 1 <? snd wc) other_words_counter in
      let coherence_ratio :=
        match other_words_counter with
        | [] => 0%Q
        | _ => true_div (length shared_words) (length other_words_counter)
        end in
      mul coherence_ratio COHERENCE_MULTIPLIER.

Definition calculate_grouping_potential (word : str)
    (ingredients_with_word : list str) (all_ingredients : list str) : Q :=
  let num_ingredients := length ingredients_with_word in
  if num_ingredients <? MIN_GROUP_SIZE then 0%Q
  else if Qltb (mul (float_of_int (length all_ingredients))
                    MAX_INGREDIENT_PERCENTAGE)
               (Qnat num_ingredients) then 0%Q
  else
    let score := Qnat (Nat.min (num_ingredients * 10) MAX_FREQUENCY_SCORE) in
    let coherence_score := calculate_word_coherence word ingredients_with_word in
    let score := add score coherence_score in
    let beginning_appearances :=
      length (filter (fun ing => startswith (clean_ingredient_name ing)
                                            (word ++ [space]))
                     ingredients_with_word) in
    let beginning_ratio := true_div beginning_appearances num_ingredients in
    let score := add score (mul beginning_ratio BEGINNING_WORD_BONUS) in
    if 6 <=? length word then add score LONG_WORD_BONUS
    else if 4 <=? length word then add score MEDIUM_WORD_BONUS
    else score.

Definition identify_processing_terms_dynamically
    (word_frequency : dict nat) (word_to_ingredients : dict (list str))
    : list str :=
  fold_left
    (fun processing_terms wf =>
       let word := fst wf in
       let frequency := snd wf in
       if Qltb (mul (float_of_int (length word_to_ingredients))
                    PROCESSING_TERM_THRESHOLD)
               (Qnat frequency)
       then
         let ingredients := dict_get_default word_to_ingredients word [] in
         let base_word_diversity :=
           fold_left (add_base_words word) ingredients [] in
         if Qltb (mul (float_of_int frequency) BASE_WORD_DIVERSITY_RATIO)
                 (Qnat (length base_word_diversity))
         then set_add word processing_terms
         else processing_terms
       else processing_terms)
    word_frequency [].

Definition score_word (ingredients_df : list row)
    (processing_terms : list str) (word_scores : dict Q)
    (entry : str * list str) : dict Q :=
  let word := fst entry in
  let ingredients_with_word := snd entry in
  if str_mem word processing_terms then word_scores
  else
    let score := calculate_grouping_potential word ingredients_with_word
                   (map pd_name ingredients_df) in
    if Qle_bool MIN_SCORE_THRESHOLD score
    then dict_set word score word_scores
    else word_scores.

(** [word_scores], the candidate words with their scores. *)
Definition word_scores_of (ingredients_df : list row) : dict Q :=
  let '(word_frequency, word_to_ingredients) :=
    find_word_frequencies ingredients_df in
  let processing_terms :=
    identify_processing_terms_dynamically word_frequency word_to_ingredients in
  fold_left (score_word ingredients_df processing_terms) word_to_ingredients [].

(** [sorted(word_scores.items(), key=lambda x: x[1], reverse=True)] *)
Definition sorted_words_of (ingredients_df : list row) : list (str * Q) :=
  sorted_by score_before (word_scores_of ingredients_df).

Definition find_consolidation_groups (ingredients_df : list row)
    : dict (list child) :=
  fst (assign_groups ingredients_df (snd (find_word_frequencies ingredients_df))
                     (sorted_words_of ingredients_df)).

End Binary64.

(** The binary64 score of an entry of the word index, and whether the entry
    becomes a candidate: its word is no processing term and its score is at
    least the threshold. *)
Definition binary64_score (ingredients_df : list row)
    (entry : str * list str) : Q :=
  Binary64.calculate_grouping_potential (fst entry) (snd entry)
                                        (map pd_name ingredients_df).

Definition binary64_candidate (ingredients_df : list row)
    (processing_terms : list str) (entry : str * list str) : bool :=
  negb (str_mem (fst entry) processing_terms)
  && Qle_bool MIN_SCORE_THRESHOLD (binary64_score ingredients_df entry).

(** The words of all the names, by row and then by position in the name. *)
Definition all_tokens (ingredients_df : list row) : list str :=
  flat_map (fun r => extract_meaningful_words (pd_name r)) ingredients_df.

(** The distinct words of a list in the order in which they are first
    seen. *)
Definition first_seen (words : list str) : list str :=
  fold_left (fun seen w => if str_mem w seen then seen else seen ++ [w])
            words [].

(** The word [w] is a candidate of [word_scores] with the score [q]. *)
Definition scored (word_scores : dict Q) (q : Q) (w : str) : bool :=
  match dict_get word_scores w with
  | Some s => Qeq_bool s q
  | None => false
  end.

(** Twenty ingredients in which [BUTTER], seen first, and [HAM] both have
    the score 160/3 in exact arithmetic: 20 + 40/3 + 0 + 20 for [BUTTER] and
    20 + 100/3 + 0 for [HAM]. *)
Definition larder_df : list row :=
  [ ($"ALMOND NUT BUTTER", $"Nut"); ($"CASHEW NUT BUTTER", $"Nut");
    ($"SMOKED PORK LEG BONE DELI HAM", $"Meat");
    ($"GLAZED SMOKED PORK LEG BONE DELI HAM", $"Meat");
    ($"BANANA", $"Fruit"); ($"CARROT", $"Vegetable");
    ($"CELERY", $"Vegetable"); ($"GARLIC", $"Vegetable");
    ($"GINGER", $"Spice"); ($"LEMON", $"Fruit"); ($"LIME", $"Fruit");
    ($"MANGO", $"Fruit"); ($"ONION", $"Vegetable"); ($"PAPAYA", $"Fruit");
    ($"PEACH", $"Fruit"); ($"PLUM", $"Fruit"); ($"POTATO", $"Vegetable");
    ($"RADISH", $"Vegetable"); ($"SPINACH", $"Vegetable");
    ($"TOMATO", $"Vegetable") ].

(** * Properties *)

(** ** The examples of the specification *)

Example tokenize_example :
  extract_meaningful_words $"  cheddar  (sharp) cheese of the Alps, aged! "
  = [$"CHEDDAR"; $"SHARP"; $"CHEESE"; $"ALPS,"; $"AGED"].
Proof. vm_compute. reflexivity. Qed.

Example parse_two_children :
  parse_consolidation_proposal two_children_proposal
  = [ ($"CHEESE", [ mk_child $"cheddar cheese" $"dairy";
                    mk_child $"swiss cheese" $"dairy" ]) ].
Proof. vm_compute. reflexivity. Qed.

Example depth_single_edge :
  calculate_depth (child_to_parents_of [($"CHEESE", $"CHEDDAR CHEESE")])
                  $"CHEDDAR CHEESE" = 1
  /\ calculate_depth (child_to_parents_of [($"CHEESE", $"CHEDDAR CHEESE")])
                     $"CHEESE" = 0.
Proof. vm_compute. split; reflexivity. Qed.

Example orchard_groups :
  map fst (find_consolidation_groups orchard_df) = [$"PEAR"; $"APPLE"].
Proof. vm_compute. reflexivity. Qed.

(** ** Strings and dictionaries *)

Lemma ascii_eqb_eq (a b : ascii) : ascii_eqb a b = true <-> a = b.
Proof. apply Ascii.eqb_eq. Qed.

Lemma str_eqb_eq (a b : str) : str_eqb a b = true <-> a = b.
Proof.
  revert b; induction a as [|x a IH]; intros [|y b]; simpl;
    try (split; [discriminate | discriminate]); [tauto|].
  rewrite andb_true_iff, ascii_eqb_eq, IH.
  split; [intros [-> ->]; reflexivity | intros H; inversion H; auto].
Qed.

Lemma str_eqb_refl (a : str) : str_eqb a a = true.
Proof. apply str_eqb_eq; reflexivity. Qed.

Lemma str_eqb_neq (a b : str) : str_eqb a b = false <-> a <> b.
Proof.
  split.
  - intros H E. apply str_eqb_eq in E. congruence.
  - intros H. destruct (str_eqb a b) eqn:E; [|reflexivity].
    apply str_eqb_eq in E. contradiction.
Qed.

Lemma str_eqb_sym (a b : str) : str_eqb a b = str_eqb b a.
Proof.
  destruct (str_eqb a b) eqn:E.
  - apply str_eqb_eq in E. subst. symmetry. apply str_eqb_refl.
  - apply str_eqb_neq in E. symmetry. apply str_eqb_neq. congruence.
Qed.

Lemma str_mem_In (w : str) (l : list str) : str_mem w l = true <-> In w l.
Proof.
  unfold str_mem. rewrite existsb_exists. split.
  - intros [x [Hx E]]. apply str_eqb_eq in E. subst. assumption.
  - intros H. exists w. split; [assumption | apply str_eqb_refl].
Qed.

Lemma str_mem_not_In (w : str) (l : list str) :
  str_mem w l = false <-> ~ In w l.
Proof.
  rewrite <- str_mem_In. destruct (str_mem w l); split; congruence.
Qed.

Ltac str_cases a b :=
  let E := fresh "E" in
  destruct (str_eqb a b) eqn:E;
  [apply str_eqb_eq in E | apply str_eqb_neq in E].

(** ** Tokenizer *)

Lemma upper_char_idem (c : ascii) : upper_char (upper_char c) = upper_char c.
Proof.
  destruct c as [b0 b1 b2 b3 b4 b5 b6 b7].
  destruct b0, b1, b2, b3, b4, b5, b6, b7; reflexivity.
Qed.

Lemma lstrip_no_lead (s : str) : no_lead (lstrip s).
Proof.
  induction s as [|c s IH]; simpl; [exact I|].
  destruct (is_space c) eqn:E; [assumption | simpl; assumption].
Qed.

Lemma lstrip_fixed (s : str) : no_lead s -> lstrip s = s.
Proof. destruct s as [|c s]; simpl; [reflexivity|]. intros ->. reflexivity. Qed.

Lemma rstrip_no_lead (s : str) : no_lead s -> no_lead (rstrip s).
Proof.
  destruct s as [|c s]; simpl; [exact (fun H => H)|].
  intros H. destruct (rstrip s); [rewrite H|]; simpl; assumption.
Qed.

Lemma rstrip_idem (s : str) : rstrip (rstrip s) = rstrip s.
Proof.
  induction s as [|c s IH]; simpl; [reflexivity|].
  destruct (rstrip s) as [|d r] eqn:E.
  - destruct (is_space c) eqn:Ec; simpl; [reflexivity|].
    rewrite Ec. reflexivity.
  - change (rstrip (c :: d :: r)) with
      (match rstrip (d :: r) with
       | [] => if is_space c then [] else [c]
       | r' => c :: r'
       end).
    rewrite IH. reflexivity.
Qed.

Lemma strip_idem (s : str) : strip (strip s) = strip s.
Proof.
  unfold strip.
  rewrite (lstrip_fixed (rstrip (lstrip s))).
  - apply rstrip_idem.
  - apply rstrip_no_lead, lstrip_no_lead.
Qed.

Section CharInvariant.
Variable P : ascii -> Prop.

Lemma Forall_lstrip (s : str) : Forall P s -> Forall P (lstrip s).
Proof.
  induction 1 as [|c s Hc Hs IH]; simpl; [constructor|].
  destruct (is_space c); [assumption | constructor; assumption].
Qed.

Lemma Forall_rstrip (s : str) : Forall P s -> Forall P (rstrip s).
Proof.
  induction 1 as [|c s Hc Hs IH]; simpl; [constructor|].
  destruct (rstrip s).
  - destruct (is_space c); constructor; [assumption | constructor].
  - constructor; assumption.
Qed.

Lemma Forall_strip (s : str) : Forall P s -> Forall P (strip s).
Proof. intros H. apply Forall_rstrip, Forall_lstrip, H. Qed.

Hypothesis P_space : P space.

Lemma Forall_sub_special (s : str) : Forall P s -> Forall P (sub_special s).
Proof.
  induction 1 as [|c s Hc Hs IH]; simpl; constructor; [|assumption].
  destruct (is_kept c); assumption.
Qed.

Lemma Forall_sub_spaces (b : bool) (s : str) :
  Forall P s -> Forall P (sub_spaces b s).
Proof.
  intros H. revert b. induction H as [|c s Hc Hs IH]; intros b; simpl;
    [constructor|].
  destruct (is_space c), b; try constructor; auto.
Qed.
End CharInvariant.

Lemma sub_special_kept (s : str) : Forall (fun c => is_kept c = true) (sub_special s).
Proof.
  induction s as [|c s IH]; simpl; constructor; [|assumption].
  destruct (is_kept c) eqn:E; [assumption | reflexivity].
Qed.

Lemma sub_special_fixed (s : str) :
  Forall (fun c => is_kept c = true) s -> sub_special s = s.
Proof.
  induction 1 as [|c s Hc Hs IH]; simpl; [reflexivity|].
  rewrite Hc. f_equal. assumption.
Qed.

Lemma upper_fixed (s : str) :
  Forall (fun c => upper_char c = c) s -> upper s = s.
Proof.
  induction 1 as [|c s Hc Hs IH]; simpl; [reflexivity|].
  rewrite Hc. f_equal. assumption.
Qed.

Lemma upper_is_upper (s : str) : Forall (fun c => upper_char c = c) (upper s).
Proof.
  induction s as [|c s IH]; simpl; constructor;
    [apply upper_char_idem | assumption].
Qed.

Lemma sub_spaces_single_spaced (b : bool) (s : str) :
  single_spaced (sub_spaces b s) /\ (b = true -> no_lead (sub_spaces b s)).
Proof.
  revert b. induction s as [|c s IH]; intros b; simpl; [auto|].
  destruct (is_space c) eqn:Ec.
  - destruct b.
    + apply IH.
    + destruct (IH true) as [H1 H2]. repeat split; auto. discriminate.
  - simpl. destruct (IH false) as [H1 _]. repeat split; auto; congruence.
Qed.

Lemma single_spaced_fixed (b : bool) (s : str) :
  single_spaced s -> (b = true -> no_lead s) -> sub_spaces b s = s.
Proof.
  revert b. induction s as [|c s IH]; intros b; simpl; [reflexivity|].
  intros [Hc Hs] Hb. destruct (is_space c) eqn:Ec.
  - destruct b; [specialize (Hb eq_refl); congruence|].
    destruct (Hc eq_refl) as [-> Hl]. f_equal. apply IH; auto.
  - f_equal. apply IH; [assumption | discriminate].
Qed.

Lemma single_spaced_lstrip (s : str) :
  single_spaced s -> single_spaced (lstrip s).
Proof.
  induction s as [|c s IH]; simpl; [auto|]. intros [Hc Hs].
  destruct (is_space c) eqn:Ec; [auto | simpl; split; [congruence | auto]].
Qed.

Lemma single_spaced_rstrip (s : str) :
  single_spaced s -> single_spaced (rstrip s).
Proof.
  induction s as [|c s IH]; simpl; [auto|]. intros [Hc Hs].
  destruct (rstrip s) as [|d r] eqn:E.
  - destruct (is_space c) eqn:Ec; simpl; [exact I|].
    repeat split; auto. congruence.
  - split; [|auto]. intros Hsp. destruct (Hc Hsp) as [-> Hl]. split; [reflexivity|].
    rewrite <- E. apply rstrip_no_lead, Hl.
Qed.

Lemma clean_ingredient_name_idem (name : str) :
  clean_ingredient_name (clean_ingredient_name name) = clean_ingredient_name name.
Proof.
  set (t := clean_ingredient_name name).
  assert (Hup : Forall (fun c => upper_char c = c) t).
  { unfold t, clean_ingredient_name.
    apply Forall_strip, Forall_sub_spaces, Forall_sub_special;
      try reflexivity.
    apply Forall_strip, upper_is_upper. }
  assert (Hkept : Forall (fun c => is_kept c = true) t).
  { unfold t, clean_ingredient_name.
    apply Forall_strip, Forall_sub_spaces; [reflexivity|].
    apply sub_special_kept. }
  assert (Hsp : single_spaced t).
  { unfold t, clean_ingredient_name, strip.
    apply single_spaced_rstrip, single_spaced_lstrip, sub_spaces_single_spaced. }
  assert (Hstrip : strip t = t).
  { unfold t, clean_ingredient_name. apply strip_idem. }
  unfold clean_ingredient_name at 1.
  rewrite (upper_fixed Hup), Hstrip, (sub_special_fixed Hkept).
  rewrite (single_spaced_fixed (b:=false) t Hsp); [assumption | discriminate].
Qed.

(** C9. Tokenization is idempotent: the meaningful words of the cleaned
    form of a string are the meaningful words of the string itself. *)
Theorem extract_meaningful_words_idempotent (raw : str) :
  extract_meaningful_words (clean_ingredient_name raw)
  = extract_meaningful_words raw.
Proof.
  unfold extract_meaningful_words.
  rewrite clean_ingredient_name_idem. reflexivity.
Qed.

(** ** Dictionaries *)

Section DictFacts.
Variable V : Type.
Implicit Types (d : dict V) (k : str).

Lemma dict_get_upd_same (f : V -> V) dflt k d :
  dict_get (dict_upd f dflt k d) k = Some (f (dict_get_default d k dflt)).
Proof.
  unfold dict_get_default.
  induction d as [|[k' v] d IH]; simpl.
  - rewrite str_eqb_refl. reflexivity.
  - destruct (str_eqb k k') eqn:E; simpl; rewrite E; [reflexivity | exact IH].
Qed.

Lemma dict_get_upd_other (f : V -> V) dflt k k0 d :
  k0 <> k -> dict_get (dict_upd f dflt k d) k0 = dict_get d k0.
Proof.
  intros Hne. induction d as [|[k' v] d IH]; simpl.
  - apply str_eqb_neq in Hne. rewrite Hne. reflexivity.
  - str_cases k k'; simpl.
    + subst k'. apply str_eqb_neq in Hne. rewrite Hne. reflexivity.
    + rewrite IH. reflexivity.
Qed.

Lemma dict_mem_keys d k : dict_mem d k = true <-> In k (map fst d).
Proof.
  unfold dict_mem. rewrite existsb_exists, in_map_iff. split.
  - intros [kv [Hin E]]. apply str_eqb_eq in E. exists kv. auto.
  - intros [kv [E Hin]]. exists kv. split; [assumption|].
    apply str_eqb_eq. auto.
Qed.

Lemma dict_get_None d k : dict_get d k = None <-> ~ In k (map fst d).
Proof.
  induction d as [|[k' v] d IH]; simpl; [tauto|].
  str_cases k k'.
  - subst. split; [discriminate | intros H; exfalso; apply H; auto].
  - rewrite IH. split; [intros H [H1|H1]; auto | tauto].
Qed.

Lemma dict_upd_keys (f : V -> V) dflt k d :
  map fst (dict_upd f dflt k d)
  = if dict_mem d k then map fst d else map fst d ++ [k].
Proof.
  unfold dict_mem. induction d as [|[k' v] d IH]; simpl; [reflexivity|].
  destruct (str_eqb k k') eqn:E; simpl; [reflexivity|].
  rewrite IH. destruct (existsb _ d); reflexivity.
Qed.

Lemma dict_upd_keys_NoDup (f : V -> V) dflt k d :
  NoDup (map fst d) -> NoDup (map fst (dict_upd f dflt k d)).
Proof.
  intros H. rewrite dict_upd_keys. destruct (dict_mem d k) eqn:E; [assumption|].
  apply NoDup_app; [assumption | constructor; [intros []|constructor] |].
  intros x Hx [<-|[]]. apply dict_mem_keys in Hx. congruence.
Qed.

Lemma dict_get_In d k v : dict_get d k = Some v -> In (k, v) d.
Proof.
  induction d as [|[k' v'] d IH]; simpl; [discriminate|].
  str_cases k k'.
  - intros H; inversion H; subst. auto.
  - auto.
Qed.

Lemma dict_In_get d k v : NoDup (map fst d) -> In (k, v) d -> dict_get d k = Some v.
Proof.
  induction d as [|[k' v'] d IH]; simpl; [intros _ []|].
  intros Hnd [H|H].
  - inversion H; subst. rewrite str_eqb_refl. reflexivity.
  - inversion Hnd as [|? ? Hn Hnd']; subst. str_cases k k'.
    + subst. exfalso. apply Hn. apply in_map_iff. exists (k', v). auto.
    + auto.
Qed.
End DictFacts.

Lemma counter_get_incr (c : dict nat) (k w : str) :
  counter_get (counter_incr k c) w
  = counter_get c w + (if str_eqb w k then 1 else 0).
Proof.
  unfold counter_get, counter_incr. str_cases w k.
  - subst. unfold dict_get_default at 1. rewrite dict_get_upd_same. lia.
  - unfold dict_get_default. rewrite dict_get_upd_other by assumption. lia.
Qed.

(** ** WordIndex *)

Lemma index_row_frequency (words : list str) (n w : str)
    (st : dict nat * dict (list str)) :
  counter_get (fst (fold_left (index_word n) words st)) w
  = counter_get (fst st) w + occurrences w words.
Proof.
  revert st. induction words as [|x words IH]; intros st; simpl.
  - unfold occurrences. simpl. lia.
  - rewrite IH. simpl. rewrite counter_get_incr. unfold occurrences. simpl.
    destruct (str_eqb w x); simpl; lia.
Qed.

Lemma find_word_frequencies_frequency (df : list row) (w : str)
    (st : dict nat * dict (list str)) :
  counter_get (fst (fold_left index_row df st)) w
  = counter_get (fst st) w + token_occurrences df w.
Proof.
  revert st. induction df as [|r df IH]; intros st; simpl.
  - unfold token_occurrences. simpl. lia.
  - rewrite IH. unfold index_row. rewrite index_row_frequency.
    unfold token_occurrences. simpl. lia.
Qed.

Lemma occurrences_NoDup (w : str) (words : list str) :
  NoDup words -> occurrences w words = if str_mem w words then 1 else 0.
Proof.
  unfold occurrences, str_mem.
  induction 1 as [|x words Hx Hnd IH]; simpl; [reflexivity|].
  str_cases w x; simpl.
  - subst x. rewrite IH.
    destruct (existsb (str_eqb w) words) eqn:Em; [|reflexivity].
    exfalso. apply Hx. apply str_mem_In. exact Em.
  - exact IH.
Qed.

Lemma nodup_fixed (l : list str) : NoDup l -> nodup str_dec l = l.
Proof. apply nodup_fixed_point. Qed.

Lemma NoDup_filter_str (f : str -> bool) (l : list str) :
  NoDup l -> NoDup (filter f l).
Proof. apply NoDup_filter. Qed.

(** C5, as the code has it.  The count of a word is the number of its token
    occurrences over all the rows, so that a word that occurs twice in one
    name counts twice; it is the number of distinct ingredients with the
    word when the names are pairwise distinct and no name repeats a word. *)
Theorem word_frequency_counts_tokens (ingredients_df : list row) (w : str) :
  counter_get (fst (find_word_frequencies ingredients_df)) w
  = token_occurrences ingredients_df w
  /\ (NoDup (map pd_name ingredients_df) ->
      (forall r, In r ingredients_df ->
                 NoDup (extract_meaningful_words (pd_name r))) ->
      counter_get (fst (find_word_frequencies ingredients_df)) w
      = distinct_ingredients_with ingredients_df w).
Proof.
  assert (Hfreq : counter_get (fst (find_word_frequencies ingredients_df)) w
                  = token_occurrences ingredients_df w).
  { unfold find_word_frequencies.
    rewrite find_word_frequencies_frequency. reflexivity. }
  split; [exact Hfreq|].
  intros Hnames Hwords. rewrite Hfreq.
  unfold distinct_ingredients_with.
  rewrite nodup_fixed by (apply NoDup_filter_str, Hnames).
  clear Hfreq Hnames. unfold token_occurrences.
  induction ingredients_df as [|r df IH]; simpl; [reflexivity|].
  rewrite IH by (intros; apply Hwords; right; assumption).
  rewrite occurrences_NoDup by (apply Hwords; left; reflexivity).
  unfold pd_name.
  destruct (str_mem w (extract_meaningful_words (fst r))); reflexivity.
Qed.

Lemma word_frequency_counts_tokens_witness :
  counter_get (fst (find_word_frequencies cheese_df)) $"CHEESE"
  = distinct_ingredients_with cheese_df $"CHEESE".
Proof.
  apply (word_frequency_counts_tokens cheese_df $"CHEESE").
  - vm_compute. repeat constructor; simpl; intuition discriminate.
  - intros r Hr. simpl in Hr.
    repeat (destruct Hr as [<-|Hr]; [vm_compute; repeat constructor; simpl; intuition discriminate|]).
    destruct Hr.
Defined.

(** C5, as the specification states it, fails: the word [HALF] occurs twice
    in the one name [HALF AND HALF] and is counted twice. *)
Lemma word_frequency_counts_ingredients_fails :
  extract_meaningful_words $"HALF AND HALF" = [$"HALF"; $"HALF"]
  /\ counter_get (fst (find_word_frequencies half_and_half_df)) $"HALF" = 2
  /\ distinct_ingredients_with half_and_half_df $"HALF" = 1.
Proof. vm_compute. repeat split. Qed.

(** The posting lists of the word index are sets: no name twice. *)
Lemma set_add_NoDup (x : str) (s : list str) : NoDup s -> NoDup (set_add x s).
Proof.
  intros H. unfold set_add. destruct (str_mem x s) eqn:E; [assumption|].
  apply str_mem_not_In in E.
  apply NoDup_app; [assumption | constructor; [intros []|constructor] |].
  intros y Hy [<-|[]]. contradiction.
Qed.

Lemma dict_upd_Forall (V : Type) (P : V -> Prop) (f : V -> V) (dflt : V)
    (k : str) (d : dict V) :
  (forall v, P v -> P (f v)) -> P dflt ->
  Forall (fun kv => P (snd kv)) d ->
  Forall (fun kv => P (snd kv)) (dict_upd f dflt k d).
Proof.
  intros Hf Hd. induction 1 as [|[k' v] d Hv Hrest IH]; simpl.
  - constructor; [simpl; auto | constructor].
  - destruct (str_eqb k k'); constructor; simpl in *; auto.
Qed.

Lemma find_word_frequencies_postings (df : list row) :
  postings_ok (snd (find_word_frequencies df)).
Proof.
  unfold find_word_frequencies.
  assert (H : postings_ok (snd (@nil (str * nat), @nil (str * list str))))
    by constructor.
  revert H. generalize (@nil (str * nat), @nil (str * list str)).
  induction df as [|r df IH]; intros st Hst; simpl; [assumption|].
  apply IH. unfold index_row.
  generalize (extract_meaningful_words (pd_name r)) as words.
  intros words. revert st Hst.
  induction words as [|w words IHw]; intros st Hst; simpl; [assumption|].
  apply IHw. simpl. apply dict_upd_Forall;
    [intros v; apply set_add_NoDup | constructor | assumption].
Qed.

(** The names in the posting lists are names of rows, where the lookup of
    the food group finds a row. *)
Lemma lookup_food_group_row (df : list row) (ing : str) :
  In ing (map pd_name df) ->
  exists r, In r df /\ pd_name r = ing
            /\ lookup_food_group df ing = row_food_group r.
Proof.
  intros Hin. unfold lookup_food_group.
  destruct (find (fun r => str_eqb (pd_name r) ing) df) as [r|] eqn:E.
  - apply find_some in E. destruct E as [Hr Heq]. apply str_eqb_eq in Heq.
    exists r. auto.
  - exfalso. apply in_map_iff in Hin. destruct Hin as [r [Hr Hin]].
    pose proof (find_none _ _ E r Hin) as Hf. cbv beta in Hf.
    rewrite Hr, str_eqb_refl in Hf. discriminate Hf.
Qed.

Lemma set_add_incl (x : str) (s names : list str) :
  In x names -> incl s names -> incl (set_add x s) names.
Proof.
  intros Hx Hs. unfold set_add. destruct (str_mem x s); [assumption|].
  apply incl_app; [assumption|]. intros y [<-|[]]. assumption.
Qed.

Lemma index_rows_incl (names : list str) (rows : list row)
    (st : dict nat * dict (list str)) :
  (forall r, In r rows -> In (pd_name r) names) ->
  Forall (fun kv : str * list str => incl (snd kv) names) (snd st) ->
  Forall (fun kv : str * list str => incl (snd kv) names)
         (snd (fold_left index_row rows st)).
Proof.
  revert st. induction rows as [|r rows IH]; intros st Hrows Hst; simpl;
    [assumption|].
  apply IH; [intros x Hx; apply Hrows; right; assumption|].
  assert (Hr : In (pd_name r) names) by (apply Hrows; left; reflexivity).
  unfold index_row.
  generalize (extract_meaningful_words (pd_name r)) as words.
  intros words. revert st Hst.
  induction words as [|w words IHw]; intros st Hst; simpl; [assumption|].
  apply IHw. simpl. apply (@dict_upd_Forall _ (fun v => incl v names));
    [intros v; apply set_add_incl; assumption | intros x [] | assumption].
Qed.

Lemma postings_from_rows (df : list row) (word ing : str) :
  In ing (dict_get_default (snd (find_word_frequencies df)) word []) ->
  In ing (map pd_name df).
Proof.
  assert (H : Forall (fun kv : str * list str => incl (snd kv) (map pd_name df))
                     (snd (find_word_frequencies df))).
  { unfold find_word_frequencies. apply index_rows_incl; [|constructor].
    intros r Hr. apply in_map. assumption. }
  unfold dict_get_default.
  destruct (dict_get _ word) as [l|] eqn:E; [|intros []].
  apply dict_get_In in E. rewrite Forall_forall in H.
  apply (H _ E).
Qed.

Lemma find_word_frequencies_keys (df : list row) :
  NoDup (map fst (snd (find_word_frequencies df))).
Proof.
  unfold find_word_frequencies.
  assert (H : NoDup (map fst (snd (@nil (str * nat), @nil (str * list str)))))
    by constructor.
  revert H. generalize (@nil (str * nat), @nil (str * list str)).
  induction df as [|r df IH]; intros st Hst; simpl; [assumption|].
  apply IH. unfold index_row.
  generalize (extract_meaningful_words (pd_name r)) as words.
  intros words. revert st Hst.
  induction words as [|w words IHw]; intros st Hst; simpl; [assumption|].
  apply IHw. simpl. apply dict_upd_keys_NoDup. assumption.
Qed.

Lemma postings_get_NoDup (w2i : dict (list str)) (word : str) :
  postings_ok w2i -> NoDup (dict_get_default w2i word []).
Proof.
  intros H. unfold dict_get_default.
  destruct (dict_get w2i word) as [l|] eqn:E; [|constructor].
  apply dict_get_In in E. unfold postings_ok in H.
  rewrite Forall_forall in H. apply (H _ E).
Qed.

(** ** GroupAssigner *)

Lemma fold_add_group_child (df : list row) (avail : list str)
    (g : list child) (cnt : dict nat) :
  fold_left (add_group_child df) avail (g, cnt)
  = (g ++ map (fun i => mk_child i (lookup_food_group df i)) avail,
     fold_left (fun c i => counter_incr i c) avail cnt).
Proof.
  revert g cnt. induction avail as [|i avail IH]; intros g cnt; simpl.
  - rewrite app_nil_r. reflexivity.
  - unfold add_group_child at 2. simpl. rewrite IH, <- app_assoc. reflexivity.
Qed.

Lemma counter_get_fold_incr (l : list str) (cnt : dict nat) (ing : str) :
  counter_get (fold_left (fun c i => counter_incr i c) l cnt) ing
  = counter_get cnt ing + occurrences ing l.
Proof.
  revert cnt. induction l as [|i l IH]; intros cnt; simpl.
  - unfold occurrences. simpl. lia.
  - rewrite IH, counter_get_incr. unfold occurrences. simpl.
    destruct (str_eqb ing i); simpl; lia.
Qed.


Lemma scan_left_last (A B : Type) (f : A -> B -> A) (l : list B) (a d : A) :
  last (scan_left f l a) d = fold_left f l a.
Proof.
  revert a. induction l as [|b l IH]; intros a; [reflexivity|].
  simpl fold_left. rewrite <- IH. simpl. destruct l; reflexivity.
Qed.


Lemma occurrences_pos_In (w : str) (l : list str) :
  0 < occurrences w l -> In w l.
Proof.
  unfold occurrences. intros H.
  destruct (filter (str_eqb w) l) as [|x t] eqn:E; [simpl in H; lia|].
  assert (Hx : In x (filter (str_eqb w) l)) by (rewrite E; left; reflexivity).
  apply filter_In in Hx. destruct Hx as [Hin Heq].
  apply str_eqb_eq in Heq. subst. assumption.
Qed.







Lemma last_app_nonempty (A : Type) (l1 l2 : list A) (d : A) :
  l2 <> [] -> last (l1 ++ l2) d = last l2 d.
Proof.
  intros H. induction l1 as [|x l1 IH]; [reflexivity|].
  simpl. rewrite IH. destruct (l1 ++ l2) eqn:E; [|reflexivity].
  apply app_eq_nil in E. destruct E. contradiction.
Qed.

Lemma parent_count_trace_nonempty (df : list row) (w2i : dict (list str))
    (words : list (str * Q)) (st : assign_state) :
  parent_count_trace df w2i words st <> [].
Proof.
  revert st. induction words as [|ws words IH]; intros st;
    cbn [parent_count_trace]; [discriminate|].
  intros H. apply app_eq_nil in H. destruct H as [_ H]. exact (IH _ H).
Qed.

(** The trace ends in the count the loop ends with. *)
Lemma parent_count_trace_last (df : list row) (w2i : dict (list str))
    (words : list (str * Q)) (st : assign_state) (d : dict nat) :
  last (parent_count_trace df w2i words st) d
  = snd (fold_left (assign_word df w2i) words st).
Proof.
  revert st. induction words as [|ws words IH]; intros st; [reflexivity|].
  cbn [parent_count_trace fold_left].
  rewrite last_app_nonempty by apply parent_count_trace_nonempty.
  apply IH.
Qed.


(** ** Sorting *)

Section SortingFacts.
Variable A : Type.
Variable before : A -> A -> bool.
Hypothesis before_total : forall x y, before x y = false -> before y x = true.

Lemma insert_sorted_perm (x : A) (l : list A) :
  Permutation (insert_sorted before x l) (x :: l).
Proof.
  induction l as [|y l IH]; simpl; [apply Permutation_refl|].
  destruct (before x y); [apply Permutation_refl|].
  apply perm_trans with (y :: x :: l); [|apply perm_swap].
  apply perm_skip. exact IH.
Qed.

Lemma sorted_by_perm (l : list A) : Permutation (sorted_by before l) l.
Proof.
  induction l as [|x l IH]; simpl; [apply perm_nil|].
  apply perm_trans with (x :: sorted_by before l);
    [apply insert_sorted_perm | apply perm_skip; exact IH].
Qed.

Lemma insert_sorted_Sorted (x : A) (l : list A) :
  Sorted (fun a b => before a b = true) l ->
  Sorted (fun a b => before a b = true) (insert_sorted before x l).
Proof.
  induction 1 as [|y l Hs IH Hhd]; simpl.
  - repeat constructor.
  - destruct (before x y) eqn:E.
    + constructor; [constructor; assumption | constructor; assumption].
    + constructor; [exact IH|].
      destruct l as [|z l]; simpl.
      * constructor. apply before_total. assumption.
      * inversion Hhd; subst.
        destruct (before x z); constructor;
          [apply before_total|]; assumption.
Qed.

Lemma sorted_by_Sorted (l : list A) :
  Sorted (fun a b => before a b = true) (sorted_by before l).
Proof.
  induction l as [|x l IH]; simpl; [constructor|].
  apply insert_sorted_Sorted. exact IH.
Qed.

(** Stability: elements that may not overtake one another keep their
    order. *)
Variable p : A -> bool.
Hypothesis p_tied : forall x y, p x = true -> p y = true -> before x y = true.

Lemma insert_sorted_filter (x : A) (l : list A) :
  filter p (insert_sorted before x l) = filter p (x :: l).
Proof.
  induction l as [|y l IH]; [reflexivity|].
  cbn [insert_sorted]. destruct (before x y) eqn:E; [reflexivity|].
  cbn [filter] in *. rewrite IH.
  destruct (p x) eqn:Ex, (p y) eqn:Ey; try reflexivity.
  rewrite (p_tied Ex Ey) in E. discriminate.
Qed.

Lemma sorted_by_stable (l : list A) :
  filter p (sorted_by before l) = filter p l.
Proof.
  induction l as [|x l IH]; [reflexivity|].
  cbn [sorted_by fold_right]. rewrite insert_sorted_filter.
  cbn [filter]. fold (sorted_by before l). rewrite IH. reflexivity.
Qed.
End SortingFacts.

(** ** GroupAssigner: the order of the candidate words *)

Lemma score_before_total (x y : str * Q) :
  score_before x y = false -> score_before y x = true.
Proof.
  unfold score_before. intros H. apply Qle_bool_iff.
  destruct (Qlt_le_dec (snd y) (snd x)) as [Hlt|Hle].
  - apply Qlt_le_weak in Hlt. apply Qle_bool_iff in Hlt. congruence.
  - assumption.
Qed.

Lemma score_before_trans (x y z : str * Q) :
  score_before x y = true -> score_before y z = true ->
  score_before x z = true.
Proof.
  unfold score_before. rewrite !Qle_bool_iff. intros H1 H2.
  eapply Qle_trans; eassumption.
Qed.

Lemma has_score_tied (q : Q) (x y : str * Q) :
  has_score q x = true -> has_score q y = true -> score_before x y = true.
Proof.
  unfold has_score, score_before. intros Hx Hy.
  apply Qeq_bool_iff in Hx. apply Qeq_bool_iff in Hy.
  apply Qle_bool_iff. rewrite Hx, Hy. apply Qle_refl.
Qed.

Lemma dict_set_fresh (V : Type) (k : str) (v : V) (d : dict V) :
  ~ In k (map fst d) -> dict_set k v d = d ++ [(k, v)].
Proof.
  unfold dict_set. induction d as [|[k' v'] d IH]; simpl; [reflexivity|].
  intros H. str_cases k k'; [exfalso; apply H; auto|].
  rewrite IH; [reflexivity | tauto].
Qed.




(** ** The cheese example *)

(** C1, as the code has it.  With four ingredients the word [CHEESE] is a
    processing term, its three postings are more than a tenth of the
    ingredients, which makes its score 0, and no group is formed. *)
Theorem cheese_example_no_group :
  cheese_postings = [$"CHEDDAR CHEESE"; $"SWISS CHEESE"; $"COTTAGE CHEESE"]
  /\ calculate_grouping_potential $"CHEESE" cheese_postings
       (map pd_name cheese_df) = 0%Q
  /\ str_mem $"CHEESE" cheese_processing_terms = true
  /\ find_consolidation_groups cheese_df = [].
Proof. vm_compute. repeat split. Qed.

(** C1, as the specification states it, fails on each of its three points. *)
Lemma cheese_example_claim_fails :
  ~ (MIN_SCORE_THRESHOLD
       <= calculate_grouping_potential $"CHEESE" cheese_postings
            (map pd_name cheese_df))%Q
  /\ str_mem $"CHEESE" cheese_processing_terms <> false
  /\ dict_get (find_consolidation_groups cheese_df) $"CHEESE" = None.
Proof.
  split; [|split].
  - intros H. apply Qle_bool_iff in H. vm_compute in H. discriminate H.
  - vm_compute. discriminate.
  - vm_compute. reflexivity.
Qed.

(** ** HierarchyBuilder: nodes and edges *)

Lemma build_le_refl (st : build_state) : build_le st st.
Proof. split; apply incl_refl. Qed.

Lemma build_le_trans (a b c : build_state) :
  build_le a b -> build_le b c -> build_le a c.
Proof. intros [H1 H2] [H3 H4]. split; eapply incl_tran; eassumption. Qed.

Lemma dict_mem_false (V : Type) (d : dict V) (k : str) :
  dict_mem d k = false -> ~ In k (map fst d).
Proof. intros H Hin. apply dict_mem_keys in Hin. congruence. Qed.

(** Registering a name that may be there already. *)
Lemma register_spec (all_ingredients : dict ingredient) (k g : str)
    (depth : nat) :
  names_ok all_ingredients ->
  let all' := if dict_mem all_ingredients k then all_ingredients
              else dict_set k (mk_ingredient k g depth) all_ingredients in
  names_ok all' /\ incl (map fst all_ingredients) (map fst all')
  /\ In k (map fst all').
Proof.
  intros Hok. destruct (dict_mem all_ingredients k) eqn:E; cbn zeta.
  - split; [assumption|]. split; [apply incl_refl|].
    apply dict_mem_keys. assumption.
  - rewrite dict_set_fresh by (apply dict_mem_false; assumption).
    split; [|split].
    + apply Forall_app. split; [assumption|]. repeat constructor.
    + rewrite map_app. apply incl_appl, incl_refl.
    + rewrite map_app. apply in_or_app. right. left. reflexivity.
Qed.

Lemma add_child_edge_spec (parent_name : str) (st : build_state) (c : child) :
  names_ok (fst st) ->
  names_ok (fst (add_child_edge parent_name st c))
  /\ build_le st (add_child_edge parent_name st c)
  /\ (name c <> parent_name ->
      In (parent_name, name c) (snd (add_child_edge parent_name st c))).
Proof.
  intros Hok. unfold add_child_edge.
  str_cases (name c) parent_name.
  - split; [assumption|]. split; [apply build_le_refl | contradiction].
  - destruct (@register_spec (fst st) (name c) (food_group c) 1 Hok) as [H1 [H2 _]].
    cbn zeta in H1, H2. cbn [fst snd].
    split; [exact H1|]. split.
    + split; [exact H2 | cbn [snd]; apply incl_appl, incl_refl].
    + intros _. apply in_or_app. right. left. reflexivity.
Qed.

Lemma add_children_spec (parent_name : str) (children : list child)
    (st : build_state) :
  names_ok (fst st) ->
  let st' := fold_left (add_child_edge parent_name) children st in
  names_ok (fst st') /\ build_le st st'
  /\ forall c, In c children -> name c <> parent_name ->
               In (parent_name, name c) (snd st').
Proof.
  revert st. induction children as [|c children IH]; intros st Hok; cbn zeta.
  - split; [assumption|]. split; [apply build_le_refl | intros c []].
  - destruct (@add_child_edge_spec parent_name st c Hok) as [H1 [H2 H3]].
    destruct (IH _ H1) as [H4 [H5 H6]]. cbn zeta in H4, H5, H6.
    cbn [fold_left]. split; [exact H4|]. split.
    + eapply build_le_trans; eassumption.
    + intros c' [<-|Hin] Hne; [|auto].
      apply (proj2 H5). apply H3. assumption.
Qed.

Lemma counter_incr_nonempty (k : str) (c : dict nat) : counter_incr k c <> [].
Proof.
  unfold counter_incr. destruct c as [|[k' v] c]; simpl; [discriminate|].
  destruct (str_eqb k k'); discriminate.
Qed.

Lemma determine_parent_food_group_some (children : list child) :
  children <> [] -> exists g, determine_parent_food_group children = Some g.
Proof.
  intros Hne. unfold determine_parent_food_group.
  destruct (fold_left (fun c g => counter_incr g c) (map food_group children) [])
    as [|kv rest] eqn:E; [|eexists; reflexivity].
  exfalso. destruct children as [|c children]; [contradiction|].
  simpl in E. revert E.
  generalize (counter_incr_nonempty (food_group c) []).
  generalize (counter_incr (food_group c) []).
  induction (map food_group children) as [|g gs IH]; intros d Hd; simpl.
  - assumption.
  - apply IH. apply counter_incr_nonempty.
Qed.

Lemma add_parent_group_spec (st : build_state) (g : str * list child) :
  names_ok (fst st) -> snd g <> [] ->
  exists st', add_parent_group (Some st) g = Some st'
              /\ names_ok (fst st') /\ build_le st st'
              /\ In (fst g) (map fst (fst st'))
              /\ forall c, In c (snd g) -> name c <> fst g ->
                           In (fst g, name c) (snd st').
Proof.
  intros Hok Hne. unfold add_parent_group.
  destruct (@determine_parent_food_group_some (snd g) Hne) as [pfg ->].
  destruct (@register_spec (fst st) (fst g) pfg 0 Hok) as [H1 [H2 H3]].
  cbn zeta in H1, H2, H3.
  set (all' := if dict_mem (fst st) (fst g) then fst st
               else dict_set (fst g) (mk_ingredient (fst g) pfg 0) (fst st))
    in *.
  destruct (@add_children_spec (fst g) (snd g) (all', snd st) H1)
    as [H4 [H5 H6]]. cbn zeta in H4, H5, H6.
  eexists. split; [reflexivity|]. split; [exact H4|]. split; [|split].
  - eapply build_le_trans; [|exact H5]. split; [exact H2 | apply incl_refl].
  - apply (proj1 H5). exact H3.
  - exact H6.
Qed.

Lemma add_parent_groups_spec (groups : dict (list child)) (st : build_state) :
  names_ok (fst st) -> Forall (fun g => snd g <> []) groups ->
  exists st', fold_left add_parent_group groups (Some st) = Some st'
              /\ names_ok (fst st') /\ build_le st st'
              /\ forall g, In g groups ->
                   In (fst g) (map fst (fst st'))
                   /\ forall c, In c (snd g) -> name c <> fst g ->
                                In (fst g, name c) (snd st').
Proof.
  intros Hok Hall. revert st Hok.
  induction Hall as [|g groups Hg Hall IH]; intros st Hok.
  - exists st. split; [reflexivity|]. split; [assumption|].
    split; [apply build_le_refl | intros g []].
  - destruct (@add_parent_group_spec st g Hok Hg) as [st1 [E [H1 [H2 [H3 H4]]]]].
    destruct (IH _ H1) as [st2 [E2 [H5 [H6 H7]]]].
    exists st2. cbn [fold_left]. rewrite E. split; [exact E2|].
    split; [exact H5|]. split; [eapply build_le_trans; eassumption|].
    intros g' [<-|Hin]; [|auto]. split.
    + apply (proj1 H6). exact H3.
    + intros c Hc Hn. apply (proj2 H6). apply H4; assumption.
Qed.

Lemma add_standalone_spec (df : list row) (all_ingredients : dict ingredient) :
  names_ok all_ingredients ->
  names_ok (fold_left add_standalone df all_ingredients)
  /\ incl (map fst all_ingredients)
          (map fst (fold_left add_standalone df all_ingredients)).
Proof.
  revert all_ingredients. induction df as [|r df IH]; intros d Hok; simpl.
  - split; [assumption | apply incl_refl].
  - destruct (@register_spec d (pd_name r) (row_food_group r) 0 Hok)
      as [H1 [H2 _]]. cbn zeta in H1, H2.
    destruct (IH _ H1) as [H3 H4]. unfold add_standalone at 2 4.
    split; [exact H3 | eapply incl_tran; eassumption].
Qed.

Lemma parse_lines_nonempty (lines : list str) :
  Forall (fun g : str * list child => snd g <> []) (parse_lines lines).
Proof.
  unfold parse_lines. apply Forall_forall. intros g Hg.
  apply filter_In in Hg. destruct Hg as [_ Hg]. unfold nonempty_group in Hg.
  destruct (snd g); [discriminate Hg | discriminate].
Qed.

Lemma names_ok_names (d : dict ingredient) :
  names_ok d -> map (fun kv => i_name (snd kv)) d = map fst d.
Proof.
  induction 1 as [|kv d Hkv Hd IH]; simpl; [reflexivity|].
  rewrite Hkv, IH. reflexivity.
Qed.

(** C2, as the code has it.  A group that the parser returns with exactly
    one child is kept by the finalization: the pipeline succeeds, the
    parent is one of the ingredients and, unless the child has the name of
    the parent, the edge from the parent to the child is emitted. *)
Theorem single_child_group_retained (proposal : str) (original_df : list row)
    (parent : str) (c : child) :
  dict_get (parse_consolidation_proposal proposal) parent = Some [c] ->
  exists h, finalize proposal original_df = Some h
            /\ In parent (map i_name (ingredients h))
            /\ (name c <> parent ->
                In (parent, name c) (parent_child_relationships h)).
Proof.
  intros Hget. apply dict_get_In in Hget.
  unfold finalize, generate_hierarchy_files.
  assert (Hinit : names_ok (fst (@nil (str * ingredient),
                                 @nil relationship))) by constructor.
  destruct (@add_parent_groups_spec _ _ Hinit
              (parse_lines_nonempty (file_lines proposal)))
    as [[all rels] [E [Hok [_ Hgroups]]]].
  assert (E' : fold_left add_parent_group
                 (parse_consolidation_proposal proposal) (Some ([], []))
               = Some (all, rels)) by exact E.
  rewrite E'.
  destruct (Hgroups _ Hget) as [Hnode Hedge]. cbn [fst snd] in *.
  destruct (@add_standalone_spec original_df all Hok) as [Hok' Hincl].
  eexists. split; [reflexivity|]. cbn [ingredients parent_child_relationships].
  split.
  - rewrite map_map. cbn [i_name].
    rewrite (@names_ok_names _ Hok'). apply Hincl. exact Hnode.
  - intros Hne. apply Hedge; [left; reflexivity | exact Hne].
Qed.

Lemma single_child_group_retained_witness :
  exists h, finalize single_child_proposal [] = Some h
            /\ In $"CHEESE" (map i_name (ingredients h))
            /\ (name (mk_child $"cheddar cheese" $"dairy") <> $"CHEESE" ->
                In ($"CHEESE", name (mk_child $"cheddar cheese" $"dairy"))
                   (parent_child_relationships h)).
Proof.
  apply (@single_child_group_retained single_child_proposal []
           $"CHEESE" (mk_child $"cheddar cheese" $"dairy")).
  vm_compute. reflexivity.
Defined.

(** C2, as the specification states it, fails: with the second child
    commented out, the group of [CHEESE] has one child, and the parent and
    its edge are both emitted. *)
Lemma single_child_group_not_dropped :
  dict_get (parse_consolidation_proposal single_child_proposal) $"CHEESE"
  = Some [mk_child $"cheddar cheese" $"dairy"]
  /\ finalize single_child_proposal []
     = Some (mk_hierarchy
               [ mk_ingredient $"CHEESE" $"dairy" 0;
                 mk_ingredient $"cheddar cheese" $"dairy" 1 ]
               [ ($"CHEESE", $"cheddar cheese") ]).
Proof. vm_compute. split; reflexivity. Qed.

(** ** HierarchyBuilder: depth *)

Lemma dict_get_parents (c2p : dict (list str)) (n : str) :
  incl (dict_get_default c2p n []) (all_parents c2p).
Proof.
  unfold dict_get_default, all_parents.
  destruct (dict_get c2p n) as [l|] eqn:E; [|intros x []].
  apply dict_get_In in E. intros x Hx. apply in_concat.
  exists l. split; [|assumption].
  apply in_map_iff. exists (n, l). auto.
Qed.

Lemma str_mem_set_add (p n : str) (visited : list str) :
  str_mem p (set_add n visited) = str_mem p visited || str_eqb p n.
Proof.
  unfold set_add. destruct (str_mem n visited) eqn:E.
  - str_cases p n; [subst; rewrite E; reflexivity | symmetry; apply orb_false_r].
  - unfold str_mem. rewrite existsb_app. simpl. rewrite orb_false_r.
    reflexivity.
Qed.

Lemma filter_length_mono (A : Type) (f g : A -> bool) (l : list A) :
  (forall x, g x = true -> f x = true) ->
  length (filter g l) <= length (filter f l).
Proof.
  intros H. induction l as [|x l IH]; simpl; [lia|].
  destruct (g x) eqn:Eg.
  - rewrite (H x Eg). simpl. lia.
  - destruct (f x); simpl; lia.
Qed.

Lemma filter_length_strict (A : Type) (f g : A -> bool) (l : list A) (a : A) :
  (forall x, g x = true -> f x = true) ->
  In a l -> f a = true -> g a = false ->
  length (filter g l) < length (filter f l).
Proof.
  intros H. induction l as [|x l IH]; simpl; [intros []|].
  intros [->|Hin] Hf Hg.
  - rewrite Hf, Hg. simpl.
    pose proof (filter_length_mono f g l H). lia.
  - specialize (IH Hin Hf Hg). destruct (g x) eqn:Eg.
    + rewrite (H x Eg). simpl. lia.
    + destruct (f x); simpl; lia.
Qed.

Lemma unvisited_le (c2p : dict (list str)) (n : str) (visited : list str) :
  unvisited c2p (set_add n visited) <= unvisited c2p visited.
Proof.
  unfold unvisited. apply filter_length_mono. intros x.
  rewrite str_mem_set_add. destruct (str_mem x visited); simpl; auto.
Qed.

Lemma unvisited_lt (c2p : dict (list str)) (n : str) (visited : list str) :
  In n (all_parents c2p) -> str_mem n visited = false ->
  unvisited c2p (set_add n visited) < unvisited c2p visited.
Proof.
  intros Hin Hnv. unfold unvisited. apply filter_length_strict with (a := n).
  - intros x. rewrite str_mem_set_add. destruct (str_mem x visited); simpl; auto.
  - apply nodup_In. assumption.
  - rewrite Hnv. reflexivity.
  - rewrite str_mem_set_add, str_eqb_refl, orb_true_r. reflexivity.
Qed.

Lemma unvisited_bound (c2p : dict (list str)) (visited : list str) :
  unvisited c2p visited <= length (all_parents c2p).
Proof.
  unfold unvisited.
  eapply Nat.le_trans; [apply List.filter_length_le|].
  generalize (all_parents c2p). intros l.
  induction l as [|x l IH]; simpl; [lia|].
  destruct (in_dec str_dec x l); simpl; lia.
Qed.

Lemma max_depth_fold_some (depth_of : str -> option nat) (parents : list str) :
  (forall p, In p parents -> exists d, depth_of p = Some d) ->
  forall m, exists m',
    fold_left (max_depth_step depth_of) parents (Some m) = Some m'.
Proof.
  induction parents as [|p parents IH]; intros H m; simpl.
  - exists m. reflexivity.
  - destruct (H p (or_introl eq_refl)) as [d ->].
    apply IH. intros q Hq. apply H. right. assumption.
Qed.

Lemma max_depth_fold_ext (f g : str -> option nat) (parents : list str)
    (acc : option nat) (m : nat) :
  (forall p d, In p parents -> f p = Some d -> g p = Some d) ->
  fold_left (max_depth_step f) parents acc = Some m ->
  fold_left (max_depth_step g) parents acc = Some m.
Proof.
  revert acc. induction parents as [|p parents IH]; intros acc H;
    simpl; [auto|].
  intros E. destruct acc as [a|].
  - simpl in *. destruct (f p) as [d|] eqn:Ef.
    + rewrite (H p d (or_introl eq_refl) Ef).
      apply IH; [intros q d' Hq; apply H; right; assumption | exact E].
    + exfalso. clear -E. induction parents as [|q parents IHp];
        simpl in E; [discriminate | auto].
  - exfalso. clear -E. simpl in E. induction parents as [|q parents IHp];
      simpl in E; [discriminate | auto].
Qed.

(** More fuel does not change a result. *)
Lemma calculate_depth_fuel_mono (c2p : dict (list str)) (fuel fuel' : nat)
    (n : str) (visited : list str) (d : nat) :
  fuel <= fuel' ->
  calculate_depth_fuel fuel c2p n visited = Some d ->
  calculate_depth_fuel fuel' c2p n visited = Some d.
Proof.
  revert fuel' n visited d.
  induction fuel as [|fuel IH]; intros fuel' n visited d Hle;
    [discriminate|].
  destruct fuel' as [|fuel']; [lia|].
  cbn [calculate_depth_fuel].
  destruct (str_mem n visited); [auto|].
  destruct (dict_get_default c2p n []) as [|p ps]; [auto|].
  destruct (fold_left _ (p :: ps) (Some 0)) as [m|] eqn:E; [|discriminate].
  intros Hd.
  rewrite (@max_depth_fold_ext _
             (fun parent => calculate_depth_fuel fuel' c2p parent
                              (set_add n visited)) _ _ _ (fun q d' _ Hq =>
             IH fuel' q (set_add n visited) d' (le_S_n _ _ Hle) Hq) E).
  exact Hd.
Qed.

(** A call on a parent of the graph needs no more fuel than there are
    unvisited parents, and one more. *)
Lemma calculate_depth_fuel_parent (c2p : dict (list str)) (fuel : nat)
    (n : str) (visited : list str) :
  In n (all_parents c2p) -> unvisited c2p visited < fuel ->
  exists d, calculate_depth_fuel fuel c2p n visited = Some d.
Proof.
  revert n visited. induction fuel as [|fuel IH]; intros n visited Hn Hlt;
    [lia|].
  cbn [calculate_depth_fuel].
  destruct (str_mem n visited) eqn:Ev; [eexists; reflexivity|].
  pose proof (dict_get_parents c2p n) as Hps.
  destruct (dict_get_default c2p n []) as [|p ps]; [eexists; reflexivity|].
  destruct (@max_depth_fold_some
              (fun parent => calculate_depth_fuel fuel c2p parent
                               (set_add n visited)) (p :: ps)) with (m := 0)
    as [m' E].
  - intros q Hq. apply IH; [apply Hps; assumption|].
    pose proof (unvisited_lt c2p n visited Hn Ev). lia.
  - rewrite E. eexists; reflexivity.
Qed.

(** C7. The depth computation terminates on every graph, cyclic or not,
    from every node and every set of visited nodes: with the fuel
    [depth_fuel], or more, it returns a depth. *)
Theorem calculate_depth_terminates (child_to_parents : dict (list str))
    (ingredient_name : str) (visited : list str) :
  exists depth, forall fuel,
    depth_fuel child_to_parents <= fuel ->
    calculate_depth_fuel fuel child_to_parents ingredient_name visited
    = Some depth.
Proof.
  assert (H : exists depth,
             calculate_depth_fuel (depth_fuel child_to_parents)
               child_to_parents ingredient_name visited = Some depth).
  { unfold depth_fuel. fold (all_parents child_to_parents).
    set (f := S (length (all_parents child_to_parents))).
    assert (Hf : forall v, unvisited child_to_parents v < f).
    { intros v. pose proof (unvisited_bound child_to_parents v).
      unfold f. lia. }
    clearbody f. cbn [calculate_depth_fuel].
    destruct (str_mem ingredient_name visited) eqn:Ev;
      [eexists; reflexivity|].
    pose proof (dict_get_parents child_to_parents ingredient_name) as Hps.
    destruct (dict_get_default child_to_parents ingredient_name [])
      as [|p ps]; [eexists; reflexivity|].
    destruct (@max_depth_fold_some
                (fun parent =>
                   calculate_depth_fuel f child_to_parents parent
                     (set_add ingredient_name visited)) (p :: ps))
      with (m := 0) as [m' E].
    - intros q Hq. apply calculate_depth_fuel_parent;
        [apply Hps; assumption | apply Hf].
    - rewrite E. eexists; reflexivity. }
  destruct H as [depth H]. exists depth. intros fuel Hle.
  apply (calculate_depth_fuel_mono _ _ _ Hle H).
Qed.

Lemma calculate_depth_terminates_witness :
  exists depth,
    calculate_depth_fuel 4 (child_to_parents_of cycle_relationships)
                         $"A" [] = Some depth.
Proof.
  destruct (calculate_depth_terminates
              (child_to_parents_of cycle_relationships) $"A" [])
    as [depth H].
  exists depth. apply H. vm_compute. repeat constructor.
Defined.

(** *** The cycle of two nodes *)

Lemma calculate_depth_fuel_visited (fuel : nat) (c2p : dict (list str))
    (n : str) (visited : list str) :
  str_mem n visited = true ->
  calculate_depth_fuel (S fuel) c2p n visited = Some 0.
Proof. intros H. cbn [calculate_depth_fuel]. rewrite H. reflexivity. Qed.

Lemma calculate_depth_fuel_parents (fuel : nat) (c2p : dict (list str))
    (n : str) (visited : list str) (m : nat) :
  str_mem n visited = false ->
  dict_get_default c2p n [] <> [] ->
  fold_left
    (max_depth_step
       (fun parent => calculate_depth_fuel fuel c2p parent (set_add n visited)))
    (dict_get_default c2p n []) (Some 0) = Some m ->
  calculate_depth_fuel (S fuel) c2p n visited = Some (m + 1).
Proof.
  intros Hv Hne Hfold. cbn [calculate_depth_fuel]. rewrite Hv.
  destruct (dict_get_default c2p n []) as [|p ps]; [contradiction|].
  rewrite Hfold. reflexivity.
Qed.

Lemma dict_get_default_upd (V : Type) (f : V -> V) (dflt : V) (k k0 : str)
    (d : dict V) :
  dict_get_default (dict_upd f dflt k d) k0 dflt
  = if str_eqb k0 k then f (dict_get_default d k dflt)
    else dict_get_default d k0 dflt.
Proof.
  str_cases k0 k.
  - subst. unfold dict_get_default at 1. rewrite dict_get_upd_same. reflexivity.
  - unfold dict_get_default. rewrite dict_get_upd_other by assumption.
    reflexivity.
Qed.

Lemma child_to_parents_fold (rels : list relationship) (d : dict (list str))
    (c : str) :
  dict_get_default
    (fold_left (fun d rel => dict_upd (fun ps => ps ++ [fst rel]) []
                                      (snd rel) d) rels d) c []
  = dict_get_default d c [] ++ parents_of rels c.
Proof.
  revert d. induction rels as [|rel rels IH]; intros d; simpl.
  - unfold parents_of. simpl. rewrite app_nil_r. reflexivity.
  - rewrite IH, dict_get_default_upd. unfold parents_of. simpl.
    rewrite (str_eqb_sym (snd rel) c).
    str_cases c (snd rel); simpl.
    + subst c. rewrite <- app_assoc. reflexivity.
    + reflexivity.
Qed.

Lemma child_to_parents_get (rels : list relationship) (c : str) :
  dict_get_default (child_to_parents_of rels) c [] = parents_of rels c.
Proof. unfold child_to_parents_of. rewrite child_to_parents_fold. reflexivity. Qed.

Lemma max_depth_fold_const (depth_of : str -> option nat) (d : nat)
    (parents : list str) (m : nat) :
  (forall p, In p parents -> depth_of p = Some d) ->
  fold_left (max_depth_step depth_of) parents (Some m)
  = Some (match parents with [] => m | _ => Nat.max m d end).
Proof.
  revert m. induction parents as [|p parents IH]; intros m H; [reflexivity|].
  cbn [fold_left max_depth_step]. rewrite (H p (or_introl eq_refl)).
  rewrite IH by (intros q Hq; apply H; right; assumption).
  destruct parents; f_equal; lia.
Qed.

Lemma two_cycle_fuel (c2p : dict (list str)) (A B : str) (fuel : nat) :
  A <> B -> only_parent c2p A B -> only_parent c2p B A ->
  calculate_depth_fuel (S (S (S fuel))) c2p A [] = Some 2.
Proof.
  intros Hne [HA1 HA2] [HB1 HB2].
  assert (Hrevisit : calculate_depth_fuel (S fuel) c2p A
                       (set_add B (set_add A [])) = Some 0).
  { apply calculate_depth_fuel_visited.
    rewrite !str_mem_set_add, str_eqb_refl. reflexivity. }
  assert (Hparent : calculate_depth_fuel (S (S fuel)) c2p B (set_add A [])
                    = Some 1).
  { apply (@calculate_depth_fuel_parents _ _ _ _ 0).
    - rewrite str_mem_set_add. apply orb_false_iff. split; [reflexivity|].
      apply str_eqb_neq. congruence.
    - exact HB1.
    - rewrite (@max_depth_fold_const _ 0).
      + destruct (dict_get_default c2p B []); [contradiction | reflexivity].
      + intros q Hq. rewrite (HB2 q Hq). exact Hrevisit. }
  apply (@calculate_depth_fuel_parents _ _ _ _ 1).
  - reflexivity.
  - exact HA1.
  - rewrite (@max_depth_fold_const _ 1).
    + destruct (dict_get_default c2p A []); [contradiction | reflexivity].
    + intros q Hq. rewrite (HA2 q Hq). exact Hparent.
Qed.

Lemma two_cycle_calculate_depth (c2p : dict (list str)) (A B : str) :
  A <> B -> only_parent c2p A B -> only_parent c2p B A ->
  calculate_depth c2p A = 2.
Proof.
  intros Hne HA HB. unfold calculate_depth, depth_fuel.
  fold (all_parents c2p).
  destruct (all_parents c2p) as [|x l] eqn:E.
  - exfalso. destruct HA as [HA _].
    pose proof (dict_get_parents c2p A) as Hincl. rewrite E in Hincl.
    destruct (dict_get_default c2p A []) as [|p ps]; [contradiction|].
    apply (Hincl p). left. reflexivity.
  - cbn [length]. rewrite (two_cycle_fuel _ Hne HA HB). reflexivity.
Qed.

Lemma only_parent_of (rels : list relationship) (child parent : str) :
  In (parent, child) rels ->
  (forall p, In (p, child) rels -> p = parent) ->
  only_parent (child_to_parents_of rels) child parent.
Proof.
  intros Hin Honly. unfold only_parent.
  rewrite child_to_parents_get. unfold parents_of. split.
  - intros E. apply map_eq_nil in E.
    assert (H : In (parent, child)
                   (filter (fun rel => str_eqb (snd rel) child) rels)).
    { apply filter_In. split; [assumption | apply str_eqb_refl]. }
    rewrite E in H. destruct H.
  - intros p Hp. apply in_map_iff in Hp. destruct Hp as [[p' c'] [<- Hf]].
    apply filter_In in Hf. destruct Hf as [Hf Hc]. simpl in *.
    apply str_eqb_eq in Hc. subst c'. apply Honly. assumption.
Qed.

(** C6, as the code has it.  When the relationships have the cycle of
    [A] and [B] and no other edge with [A] or [B], the depth computation
    returns, and gives both nodes the depth 2: the call that comes back
    to its start gives 0, and each of the two calls above it adds 1. *)
Theorem two_cycle_depth (rels : list relationship) (A B : str) :
  A <> B ->
  In (A, B) rels -> In (B, A) rels ->
  (forall p c, In (p, c) rels ->
               p = A \/ p = B \/ c = A \/ c = B ->
               (p, c) = (A, B) \/ (p, c) = (B, A)) ->
  calculate_depth (child_to_parents_of rels) A = 2
  /\ calculate_depth (child_to_parents_of rels) B = 2.
Proof.
  intros Hne HAB HBA Honly.
  assert (HA : only_parent (child_to_parents_of rels) A B).
  { apply only_parent_of; [assumption|]. intros p Hp.
    destruct (Honly p A Hp) as [E|E]; [auto | |]; inversion E; congruence. }
  assert (HB : only_parent (child_to_parents_of rels) B A).
  { apply only_parent_of; [assumption|]. intros p Hp.
    destruct (Honly p B Hp) as [E|E]; [auto | |]; inversion E; congruence. }
  split.
  - apply (@two_cycle_calculate_depth _ A B); assumption.
  - apply (@two_cycle_calculate_depth _ B A); [congruence | assumption..].
Qed.

Lemma two_cycle_depth_witness :
  calculate_depth (child_to_parents_of cycle_relationships) $"A" = 2
  /\ calculate_depth (child_to_parents_of cycle_relationships) $"B" = 2.
Proof.
  apply (@two_cycle_depth cycle_relationships $"A" $"B").
  - discriminate.
  - left. reflexivity.
  - right. left. reflexivity.
  - intros p c [E|[E|[]]] _; inversion E; auto.
Defined.

(** C6, as the specification states it, fails: the hierarchy built from the
    groups [A: B] and [B: A] has the two edges of the cycle, and neither
    node gets the depth 0. *)
Lemma two_cycle_no_depth_zero :
  generate_hierarchy_files cycle_groups []
  = Some (mk_hierarchy
            [ mk_ingredient $"A" $"x" 2; mk_ingredient $"B" $"x" 2 ]
            cycle_relationships)
  /\ ~ (calculate_depth (child_to_parents_of cycle_relationships) $"A" = 0
        \/ calculate_depth (child_to_parents_of cycle_relationships) $"B" = 0).
Proof.
  split; [vm_compute; reflexivity|].
  vm_compute. intros [H|H]; discriminate H.
Qed.

(** ** ProposalCodec: parsing *)

Lemma parse_line_header (st : parse_state) (raw parent : str) :
  header_of raw = Some parent ->
  parse_line st raw = (dict_set parent [] (fst st), Some parent).
Proof.
  unfold header_of, parse_line.
  destruct (strip raw) as [|c line]; [discriminate|].
  destruct (startswith (c :: line) [hash]); [discriminate|].
  destruct (is_header (c :: line)); [|discriminate].
  intros H. inversion H. reflexivity.
Qed.

Lemma parse_line_other (st : parse_state) (raw : str) :
  header_of raw = None ->
  parse_line st raw
  = match child_of raw, snd st with
    | Some entry, Some ((_ :: _) as current_parent) =>
        (dict_upd (fun children => children ++ [entry]) [] current_parent
                  (fst st),
         snd st)
    | _, _ => st
    end.
Proof.
  unfold header_of, child_of, parse_line.
  destruct (strip raw) as [|c line]; [reflexivity|].
  destruct (startswith (c :: line) [hash]); [reflexivity|].
  destruct (is_header (c :: line)); [discriminate|]. intros _.
  destruct (has_comma (c :: line)).
  - destruct (split_first_comma (c :: line)) as [a b].
    destruct (snd st) as [[|x cp]|]; reflexivity.
  - destruct (snd st) as [[|x cp]|]; reflexivity.
Qed.

Lemma parse_line_keys (st : parse_state) (raw : str) :
  NoDup (map fst (fst st)) -> NoDup (map fst (fst (parse_line st raw))).
Proof.
  intros H. destruct (header_of raw) as [p|] eqn:E.
  - rewrite (parse_line_header st raw E). simpl. unfold dict_set.
    apply dict_upd_keys_NoDup. assumption.
  - rewrite (parse_line_other st raw E).
    destruct (child_of raw); [|assumption].
    destruct (snd st) as [[|x cp]|]; [assumption | | assumption].
    simpl. apply dict_upd_keys_NoDup. assumption.
Qed.

Lemma parse_fold_keys (lines : list str) (st : parse_state) :
  NoDup (map fst (fst st)) ->
  NoDup (map fst (fst (fold_left parse_line lines st))).
Proof.
  revert st. induction lines as [|raw lines IH]; intros st H; simpl;
    [assumption|].
  apply IH, parse_line_keys, H.
Qed.

Lemma dict_get_nonempty (d : dict (list child)) (k : str) :
  NoDup (map fst d) ->
  dict_get (filter nonempty_group d) k
  = match dict_get d k with
    | Some ((_ :: _) as cs) => Some cs
    | _ => None
    end.
Proof.
  induction d as [|[k' v] d IH]; simpl; [reflexivity|].
  intros Hnd. inversion Hnd as [|? ? Hn Hnd']; subst.
  unfold nonempty_group at 1. simpl. str_cases k k'.
  - subst k'. destruct v as [|c v]; simpl.
    + rewrite IH by assumption.
      assert (E : dict_get d k = None) by (apply dict_get_None; assumption).
      rewrite E. reflexivity.
    + rewrite str_eqb_refl. reflexivity.
  - destruct v as [|c v]; simpl.
    + apply IH. assumption.
    + apply str_eqb_neq in E. rewrite E. apply IH. assumption.
Qed.

Lemma parse_lines_get (lines : list str) (k : str) :
  dict_get (parse_lines lines) k
  = match dict_get (fst (fold_left parse_line lines ([], None))) k with
    | Some ((_ :: _) as cs) => Some cs
    | _ => None
    end.
Proof.
  unfold parse_lines. apply (@dict_get_nonempty _ k).
  apply parse_fold_keys. constructor.
Qed.

Lemma dict_get_upd (V : Type) (f : V -> V) (dflt : V) (k k0 : str)
    (d : dict V) :
  dict_get (dict_upd f dflt k d) k0
  = if str_eqb k0 k then Some (f (dict_get_default d k dflt))
    else dict_get d k0.
Proof.
  str_cases k0 k.
  - subst. apply dict_get_upd_same.
  - apply dict_get_upd_other. assumption.
Qed.

Lemma parse_line_agree (parent : str) (st st' : parse_state) (raw : str) :
  agree_on parent st st' ->
  agree_on parent (parse_line st raw) (parse_line st' raw).
Proof.
  destruct st as [d c], st' as [d' c']. intros [Hc Hg]. simpl in Hc, Hg.
  subst c'. destruct (header_of raw) as [p|] eqn:E.
  - rewrite !(parse_line_header _ raw E). split; [reflexivity|].
    simpl. unfold dict_set. rewrite !dict_get_upd.
    destruct (str_eqb parent p); [reflexivity | assumption].
  - rewrite !(parse_line_other _ raw E). cbn [fst snd].
    destruct (child_of raw) as [e|]; [|split; [reflexivity | assumption]].
    destruct c as [[|x cp]|]; try (split; [reflexivity | assumption]).
    split; [reflexivity|]. simpl. rewrite !dict_get_upd.
    str_cases parent (x :: cp); [|assumption].
    rewrite <- E0. unfold dict_get_default. rewrite Hg. reflexivity.
Qed.

Lemma parse_fold_agree (parent : str) (lines : list str)
    (st st' : parse_state) :
  agree_on parent st st' ->
  agree_on parent (fold_left parse_line lines st)
                  (fold_left parse_line lines st').
Proof.
  revert st st'. induction lines as [|raw lines IH]; intros st st' H;
    simpl; [assumption|].
  apply IH, parse_line_agree, H.
Qed.

(** After its section is closed, and without a new header of its own, the
    children of [parent] stay as they are. *)
Lemma parse_fold_closed (parent : str) (lines : list str) (st : parse_state) :
  snd st <> Some parent ->
  (forall raw, In raw lines -> header_of raw <> Some parent) ->
  dict_get (fst (fold_left parse_line lines st)) parent
  = dict_get (fst st) parent.
Proof.
  revert st. induction lines as [|raw lines IH]; intros [d c] Hc Hh;
    cbn [fold_left]; [reflexivity|]. cbn [fst snd] in *.
  assert (Hh' : forall r, In r lines -> header_of r <> Some parent)
    by (intros r Hr; apply Hh; right; assumption).
  destruct (header_of raw) as [p|] eqn:E.
  - rewrite (parse_line_header (d, c) raw E).
    assert (Hp : p <> parent).
    { intros ->. apply (Hh raw); [left; reflexivity | assumption]. }
    rewrite IH; [|cbn [snd]; congruence | assumption].
    cbn [fst]. unfold dict_set. rewrite dict_get_upd.
    assert (E' : str_eqb parent p = false) by (apply str_eqb_neq; congruence).
    rewrite E'. reflexivity.
  - rewrite (parse_line_other (d, c) raw E). cbn [fst snd].
    destruct (child_of raw) as [e|]; [|apply IH; assumption].
    destruct c as [[|x cp]|]; try (apply IH; assumption).
    rewrite IH; [|assumption | assumption].
    cbn [fst]. rewrite dict_get_upd.
    assert (E' : str_eqb parent (x :: cp) = false)
      by (apply str_eqb_neq; congruence).
    rewrite E'. reflexivity.
Qed.

(** Within the section of [parent] the child entries are appended. *)
Lemma parse_fold_section (parent : str) (lines : list str)
    (d : dict (list child)) (acc : list child) :
  parent <> [] ->
  dict_get d parent = Some acc ->
  (forall raw, In raw lines -> header_of raw <> Some parent) ->
  dict_get (fst (fold_left parse_line lines (d, Some parent))) parent
  = Some (acc ++ section_children lines).
Proof.
  intros Hp. revert d acc.
  induction lines as [|raw lines IH]; intros d acc Hg Hh;
    cbn [fold_left section_children].
  - rewrite app_nil_r. assumption.
  - assert (Hh' : forall r, In r lines -> header_of r <> Some parent)
      by (intros r Hr; apply Hh; right; assumption).
    destruct (header_of raw) as [p|] eqn:E.
    + assert (Hne : p <> parent).
      { intros ->. apply (Hh raw); [left; reflexivity | assumption]. }
      rewrite (parse_line_header (d, Some parent) raw E).
      rewrite parse_fold_closed; [|cbn [snd]; congruence | assumption].
      cbn [fst]. unfold dict_set. rewrite dict_get_upd.
      assert (E' : str_eqb parent p = false)
        by (apply str_eqb_neq; congruence).
      rewrite E', app_nil_r. assumption.
    + rewrite (parse_line_other (d, Some parent) raw E). cbn [fst snd].
      destruct (child_of raw) as [e|]; [|apply IH; assumption].
      destruct parent as [|x cp]; [contradiction|].
      rewrite (IH _ (acc ++ [e])).
      * rewrite <- app_assoc. reflexivity.
      * rewrite dict_get_upd, str_eqb_refl.
        unfold dict_get_default. rewrite Hg. reflexivity.
      * assumption.
Qed.

(** C10. When a section header of [parent] occurs again, the children of
    [parent] are those the parser finds from that header on, whatever the
    lines before it are; and when no header of [parent] comes later, they
    are the child entries of the lines between that header and the next
    section header. *)
Theorem repeated_header_resets (proposal : str) (before after : list str)
    (header parent : str) :
  file_lines proposal = before ++ header :: after ->
  header_of header = Some parent ->
  dict_get (parse_consolidation_proposal proposal) parent
  = dict_get (parse_lines (header :: after)) parent
  /\ (parent <> [] ->
      (forall raw, In raw after -> header_of raw <> Some parent) ->
      dict_get (parse_consolidation_proposal proposal) parent
      = match section_children after with
        | [] => None
        | children => Some children
        end).
Proof.
  intros Hlines Hhdr. unfold parse_consolidation_proposal. rewrite Hlines.
  rewrite !parse_lines_get, fold_left_app.
  cbn [fold_left]. rewrite !(parse_line_header _ header Hhdr).
  set (st := (dict_set parent [] (fst (fold_left parse_line before ([], None))),
              Some parent) : parse_state).
  set (st' := (dict_set parent [] (fst (@nil (str * list child), @None str)),
               Some parent) : parse_state).
  assert (Hag : agree_on parent st st').
  { split; [reflexivity|]. unfold st, st'. simpl. unfold dict_set.
    rewrite !dict_get_upd, !str_eqb_refl. reflexivity. }
  destruct (parse_fold_agree after Hag) as [_ Heq].
  split.
  - rewrite Heq. reflexivity.
  - intros Hne Hlast.
    unfold st. rewrite (@parse_fold_section parent after _ [] Hne);
      [cbn [app]; destruct (section_children after); reflexivity
      | | assumption].
    unfold dict_set. rewrite dict_get_upd, str_eqb_refl. reflexivity.
Qed.

Lemma repeated_header_resets_witness :
  dict_get (parse_consolidation_proposal repeated_header_proposal) $"CHEESE"
  = Some [ mk_child $"swiss cheese" $"dairy"; mk_child $"brie" $"dairy" ].
Proof.
  refine (proj2 (@repeated_header_resets repeated_header_proposal
                   [ $"[CHEESE]"; $"cheddar cheese,dairy"; $"[MILK]";
                     $"whole milk,dairy" ]
                   [ $"swiss cheese,dairy"; $"brie,dairy" ]
                   $"[CHEESE]" $"CHEESE" _ _) _ _).
  - vm_compute. reflexivity.
  - vm_compute. reflexivity.
  - discriminate.
  - intros raw [<-|[<-|[]]]; vm_compute; discriminate.
Defined.

(** ** ProposalCodec: the round trip *)

Lemma file_lines_write (line rest : str) :
  no_newline line ->
  file_lines (write_line line ++ rest) = line :: file_lines rest.
Proof.
  unfold no_newline, write_line. induction line as [|c line IH]; intros H.
  - reflexivity.
  - simpl in H. apply andb_true_iff in H. destruct H as [Hc H].
    apply negb_true_iff in Hc. cbn [app file_lines]. rewrite Hc.
    cbn [app] in IH. rewrite (IH H). reflexivity.
Qed.

Lemma file_lines_written (lines : list str) :
  Forall no_newline lines ->
  file_lines (concat (map write_line lines)) = lines.
Proof.
  induction 1 as [|line lines Hl Hls IH]; [reflexivity|].
  cbn [map concat]. rewrite file_lines_write by assumption.
  rewrite IH. reflexivity.
Qed.

Lemma rstrip_app (a b : str) : rstrip b <> [] -> rstrip (a ++ b) = a ++ rstrip b.
Proof.
  intros H. induction a as [|x a IH]; [reflexivity|].
  cbn [app rstrip]. rewrite IH.
  destruct (a ++ rstrip b) eqn:E; [|reflexivity].
  apply app_eq_nil in E. destruct E. contradiction.
Qed.

Lemma trimmed_no_lead (s : str) : trimmed s -> no_lead s.
Proof.
  unfold trimmed, strip. intros H. rewrite <- H.
  apply rstrip_no_lead, lstrip_no_lead.
Qed.

Lemma trimmed_rstrip (s : str) : trimmed s -> rstrip s = s.
Proof.
  intros H. pose proof (trimmed_no_lead H) as Hl.
  unfold trimmed, strip in H. rewrite (lstrip_fixed s Hl) in H. exact H.
Qed.

Lemma strip_header_line (parent : str) :
  strip (lbracket :: parent ++ [rbracket]) = lbracket :: parent ++ [rbracket].
Proof.
  unfold strip. cbn [lstrip]. change (is_space lbracket) with false. cbv iota.
  change (lbracket :: parent ++ [rbracket])
    with ((lbracket :: parent) ++ [rbracket]).
  apply rstrip_app. discriminate.
Qed.

Lemma startswith_nil (s : str) : startswith s [] = true.
Proof. destruct s; reflexivity. Qed.

Lemma startswith_head (x : ascii) (s : str) : startswith (x :: s) [x] = true.
Proof.
  cbn [startswith]. unfold ascii_eqb. rewrite Ascii.eqb_refl.
  destruct s; reflexivity.
Qed.

Lemma startswith_other (x y : ascii) (s : str) :
  ascii_eqb x y = false -> startswith (x :: s) [y] = false.
Proof. intros H. cbn [startswith]. rewrite H. reflexivity. Qed.

Lemma endswith_last (x : ascii) (s : str) : endswith (s ++ [x]) [x] = true.
Proof. unfold endswith. rewrite rev_unit. apply startswith_head. Qed.

Lemma header_of_header_line (parent : str) :
  header_of ([lbracket] ++ parent ++ [rbracket]) = Some parent.
Proof.
  unfold header_of. cbn [app]. rewrite strip_header_line.
  rewrite startswith_other by reflexivity.
  unfold is_header. rewrite startswith_head.
  change (lbracket :: parent ++ [rbracket])
    with ((lbracket :: parent) ++ [rbracket]).
  rewrite endswith_last. cbn [andb app].
  unfold strip_brackets. cbn [tl]. rewrite removelast_last. reflexivity.
Qed.

Lemma strip_child_line (c : child) :
  trimmed (name c) -> trimmed (food_group c) ->
  strip (child_line c) = child_line c.
Proof.
  intros Hn Hg. unfold strip, child_line.
  assert (Hlead : no_lead (name c ++ [comma] ++ food_group c)).
  { pose proof (trimmed_no_lead Hn) as H. destruct (name c); [reflexivity|].
    exact H. }
  rewrite (lstrip_fixed _ Hlead).
  assert (Htail : rstrip ([comma] ++ food_group c) = [comma] ++ food_group c).
  { cbn [app rstrip]. rewrite (trimmed_rstrip Hg).
    destruct (food_group c); reflexivity. }
  rewrite rstrip_app; rewrite Htail; [reflexivity | discriminate].
Qed.

Lemma split_first_comma_line (a b : str) :
  has_comma a = false -> split_first_comma (a ++ [comma] ++ b) = (a, b).
Proof.
  unfold has_comma. induction a as [|x a IH]; intros H.
  - reflexivity.
  - cbn [existsb] in H. apply orb_false_iff in H. destruct H as [Hx H].
    cbn [app split_first_comma].
    assert (E : ascii_eqb x comma = false).
    { unfold ascii_eqb in *. rewrite Ascii.eqb_sym. exact Hx. }
    rewrite E. cbn [app] in IH. rewrite (IH H). reflexivity.
Qed.

Lemma child_of_child_line (c : child) :
  child_ok c ->
  header_of (child_line c) = None /\ child_of (child_line c) = Some c.
Proof.
  intros [Hn1 [Hg1 [Hn2 [Hg2 [Hcomma [Hhash Hhdr]]]]]].
  unfold header_of, child_of. rewrite (strip_child_line c Hn2 Hg2).
  assert (Hne : exists x l, child_line c = x :: l).
  { unfold child_line. destruct (name c); cbn [app]; eauto. }
  destruct Hne as [x [l E]].
  assert (Hh : startswith (child_line c) [hash] = false).
  { unfold child_line. destruct (name c) as [|y n]; [reflexivity|].
    cbn [app startswith] in *. rewrite startswith_nil in *. exact Hhash. }
  assert (Hc : has_comma (child_line c) = true).
  { unfold has_comma, child_line. rewrite existsb_app. cbn [app existsb].
    change (ascii_eqb comma comma) with true. cbn [orb].
    apply orb_true_r. }
  rewrite E in *. rewrite Hh, Hhdr, Hc. split; [reflexivity|].
  rewrite <- E. unfold child_line.
  rewrite (split_first_comma_line _ (food_group c) Hcomma).
  unfold trimmed in Hn2, Hg2. rewrite Hn2, Hg2. destruct c; reflexivity.
Qed.

Lemma dict_upd_last (V : Type) (f : V -> V) (dflt : V) (k : str) (v : V)
    (d : dict V) :
  ~ In k (map fst d) ->
  dict_upd f dflt k (d ++ [(k, v)]) = d ++ [(k, f v)].
Proof.
  induction d as [|[k' v'] d IH]; simpl; intros H.
  - rewrite str_eqb_refl. reflexivity.
  - str_cases k k'; [exfalso; apply H; auto|].
    rewrite IH; [reflexivity | tauto].
Qed.

Lemma parse_child_lines (parent : str) (children acc : list child)
    (d : dict (list child)) :
  parent <> [] -> ~ In parent (map fst d) -> Forall child_ok children ->
  fold_left parse_line (map child_line children)
            (d ++ [(parent, acc)], Some parent)
  = (d ++ [(parent, acc ++ children)], Some parent).
Proof.
  intros Hp Hfresh Hok. revert acc.
  induction Hok as [|c children Hc Hcs IH]; intros acc; cbn [map fold_left].
  - rewrite app_nil_r. reflexivity.
  - destruct (child_of_child_line Hc) as [Hh Hch].
    rewrite (parse_line_other _ _ Hh), Hch. cbn [fst snd].
    destruct parent as [|x cp]; [contradiction|].
    rewrite dict_upd_last by assumption.
    rewrite IH, <- app_assoc. reflexivity.
Qed.

Lemma parse_blank_line (st : parse_state) : parse_line st [] = st.
Proof. reflexivity. Qed.

Lemma Forall_sorted_by (A : Type) (before : A -> A -> bool) (P : A -> Prop)
    (l : list A) :
  Forall P l -> Forall P (sorted_by before l).
Proof.
  intros H. eapply Permutation_Forall; [|exact H].
  apply Permutation_sym, sorted_by_perm.
Qed.

Lemma parse_group_lines (g : str * list child) (d : dict (list child))
    (cur : option str) :
  group_ok g -> ~ In (fst g) (map fst d) ->
  fold_left parse_line (group_lines g) (d, cur)
  = (d ++ [sorted_group g], Some (fst g)).
Proof.
  intros [Hp [_ Hcs]] Hfresh. unfold group_lines. cbn [fold_left].
  rewrite (@parse_line_header _ _ (fst g) (header_of_header_line (fst g))).
  cbn [fst]. rewrite dict_set_fresh by assumption.
  rewrite fold_left_app.
  rewrite (@parse_child_lines (fst g) _ [] d Hp Hfresh)
    by (apply Forall_sorted_by; assumption).
  reflexivity.
Qed.

Lemma parse_groups_lines (groups : dict (list child)) (d : dict (list child))
    (cur : option str) :
  Forall group_ok groups -> NoDup (map fst d ++ map fst groups) ->
  fst (fold_left parse_line (flat_map group_lines groups) (d, cur))
  = d ++ map sorted_group groups.
Proof.
  intros Hok. revert d cur.
  induction Hok as [|g groups Hg Hgs IH]; intros d cur Hnd.
  - cbn. rewrite app_nil_r. reflexivity.
  - cbn [flat_map map]. rewrite fold_left_app.
    assert (Hfresh : ~ In (fst g) (map fst d)).
    { intros Hin. apply NoDup_remove_2 in Hnd. apply Hnd.
      apply in_or_app. left. assumption. }
    rewrite (@parse_group_lines g d cur Hg Hfresh).
    rewrite IH.
    + rewrite <- app_assoc. reflexivity.
    + rewrite map_app, <- app_assoc. exact Hnd.
Qed.

Lemma parse_header_lines (st : parse_state) :
  fold_left parse_line proposal_header st = st.
Proof. reflexivity. Qed.

Lemma no_newline_app (a b : str) :
  no_newline a -> no_newline b -> no_newline (a ++ b).
Proof.
  unfold no_newline. intros Ha Hb. rewrite forallb_app, Ha, Hb. reflexivity.
Qed.

Lemma group_lines_no_newline (g : str * list child) :
  group_ok g -> Forall no_newline (group_lines g).
Proof.
  intros [_ [Hp Hcs]]. unfold group_lines. constructor.
  - repeat apply no_newline_app; auto; reflexivity.
  - apply Forall_app. split; [|repeat constructor].
    apply Forall_forall. intros line Hline.
    apply in_map_iff in Hline. destruct Hline as [c [<- Hc]].
    assert (Hok : child_ok c).
    { rewrite Forall_forall in Hcs. apply Hcs.
      eapply Permutation_in; [apply sorted_by_perm | exact Hc]. }
    destruct Hok as [Hn [Hg _]]. unfold child_line.
    repeat apply no_newline_app; auto; reflexivity.
Qed.

Lemma proposal_lines_no_newline (groups : dict (list child)) :
  Forall group_ok groups -> Forall no_newline (proposal_lines groups).
Proof.
  intros Hok. unfold proposal_lines. apply Forall_app. split.
  - unfold proposal_header. repeat constructor.
  - apply Forall_forall. intros line Hline.
    apply in_flat_map in Hline. destruct Hline as [g [Hg Hline]].
    assert (Hgok : group_ok g).
    { rewrite Forall_forall in Hok. apply Hok.
      eapply Permutation_in; [apply sorted_by_perm | exact Hg]. }
    pose proof (group_lines_no_newline Hgok) as H.
    rewrite Forall_forall in H. apply H. assumption.
Qed.

(** What the parser returns for a written proposal: the groups in the
    order of writing, each with its children sorted by name, without the
    groups that have no children. *)
Lemma parse_generated (groups : dict (list child)) :
  respects_format groups ->
  parse_consolidation_proposal (generate_consolidation_proposal groups)
  = filter nonempty_group
           (map sorted_group (sorted_by size_before groups)).
Proof.
  intros [Hnd Hok].
  unfold parse_consolidation_proposal, generate_consolidation_proposal.
  rewrite file_lines_written by (apply proposal_lines_no_newline; assumption).
  unfold parse_lines, proposal_lines.
  rewrite fold_left_app, parse_header_lines.
  rewrite parse_groups_lines.
  - reflexivity.
  - apply Forall_sorted_by. assumption.
  - cbn [map app]. eapply Permutation_NoDup; [|exact Hnd].
    apply Permutation_map, Permutation_sym, sorted_by_perm.
Qed.

Lemma triples_In (groups : dict (list child)) (t : str * str * str) :
  In t (triples groups)
  <-> exists g c, In g groups /\ In c (snd g)
                  /\ t = (fst g, name c, food_group c).
Proof.
  unfold triples. rewrite in_flat_map. split.
  - intros [g [Hg Ht]]. apply in_map_iff in Ht. destruct Ht as [c [<- Hc]].
    exists g, c. auto.
  - intros [g [c [Hg [Hc ->]]]]. exists g. split; [assumption|].
    apply in_map_iff. exists c. auto.
Qed.

(** C4, as the code has it.  The round trip keeps the set of triples for
    the group mappings that respect the format: parent names that are not
    empty, names and food groups without line breaks and without white
    space around them, child names without a comma and without [#] in
    front, and no child line that reads as a section header. *)
Theorem serialize_parse_roundtrip (groups : dict (list child)) :
  respects_format groups ->
  forall t,
    In t (triples (parse_consolidation_proposal
                     (generate_consolidation_proposal groups)))
    <-> In t (triples groups).
Proof.
  intros Hfmt t. rewrite (parse_generated Hfmt), !triples_In. split.
  - intros [g [c [Hg [Hc ->]]]]. apply filter_In in Hg. destruct Hg as [Hg _].
    apply in_map_iff in Hg. destruct Hg as [g0 [<- Hg0]].
    exists g0, c. split; [|split; [|reflexivity]].
    + eapply Permutation_in; [apply sorted_by_perm | exact Hg0].
    + eapply Permutation_in; [apply sorted_by_perm | exact Hc].
  - intros [g [c [Hg [Hc ->]]]].
    assert (Hc' : In c (sorted_by name_before (snd g))).
    { eapply Permutation_in; [apply Permutation_sym, sorted_by_perm | exact Hc]. }
    exists (sorted_group g), c. split; [|split; [exact Hc' | reflexivity]].
    apply filter_In. split.
    + apply in_map.
      eapply Permutation_in; [apply Permutation_sym, sorted_by_perm | exact Hg].
    + unfold nonempty_group, sorted_group. cbn [snd].
      destruct (sorted_by name_before (snd g)); [destruct Hc' | reflexivity].
Qed.

Lemma serialize_parse_roundtrip_witness :
  In ($"CHEESE", $"SWISS CHEESE", $"Dairy")
     (triples (parse_consolidation_proposal
                 (generate_consolidation_proposal cheese_groups)))
  <-> In ($"CHEESE", $"SWISS CHEESE", $"Dairy") (triples cheese_groups).
Proof.
  apply (@serialize_parse_roundtrip cheese_groups).
  split.
  - repeat constructor; simpl; intuition discriminate.
  - repeat constructor; try discriminate.
Defined.

(** C4, as the specification states it, fails: a child name with a comma is
    cut at its first comma, although no name is blank. *)
Lemma comma_name_breaks_roundtrip :
  Forall (fun g => strip (fst g) <> []
                   /\ Forall (fun c => strip (name c) <> []) (snd g))
         beans_groups
  /\ In ($"BEANS", $"BEANS, BLACK", $"Legumes") (triples beans_groups)
  /\ ~ In ($"BEANS", $"BEANS, BLACK", $"Legumes")
          (triples (parse_consolidation_proposal
                      (generate_consolidation_proposal beans_groups)))
  /\ triples (parse_consolidation_proposal
                (generate_consolidation_proposal beans_groups))
     = [ ($"BEANS", $"BEANS", $"BLACK,Legumes");
         ($"BEANS", $"BEANS", $"PINTO,Legumes") ].
Proof.
  split; [|split; [|split]].
  - repeat constructor; vm_compute; discriminate.
  - left. reflexivity.
  - vm_compute. intros [H|[H|[]]]; discriminate H.
  - vm_compute. reflexivity.
Qed.

(** * Further properties *)

(** ** Tokenizer *)

Lemma upper_char_not_lower (c : ascii) : is_lower (upper_char c) = false.
Proof.
  destruct c as [b0 b1 b2 b3 b4 b5 b6 b7].
  destruct b0, b1, b2, b3, b4, b5, b6, b7; reflexivity.
Qed.

Lemma single_spaced_chars (s : str) :
  single_spaced s -> Forall (fun c => is_space c = true -> c = space) s.
Proof.
  induction s as [|c s IH]; simpl; [constructor|].
  intros [Hc Hs]. constructor; [intros H; apply Hc, H | auto].
Qed.

Lemma clean_ingredient_name_chars (name : str) :
  Forall clean_char (clean_ingredient_name name).
Proof.
  assert (H1 : Forall (fun c => is_lower c = false)
                      (clean_ingredient_name name)).
  { unfold clean_ingredient_name.
    apply Forall_strip, Forall_sub_spaces, Forall_sub_special;
      try reflexivity.
    apply Forall_strip. unfold upper. apply Forall_forall.
    intros c Hc. apply in_map_iff in Hc. destruct Hc as [x [<- _]].
    apply upper_char_not_lower. }
  assert (H2 : Forall (fun c => is_kept c = true)
                      (clean_ingredient_name name)).
  { unfold clean_ingredient_name.
    apply Forall_strip, Forall_sub_spaces; [reflexivity|].
    apply sub_special_kept. }
  assert (H3 : Forall (fun c => is_space c = true -> c = space)
                      (clean_ingredient_name name)).
  { apply single_spaced_chars. unfold clean_ingredient_name, strip.
    apply single_spaced_rstrip, single_spaced_lstrip,
      sub_spaces_single_spaced. }
  rewrite Forall_forall in *. intros c Hc.
  repeat split; auto.
Qed.

Lemma clean_ingredient_name_spaced (name : str) :
  single_spaced (clean_ingredient_name name).
Proof.
  unfold clean_ingredient_name, strip.
  apply single_spaced_rstrip, single_spaced_lstrip, sub_spaces_single_spaced.
Qed.

Lemma clean_ingredient_name_stripped (name : str) :
  strip (clean_ingredient_name name) = clean_ingredient_name name.
Proof. unfold clean_ingredient_name. apply strip_idem. Qed.

(** X1. A cleaned name is in normal form: it has no lower case letter and
    no character that the cleaning replaces, its only white space is single
    spaces between words, and it has no white space at either end. *)
Theorem clean_ingredient_name_normal_form (name : str) :
  Forall clean_char (clean_ingredient_name name)
  /\ single_spaced (clean_ingredient_name name)
  /\ strip (clean_ingredient_name name) = clean_ingredient_name name.
Proof.
  split; [apply clean_ingredient_name_chars|]. split.
  - apply clean_ingredient_name_spaced.
  - apply clean_ingredient_name_stripped.
Qed.

Lemma split_words (s : str) :
  Forall (fun w => w <> [] /\ Forall (fun c => is_space c = false) w)
         (split s).
Proof.
  induction s as [|c s IH]; cbn [split]; [constructor|].
  destruct (is_space c) eqn:Ec; [exact IH|].
  destruct s as [|d s'].
  - repeat constructor; [discriminate | assumption].
  - destruct (is_space d) eqn:Ed.
    + constructor; [|exact IH]. split; [discriminate|].
      repeat constructor. assumption.
    + destruct (split (d :: s')) as [|w ws].
      * repeat constructor; [discriminate | assumption].
      * inversion IH as [|? ? [Hw1 Hw2] Hws]; subst.
        constructor; [|assumption]. split; [discriminate|].
        constructor; assumption.
Qed.

Lemma split_Forall (P : ascii -> Prop) (s : str) :
  Forall P s -> Forall (Forall P) (split s).
Proof.
  induction 1 as [|c s Hc Hs IH]; cbn [split]; [constructor|].
  destruct (is_space c); [exact IH|].
  destruct s as [|d s'].
  - repeat constructor. assumption.
  - destruct (is_space d).
    + constructor; [|exact IH]. repeat constructor. assumption.
    + destruct (split (d :: s')) as [|w ws].
      * repeat constructor. assumption.
      * inversion IH; subst. constructor; [|assumption].
        constructor; assumption.
Qed.

(** X2. Every word the tokenizer returns has at least three characters,
    is no stop word, holds no white space and no lower case letter, and
    consists of characters that the cleaning keeps. *)
Theorem extract_meaningful_words_wellformed (ingredient_name : str) :
  Forall (fun word =>
            MIN_WORD_LENGTH <= length word
            /\ ~ In word COMMON_ARTICLES
            /\ Forall (fun c => is_space c = false /\ is_lower c = false
                                /\ is_kept c = true) word)
         (extract_meaningful_words ingredient_name).
Proof.
  unfold extract_meaningful_words. apply Forall_forall. intros w Hw.
  apply filter_In in Hw. destruct Hw as [Hin Hf].
  apply andb_true_iff in Hf. destruct Hf as [Hlen Hstop].
  split; [apply Nat.leb_le; exact Hlen|]. split.
  - apply negb_true_iff in Hstop. apply str_mem_not_In. exact Hstop.
  - pose proof (split_words (clean_ingredient_name ingredient_name)) as H1.
    pose proof (split_Forall (clean_ingredient_name_chars ingredient_name))
      as H2.
    rewrite Forall_forall in H1, H2.
    destruct (H1 w Hin) as [_ Hsp]. specialize (H2 w Hin).
    rewrite Forall_forall in *. intros c Hc.
    destruct (H2 c Hc) as [Hl [Hk _]]. auto.
Qed.

Lemma split_nil_rstrip (s : str) : split s = [] -> rstrip s = [].
Proof.
  induction s as [|c s IH]; [reflexivity|]. cbn [split rstrip].
  destruct (is_space c) eqn:Ec.
  - intros H. rewrite (IH H). reflexivity.
  - destruct s as [|d s']; [discriminate|].
    destruct (is_space d); [discriminate|].
    destruct (split (d :: s')); discriminate.
Qed.

Lemma rstrip_fixed_tail (c : ascii) (s : str) :
  rstrip (c :: s) = c :: s -> rstrip s = s.
Proof.
  cbn [rstrip]. destruct (rstrip s) as [|x r] eqn:E.
  - destruct (is_space c); [discriminate|]. intros H. inversion H. reflexivity.
  - intros H. inversion H. reflexivity.
Qed.

Lemma join_space_cons (c : ascii) (w : str) (ws : list str) :
  join_space ((c :: w) :: ws) = c :: join_space (w :: ws).
Proof. destruct ws; reflexivity. Qed.

Lemma join_split (s : str) :
  single_spaced s -> rstrip s = s -> join_space (split s) = lstrip s.
Proof.
  induction s as [|c s IH]; [reflexivity|].
  intros [Hc Hs] Hr. pose proof (rstrip_fixed_tail Hr) as Hr'.
  specialize (IH Hs Hr'). cbn [split lstrip].
  destruct (is_space c) eqn:Ec; [exact IH|].
  destruct s as [|d s']; [reflexivity|].
  destruct (is_space d) eqn:Ed.
  - destruct Hs as [Hd _]. destruct (Hd Ed) as [-> Hlead].
    destruct (split (space :: s')) as [|w ws] eqn:Esp.
    + apply split_nil_rstrip in Esp. rewrite Hr' in Esp. discriminate.
    + change (join_space ([c] :: w :: ws))
        with ([c] ++ space :: join_space (w :: ws)).
      cbn [lstrip] in IH. rewrite Ed in IH.
      rewrite IH, (lstrip_fixed _ Hlead). reflexivity.
  - cbn [lstrip] in IH. rewrite Ed in IH.
    destruct (split (d :: s')) as [|w ws] eqn:Esp.
    + apply split_nil_rstrip in Esp. rewrite Hr' in Esp. discriminate.
    + rewrite join_space_cons, IH. reflexivity.
Qed.

(** X3. Splitting a cleaned name into words and joining the words with
    single spaces gives the cleaned name back. *)
Theorem clean_ingredient_name_join_split (name : str) :
  join_space (split (clean_ingredient_name name)) = clean_ingredient_name name.
Proof.
  pose proof (clean_ingredient_name_spaced name) as Hsp.
  pose proof (clean_ingredient_name_stripped name) as Hstrip.
  assert (Hlead : no_lead (clean_ingredient_name name)).
  { rewrite <- Hstrip. unfold strip. apply rstrip_no_lead, lstrip_no_lead. }
  assert (Hr : rstrip (clean_ingredient_name name)
               = clean_ingredient_name name).
  { unfold strip in Hstrip. rewrite (lstrip_fixed _ Hlead) in Hstrip.
    exact Hstrip. }
  rewrite (@join_split _ Hsp Hr). apply lstrip_fixed. exact Hlead.
Qed.

(** ** WordIndex *)

Lemma set_add_In (x y : str) (s : list str) :
  In y (set_add x s) <-> In y s \/ y = x.
Proof.
  unfold set_add. destruct (str_mem x s) eqn:E.
  - apply str_mem_In in E. split; [auto|]. intros [H | ->]; assumption.
  - rewrite in_app_iff. simpl. intuition.
Qed.

Lemma index_words_postings (n : str) (words : list str)
    (st : dict nat * dict (list str)) (w ing : str) :
  In ing (dict_get_default (snd (fold_left (index_word n) words st)) w [])
  <-> In ing (dict_get_default (snd st) w []) \/ (ing = n /\ In w words).
Proof.
  revert st. induction words as [|x words IH]; intros st; cbn [fold_left].
  - simpl. tauto.
  - rewrite IH. unfold index_word. cbn [snd].
    rewrite dict_get_default_upd. str_cases w x.
    + subst x. rewrite set_add_In. simpl. tauto.
    + simpl. split; [intros [H|[H1 H2]]; auto | intros [H|[H1 [H2|H2]]]; auto].
      congruence.
Qed.

Lemma index_rows_postings (rows : list row)
    (st : dict nat * dict (list str)) (w ing : str) :
  In ing (dict_get_default (snd (fold_left index_row rows st)) w [])
  <-> In ing (dict_get_default (snd st) w [])
      \/ exists r, In r rows /\ pd_name r = ing
                   /\ In w (extract_meaningful_words ing).
Proof.
  revert st. induction rows as [|r rows IH]; intros st; cbn [fold_left].
  - simpl. split; [auto | intros [H|[r [[] _]]]; exact H].
  - rewrite IH. unfold index_row. rewrite index_words_postings.
    split.
    + intros [[H|[-> H]]|[r' [H1 H2]]]; [auto | |].
      * right. exists r. simpl. auto.
      * right. exists r'. simpl. tauto.
    + intros [H|[r' [[<-|H1] [H2 H3]]]]; [auto | |].
      * left. right. subst ing. auto.
      * right. exists r'. auto.
Qed.

(** X4. The posting set of a word holds exactly the names of the rows whose
    tokens contain the word, each name once. *)
Theorem postings_exact (ingredients_df : list row) (w ing : str) :
  NoDup (postings_of ingredients_df w)
  /\ (In ing (postings_of ingredients_df w)
      <-> exists r, In r ingredients_df /\ pd_name r = ing
                    /\ In w (extract_meaningful_words ing)).
Proof.
  split.
  - apply postings_get_NoDup, find_word_frequencies_postings.
  - unfold postings_of, find_word_frequencies.
    rewrite index_rows_postings. simpl. tauto.
Qed.

Lemma dict_mem_existsb (V : Type) (d : dict V) (k : str) :
  dict_mem d k = str_mem k (map fst d).
Proof.
  unfold dict_mem, str_mem. induction d as [|kv d IH]; simpl; [reflexivity|].
  rewrite IH. reflexivity.
Qed.

Lemma index_row_same_keys (rows : list row)
    (st : dict nat * dict (list str)) :
  map fst (fst st) = map fst (snd st) ->
  map fst (fst (fold_left index_row rows st))
  = map fst (snd (fold_left index_row rows st)).
Proof.
  revert st. induction rows as [|r rows IH]; intros st H; cbn [fold_left];
    [assumption|].
  apply IH. unfold index_row.
  generalize (extract_meaningful_words (pd_name r)) as words.
  intros words. revert st H.
  induction words as [|x words IHw]; intros st H; cbn [fold_left];
    [assumption|].
  apply IHw. unfold index_word, counter_incr. cbn [fst snd].
  rewrite !dict_upd_keys, !dict_mem_existsb, H. reflexivity.
Qed.

Lemma postings_nonempty_key (V : Type) (d : dict (list V)) (w : str) (x : V) :
  In x (dict_get_default d w []) -> In w (map fst d).
Proof.
  unfold dict_get_default. destruct (dict_get d w) as [l|] eqn:E; [|intros []].
  intros _. apply dict_get_In in E. apply in_map_iff. exists (w, l). auto.
Qed.

Lemma index_rows_keys (rows : list row) (st : dict nat * dict (list str))
    (w : str) :
  In w (map fst (snd (fold_left index_row rows st)))
  <-> In w (map fst (snd st))
      \/ exists r, In r rows /\ In w (extract_meaningful_words (pd_name r)).
Proof.
  revert st. induction rows as [|r rows IH]; intros st; cbn [fold_left].
  - split; [auto | intros [H|[r [[] _]]]; exact H].
  - rewrite IH.
    assert (Hr : In w (map fst (snd (index_row st r)))
                 <-> In w (map fst (snd st))
                     \/ In w (extract_meaningful_words (pd_name r))).
    { unfold index_row.
      generalize (extract_meaningful_words (pd_name r)) as words.
      intros words. revert st.
      induction words as [|x words IHw]; intros st; cbn [fold_left].
      - simpl. tauto.
      - rewrite IHw. unfold index_word. cbn [snd].
        rewrite dict_upd_keys. destruct (dict_mem (snd st) x) eqn:E.
        + apply dict_mem_keys in E. simpl.
          split; [tauto | intros [H|[<-|H]]; auto].
        + rewrite in_app_iff. simpl. tauto. }
    rewrite Hr. split.
    + intros [[H|H]|[r' [H1 H2]]]; auto.
      * right. exists r. simpl. auto.
      * right. exists r'. simpl. auto.
    + intros [H|[r' [[<-|H1] H2]]]; auto.
      right. exists r'. auto.
Qed.

(** X5. The table of counts and the table of posting sets have the same
    words, in the same order and each word once, and these are the words
    that occur among the tokens of some row. *)
Theorem word_index_keys (ingredients_df : list row) (w : str) :
  map fst (fst (find_word_frequencies ingredients_df))
  = map fst (snd (find_word_frequencies ingredients_df))
  /\ NoDup (map fst (snd (find_word_frequencies ingredients_df)))
  /\ (In w (map fst (snd (find_word_frequencies ingredients_df)))
      <-> exists r, In r ingredients_df
                    /\ In w (extract_meaningful_words (pd_name r))).
Proof.
  split; [|split].
  - unfold find_word_frequencies. apply index_row_same_keys. reflexivity.
  - apply find_word_frequencies_keys.
  - unfold find_word_frequencies. rewrite index_rows_keys. simpl. tauto.
Qed.

Lemma distinct_le_tokens (df : list row) (w : str) :
  distinct_ingredients_with df w <= token_occurrences df w.
Proof.
  unfold distinct_ingredients_with, token_occurrences.
  eapply Nat.le_trans.
  - apply NoDup_incl_length; [apply NoDup_nodup|].
    intros x Hx. apply nodup_In in Hx. exact Hx.
  - induction df as [|r df IH]; simpl; [lia|].
    destruct (str_mem w (extract_meaningful_words (pd_name r))) eqn:E;
      simpl; [|lia].
    apply str_mem_In in E.
    assert (0 < occurrences w (extract_meaningful_words (pd_name r))).
    { unfold occurrences. apply in_split in E. destruct E as [a [b ->]].
      rewrite filter_app. simpl. rewrite str_eqb_refl, length_app. simpl.
      lia. }
    lia.
Qed.

(** X6. The posting set of a word has as many names as there are distinct
    ingredient names with the word, and the count of the word is at least
    that number. *)
Theorem postings_size (ingredients_df : list row) (w : str) :
  length (postings_of ingredients_df w)
  = distinct_ingredients_with ingredients_df w
  /\ length (postings_of ingredients_df w)
     <= counter_get (fst (find_word_frequencies ingredients_df)) w.
Proof.
  assert (Hlen : length (postings_of ingredients_df w)
                 = distinct_ingredients_with ingredients_df w).
  { unfold distinct_ingredients_with. apply Permutation_length.
    apply NoDup_Permutation.
    - apply postings_get_NoDup, find_word_frequencies_postings.
    - apply NoDup_nodup.
    - intros ing. rewrite nodup_In, filter_In, in_map_iff, str_mem_In.
      unfold postings_of, find_word_frequencies.
      rewrite index_rows_postings. simpl. split.
      + intros [[]|[r [H1 [H2 H3]]]]. split; [exists r; auto | assumption].
      + intros [[r [H1 H2]] H3]. right. exists r. auto. }
  split; [exact Hlen|]. rewrite Hlen.
  unfold find_word_frequencies. rewrite find_word_frequencies_frequency.
  simpl. apply distinct_le_tokens.
Qed.

(** ** GroupScorer *)

Lemma Qnat_nonneg (n : nat) : (0 <= Qnat n)%Q.
Proof. unfold Qnat, Qle. simpl. lia. Qed.

Lemma Qnat_le (a b : nat) : a <= b -> (Qnat a <= Qnat b)%Q.
Proof. intros H. unfold Qnat, Qle. simpl. lia. Qed.

Lemma Qnat_ratio (a b : nat) :
  a <= b -> (0 <= Qnat a / Qnat b)%Q /\ (Qnat a / Qnat b <= 1)%Q.
Proof.
  intros Hab. split.
  - apply Qmult_le_0_compat; [apply Qnat_nonneg|].
    apply Qinv_le_0_compat, Qnat_nonneg.
  - destruct b as [|b].
    + unfold Qdiv, Qnat. simpl. unfold Qle. simpl. lia.
    + apply Qle_shift_div_r.
      * unfold Qnat, Qlt. simpl. lia.
      * rewrite Qmult_1_l. apply Qnat_le. exact Hab.
Qed.

Lemma calculate_word_coherence_range (word : str) (ings : list str) :
  (0 <= calculate_word_coherence word ings)%Q
  /\ (calculate_word_coherence word ings <= COHERENCE_MULTIPLIER)%Q.
Proof.
  unfold calculate_word_coherence.
  destruct (length ings <? MIN_GROUP_SIZE); [split; discriminate|].
  set (counter := fold_left (count_other_words word) ings []).
  destruct (list_sum (map snd counter) =? 0); [split; discriminate|].
  destruct counter as [|kv counter'] eqn:E; [split; discriminate|].
  rewrite <- E.
  assert (Hle : length (filter (fun wc : str * nat => 1 <? snd wc) counter)
                <= length counter) by apply List.filter_length_le.
  destruct (Qnat_ratio Hle) as [H0 H1].
  unfold COHERENCE_MULTIPLIER. split.
  - apply Qmult_le_0_compat; [exact H0 | discriminate].
  - setoid_replace 40%Q with (1 * 40)%Q at 2 by reflexivity.
    apply Qmult_le_compat_r; [exact H1 | discriminate].
Qed.

Lemma grouping_potential_rejected (word : str) (ings all : list str) :
  length ings < MIN_GROUP_SIZE \/ length all < 10 * length ings ->
  calculate_grouping_potential word ings all = 0%Q.
Proof.
  intros H. unfold calculate_grouping_potential.
  destruct (length ings <? MIN_GROUP_SIZE) eqn:E1; [reflexivity|].
  apply Nat.ltb_ge in E1. destruct H as [H|H]; [lia|].
  assert (E2 : Qltb (Qnat (length all) * MAX_INGREDIENT_PERCENTAGE)
                    (Qnat (length ings)) = true).
  { unfold Qltb. apply negb_true_iff.
    destruct (Qle_bool _ _) eqn:E; [|reflexivity].
    apply Qle_bool_iff in E. unfold Qle, Qnat, MAX_INGREDIENT_PERCENTAGE in E.
    simpl in E. lia. }
  rewrite E2. reflexivity.
Qed.

Lemma grouping_potential_accepted (word : str) (ings all : list str) :
  accepted_size (length ings) (length all) ->
  exists coherence position bonus : Q,
    (calculate_grouping_potential word ings all
     == Qnat (Nat.min (length ings * 10) MAX_FREQUENCY_SCORE) + coherence
        + position + bonus)%Q
    /\ (0 <= coherence <= 40)%Q /\ (0 <= position <= 30)%Q
    /\ bonus = (if 6 <=? length word then 20
                else if 4 <=? length word then 10 else 0)%Q.
Proof.
  intros [Hn Htot]. unfold calculate_grouping_potential.
  assert (E1 : (length ings <? MIN_GROUP_SIZE) = false)
    by (apply Nat.ltb_ge; exact Hn).
  rewrite E1.
  assert (E2 : Qltb (Qnat (length all) * MAX_INGREDIENT_PERCENTAGE)
                    (Qnat (length ings)) = false).
  { unfold Qltb. apply negb_false_iff. apply Qle_bool_iff.
    unfold Qle, Qnat, MAX_INGREDIENT_PERCENTAGE. simpl. lia. }
  rewrite E2.
  set (begins := filter (fun ing => startswith (clean_ingredient_name ing)
                                               (word ++ [space])) ings).
  assert (Hb : length begins <= length ings) by apply List.filter_length_le.
  destruct (Qnat_ratio Hb) as [Hb0 Hb1].
  pose proof (calculate_word_coherence_range word ings) as Hc.
  assert (Hpos : (0 <= Qnat (length begins) / Qnat (length ings)
                       * BEGINNING_WORD_BONUS <= 30)%Q).
  { unfold BEGINNING_WORD_BONUS. split.
    - apply Qmult_le_0_compat; [exact Hb0 | discriminate].
    - setoid_replace 30%Q with (1 * 30)%Q at 2 by reflexivity.
      apply Qmult_le_compat_r; [exact Hb1 | discriminate]. }
  exists (calculate_word_coherence word ings),
         (Qnat (length begins) / Qnat (length ings) * BEGINNING_WORD_BONUS)%Q.
  destruct (6 <=? length word).
  - exists LONG_WORD_BONUS.
    split; [apply Qeq_refl|]. split; [exact Hc|]. split; [exact Hpos|].
    reflexivity.
  - destruct (4 <=? length word).
    + exists MEDIUM_WORD_BONUS.
      split; [apply Qeq_refl|]. split; [exact Hc|]. split; [exact Hpos|].
      reflexivity.
    + exists 0%Q.
      split; [symmetry; apply Qplus_0_r|]. split; [exact Hc|].
      split; [exact Hpos | reflexivity].
Qed.

Lemma frequency_score_range (n : nat) :
  MIN_GROUP_SIZE <= n ->
  (20 <= Qnat (Nat.min (n * 10) MAX_FREQUENCY_SCORE) <= 100)%Q.
Proof.
  unfold MIN_GROUP_SIZE, MAX_FREQUENCY_SCORE. intros H.
  split; unfold Qle, Qnat; simpl; lia.
Qed.

(** X7. The score of a word is 0 when its posting set has fewer than two
    names or more than a tenth of the ingredients, and lies between 20 and
    190 otherwise. *)
Theorem grouping_potential_range (word : str) (ings all : list str) :
  if (MIN_GROUP_SIZE <=? length ings) && (10 * length ings <=? length all)
  then (20 <= calculate_grouping_potential word ings all <= 190)%Q
  else calculate_grouping_potential word ings all = 0%Q.
Proof.
  destruct ((MIN_GROUP_SIZE <=? length ings)
            && (10 * length ings <=? length all)) eqn:E.
  - apply andb_true_iff in E. destruct E as [E1 E2].
    apply Nat.leb_le in E1. apply Nat.leb_le in E2.
    destruct (@grouping_potential_accepted word ings all (conj E1 E2))
      as [coh [pos [bonus [Heq [Hc [Hp Hb]]]]]].
    pose proof (frequency_score_range E1) as Hf.
    rewrite Heq.
    assert (Hbonus : (0 <= bonus <= 20)%Q).
    { rewrite Hb. destruct (6 <=? length word); [split; discriminate|].
      destruct (4 <=? length word); split; discriminate. }
    lra.
  - apply grouping_potential_rejected.
    apply andb_false_iff in E. destruct E as [E|E].
    + left. apply Nat.leb_gt in E. exact E.
    + right. apply Nat.leb_gt in E. exact E.
Qed.

(** X8. A word whose posting set the scorer accepts reaches the threshold
    of 30 as soon as it has four letters or three postings: the threshold
    only ever rejects words of three letters with two postings. *)
Theorem accepted_word_reaches_threshold (word : str) (ings all : list str) :
  accepted_size (length ings) (length all) ->
  4 <= length word \/ 3 <= length ings ->
  Qle_bool MIN_SCORE_THRESHOLD (calculate_grouping_potential word ings all)
  = true.
Proof.
  intros Hacc Hcase. apply Qle_bool_iff. unfold MIN_SCORE_THRESHOLD.
  destruct (@grouping_potential_accepted word ings all Hacc)
    as [coh [pos [bonus [Heq [Hc [Hp Hb]]]]]].
  destruct Hacc as [Hn _].
  pose proof (frequency_score_range Hn) as Hf.
  rewrite Heq. destruct Hcase as [Hlen|Hn3].
  - assert (Hbonus : (10 <= bonus)%Q).
    { rewrite Hb. destruct (6 <=? length word) eqn:E6; [discriminate|].
      apply Nat.leb_le in Hlen. rewrite Hlen. discriminate. }
    lra.
  - assert (Hbase : (30 <= Qnat (Nat.min (length ings * 10)
                                         MAX_FREQUENCY_SCORE))%Q).
    { unfold MAX_FREQUENCY_SCORE, Qle, Qnat. simpl. lia. }
    assert (Hbonus : (0 <= bonus)%Q).
    { rewrite Hb. destruct (6 <=? length word); [discriminate|].
      destruct (4 <=? length word); discriminate. }
    lra.
Qed.

Lemma accepted_word_reaches_threshold_witness :
  Qle_bool MIN_SCORE_THRESHOLD
    (calculate_grouping_potential $"PEAR" [$"PEAR BARTLETT"; $"PEAR BOSC"]
                                  twenty_names) = true.
Proof.
  apply (@accepted_word_reaches_threshold $"PEAR"
           [$"PEAR BARTLETT"; $"PEAR BOSC"] twenty_names).
  - split; vm_compute; repeat constructor.
  - left. vm_compute. repeat constructor.
Defined.

Lemma no_candidate_below_twenty (df : list row) (pts : list str)
    (l : dict (list str)) :
  length df < 20 -> fold_left (score_word df pts) l [] = [].
Proof.
  intros Hlen. induction l as [|e l IH]; [reflexivity|].
  cbn [fold_left]. unfold score_word at 2.
  destruct (str_mem (fst e) pts); [exact IH|].
  rewrite grouping_potential_rejected; [exact IH|].
  rewrite length_map. unfold MIN_GROUP_SIZE.
  destruct (Nat.lt_ge_cases (length (snd e)) 2); [left; assumption|].
  right. lia.
Qed.

(** X9. A collection of fewer than twenty ingredients gets no
    consolidation group at all: a group needs two postings, and two
    postings are more than a tenth of fewer than twenty ingredients. *)
Theorem no_group_below_twenty (ingredients_df : list row) :
  length ingredients_df < 20 ->
  find_consolidation_groups ingredients_df = [].
Proof.
  intros Hlen. unfold find_consolidation_groups, sorted_words_of.
  assert (E : word_scores_of ingredients_df = []).
  { unfold word_scores_of.
    destruct (find_word_frequencies ingredients_df) as [wf w2i].
    apply no_candidate_below_twenty. exact Hlen. }
  rewrite E. reflexivity.
Qed.

Lemma no_group_below_twenty_witness :
  find_consolidation_groups cheese_df = [].
Proof.
  apply (@no_group_below_twenty cheese_df). vm_compute. repeat constructor.
Defined.

(** ** GroupAssigner: the groups *)












Lemma assign_groups_other_words (df : list row) (w2i : dict (list str))
    (words : list (str * Q)) (st : assign_state) (w : str) :
  ~ In w (map fst words) ->
  dict_get (fst (fold_left (assign_word df w2i) words st)) w
  = dict_get (fst st) w.
Proof.
  revert st. induction words as [|ws words IH]; intros st Hn;
    cbn [fold_left]; [reflexivity|].
  rewrite IH by (intros H; apply Hn; right; exact H).
  unfold assign_word. destruct (2 <=? length _); [|reflexivity].
  rewrite fold_add_group_child. cbn [fst]. unfold dict_set.
  apply dict_get_upd_other. intros ->. apply Hn. left. reflexivity.
Qed.

Lemma available_all (ings : list str) :
  available_ingredients [] ings = ings.
Proof.
  unfold available_ingredients. induction ings as [|i ings IH];
    [reflexivity|].
  cbn [filter]. rewrite IH. reflexivity.
Qed.

(** ** ProposalCodec: further properties *)

(** X13. For a group mapping that respects the format, the parser returns
    from the written proposal the groups in the order of writing, by
    descending number of children, each with its children sorted by name,
    and without the groups that have no child. *)
Theorem generated_proposal_parses_exactly (groups : dict (list child)) :
  respects_format groups ->
  parse_consolidation_proposal (generate_consolidation_proposal groups)
  = filter nonempty_group (map sorted_group (sorted_by size_before groups)).
Proof. apply parse_generated. Qed.

Lemma generated_proposal_parses_exactly_witness :
  parse_consolidation_proposal (generate_consolidation_proposal cheese_groups)
  = filter nonempty_group
           (map sorted_group (sorted_by size_before cheese_groups)).
Proof.
  apply (@generated_proposal_parses_exactly cheese_groups).
  split.
  - repeat constructor; simpl; intuition discriminate.
  - repeat constructor; try discriminate.
Defined.

Lemma parse_line_passed_over (st : parse_state) (raw : str) :
  passed_over raw -> parse_line st raw = st.
Proof.
  unfold passed_over, parse_line.
  destruct (strip raw) as [|c line]; [reflexivity|].
  intros [H|[H|[H1 H2]]]; [discriminate | rewrite H; reflexivity|].
  destruct (startswith (c :: line) [hash]); [reflexivity|].
  rewrite H1, H2. destruct (snd st) as [[|x cp]|]; reflexivity.
Qed.

(** X14. An empty line, a comment and a line that is no section header and
    has no comma change nothing: the parser returns what it returns
    without the line. *)
Theorem passed_over_line_ignored (before after : list str) (raw : str) :
  passed_over raw ->
  parse_lines (before ++ raw :: after) = parse_lines (before ++ after).
Proof.
  intros H. unfold parse_lines. rewrite !fold_left_app. cbn [fold_left].
  rewrite (parse_line_passed_over _ H). reflexivity.
Qed.

Lemma passed_over_line_ignored_witness :
  parse_lines ([$"[CHEESE]"; $"brie,dairy"] ++ $"swiss cheese" :: [$"feta,dairy"])
  = parse_lines ([$"[CHEESE]"; $"brie,dairy"] ++ [$"feta,dairy"]).
Proof.
  apply (@passed_over_line_ignored [$"[CHEESE]"; $"brie,dairy"]
           [$"feta,dairy"] $"swiss cheese").
  right. right. split; vm_compute; reflexivity.
Defined.

(** X15. The lines in front of the first section header are ignored,
    child lines among them too. *)
Theorem lines_before_first_header_ignored (orphans rest : list str) :
  Forall (fun raw => is_header (strip raw) = false) orphans ->
  parse_lines (orphans ++ rest) = parse_lines rest.
Proof.
  intros H. unfold parse_lines. rewrite fold_left_app.
  assert (E : fold_left parse_line orphans
                        (@nil (str * list child), @None str) = ([], None)).
  { induction H as [|raw orphans Hraw _ IH]; [reflexivity|].
    cbn [fold_left]. rewrite parse_line_other.
    - cbn [snd]. destruct (child_of raw); exact IH.
    - unfold header_of. rewrite Hraw.
      destruct (strip raw); [reflexivity|].
      destruct (startswith _ _); reflexivity. }
  rewrite E. reflexivity.
Qed.

Lemma lines_before_first_header_ignored_witness :
  parse_lines ([$"brie,dairy"; $"feta,dairy"]
               ++ [$"[CHEESE]"; $"swiss cheese,dairy"])
  = parse_lines [$"[CHEESE]"; $"swiss cheese,dairy"].
Proof.
  apply (@lines_before_first_header_ignored [$"brie,dairy"; $"feta,dairy"]
           [$"[CHEESE]"; $"swiss cheese,dairy"]).
  repeat constructor.
Defined.

Lemma split_first_comma_fst (line : str) :
  Forall (fun c => ascii_eqb comma c = false) (fst (split_first_comma line)).
Proof.
  induction line as [|c line IH]; cbn [split_first_comma]; [constructor|].
  destruct (ascii_eqb c comma) eqn:E; [constructor|].
  destruct (split_first_comma line) as [a b]. cbn [fst] in *.
  constructor; [|exact IH].
  unfold ascii_eqb in *. rewrite Ascii.eqb_sym. exact E.
Qed.

Lemma child_of_trimmed (raw : str) (e : child) :
  child_of raw = Some e -> child_trimmed e.
Proof.
  unfold child_of. destruct (strip raw) as [|c line]; [discriminate|].
  destruct (startswith _ _); [discriminate|].
  destruct (is_header _); [discriminate|].
  destruct (has_comma _); [|discriminate].
  pose proof (split_first_comma_fst (c :: line)) as Hc.
  destruct (split_first_comma (c :: line)) as [a b]. cbn [fst] in Hc.
  intros H. inversion H; subst e. unfold child_trimmed. cbn [name food_group].
  split; [apply strip_idem|]. split; [apply strip_idem|].
  apply (Forall_strip (P := fun c => ascii_eqb comma c = false)) in Hc.
  clear H. unfold has_comma.
  induction Hc as [|x l Hx _ IH]; [reflexivity|].
  cbn [existsb]. rewrite Hx. exact IH.
Qed.

Lemma parse_fold_trimmed (lines : list str) (st : parse_state) :
  Forall (fun kv => Forall child_trimmed (snd kv)) (fst st) ->
  Forall (fun kv => Forall child_trimmed (snd kv))
         (fst (fold_left parse_line lines st)).
Proof.
  revert st. induction lines as [|raw lines IH]; intros st H;
    cbn [fold_left]; [exact H|].
  apply IH. destruct (header_of raw) as [p|] eqn:E.
  - rewrite (parse_line_header st raw E). cbn [fst]. unfold dict_set.
    apply (@dict_upd_Forall _ (Forall child_trimmed));
      [intros v Hv; constructor | constructor | exact H].
  - rewrite (parse_line_other st raw E).
    destruct (child_of raw) as [e|] eqn:Ec; [|exact H].
    destruct (snd st) as [[|x cp]|]; [exact H | | exact H].
    cbn [fst].
    apply (@dict_upd_Forall _ (Forall child_trimmed));
      [|constructor | exact H].
    intros v Hv. apply Forall_app. split; [exact Hv|].
    constructor; [|constructor]. apply (child_of_trimmed raw Ec).
Qed.

Lemma filter_keys_NoDup (V : Type) (f : str * V -> bool) (d : dict V) :
  NoDup (map fst d) -> NoDup (map fst (filter f d)).
Proof.
  induction d as [|kv d IH]; cbn [map filter]; [auto|].
  intros H. inversion H as [|? ? Hn Hnd]; subst.
  destruct (f kv); [|auto]. cbn [map]. constructor; [|auto].
  intros Hin. apply Hn. apply in_map_iff in Hin.
  destruct Hin as [kv' [E Hin]]. apply filter_In in Hin.
  apply in_map_iff. exists kv'. tauto.
Qed.

(** X16. What the parser returns is well formed, whatever the text: no
    parent twice, no group without a child, and in every child entry a
    name and a food group without white space around them and a name
    without a comma. *)
Theorem parsed_groups_wellformed (proposal : str) :
  NoDup (map fst (parse_consolidation_proposal proposal))
  /\ Forall (fun g => snd g <> [] /\ Forall child_trimmed (snd g))
            (parse_consolidation_proposal proposal).
Proof.
  unfold parse_consolidation_proposal, parse_lines. split.
  - apply filter_keys_NoDup, parse_fold_keys. constructor.
  - pose proof (@parse_fold_trimmed (file_lines proposal) ([], None)
                  (Forall_nil _)) as H.
    rewrite Forall_forall in *. intros g Hg.
    apply filter_In in Hg. destruct Hg as [Hin Hne]. split.
    + unfold nonempty_group in Hne. destruct (snd g); [discriminate Hne|].
      discriminate.
    + apply (H g Hin).
Qed.

Lemma parse_fold_empty_name (lines : list str) (st : parse_state) :
  dict_get (fst st) [] = None \/ dict_get (fst st) [] = Some [] ->
  dict_get (fst (fold_left parse_line lines st)) [] = None
  \/ dict_get (fst (fold_left parse_line lines st)) [] = Some [].
Proof.
  revert st. induction lines as [|raw lines IH]; intros st H;
    cbn [fold_left]; [exact H|].
  apply IH. destruct (header_of raw) as [p|] eqn:E.
  - rewrite (parse_line_header st raw E). cbn [fst]. unfold dict_set.
    rewrite dict_get_upd. destruct (str_eqb [] p); [right; reflexivity|].
    exact H.
  - rewrite (parse_line_other st raw E).
    destruct (child_of raw) as [e|]; [|exact H].
    destruct (snd st) as [[|x cp]|]; [exact H | | exact H].
    cbn [fst]. rewrite dict_get_upd. exact H.
Qed.

(** X17. A section with the empty name, opened by the line [[]], never
    gives a group: the child lines under it are dropped. *)
Theorem empty_parent_name_dropped (proposal : str) :
  dict_get (parse_consolidation_proposal proposal) [] = None.
Proof.
  unfold parse_consolidation_proposal. rewrite parse_lines_get.
  destruct (@parse_fold_empty_name (file_lines proposal) ([], None))
    as [E|E]; [left; reflexivity | |]; rewrite E; reflexivity.
Qed.

Lemma str_leb_total (a b : str) : str_leb a b = false -> str_leb b a = true.
Proof.
  revert b. induction a as [|x a IH]; intros [|y b]; cbn [str_leb];
    try discriminate; try reflexivity.
  destruct (Nat.ltb_spec (code x) (code y)); [discriminate|].
  destruct (Nat.ltb_spec (code y) (code x)); [reflexivity|].
  apply IH.
Qed.

Lemma str_leb_trans (a b c : str) :
  str_leb a b = true -> str_leb b c = true -> str_leb a c = true.
Proof.
  revert b c. induction a as [|x a IH]; intros [|y b] [|z c];
    cbn [str_leb]; try discriminate; try reflexivity.
  destruct (Nat.ltb_spec (code x) (code y)),
           (Nat.ltb_spec (code y) (code z)),
           (Nat.ltb_spec (code x) (code z)),
           (Nat.ltb_spec (code y) (code x)),
           (Nat.ltb_spec (code z) (code y)),
           (Nat.ltb_spec (code z) (code x));
    try discriminate; try reflexivity; try lia.
  apply IH.
Qed.

Lemma sorted_by_StronglySorted (A : Type) (before : A -> A -> bool)
    (l : list A) :
  (forall x y, before x y = false -> before y x = true) ->
  (forall x y z, before x y = true -> before y z = true ->
                 before x z = true) ->
  StronglySorted (fun x y => before x y = true) (sorted_by before l).
Proof.
  intros Htotal Htrans. apply Sorted_StronglySorted.
  - intros x y z. apply Htrans.
  - apply sorted_by_Sorted. exact Htotal.
Qed.

Lemma StronglySorted_filter (A : Type) (R : A -> A -> Prop)
    (f : A -> bool) (l : list A) :
  StronglySorted R l -> StronglySorted R (filter f l).
Proof.
  induction 1 as [|x l Hl IH Hx]; cbn [filter]; [constructor|].
  destruct (f x); [|exact IH]. constructor; [exact IH|].
  rewrite Forall_forall in *. intros y Hy. apply filter_In in Hy.
  apply Hx. tauto.
Qed.

Lemma StronglySorted_map (A B : Type) (R : A -> A -> Prop)
    (R' : B -> B -> Prop) (f : A -> B) (l : list A) :
  (forall x y, R x y -> R' (f x) (f y)) ->
  StronglySorted R l -> StronglySorted R' (map f l).
Proof.
  intros Hf. induction 1 as [|x l Hl IH Hx]; cbn [map]; constructor;
    [exact IH|].
  rewrite Forall_forall in *. intros y Hy. apply in_map_iff in Hy.
  destruct Hy as [z [<- Hz]]. auto.
Qed.

Lemma sorted_by_length (A : Type) (before : A -> A -> bool) (l : list A) :
  length (sorted_by before l) = length l.
Proof. apply Permutation_length, sorted_by_perm. Qed.

(** X18. In the proposal written for a group mapping that respects the
    format, the sections come by descending number of children, and the
    children of a section by ascending name: that is the order in which
    the parser returns them. *)
Theorem written_proposal_order (groups : dict (list child)) :
  respects_format groups ->
  StronglySorted (fun g h => length (snd h) <= length (snd g))
    (parse_consolidation_proposal (generate_consolidation_proposal groups))
  /\ Forall (fun g =>
               StronglySorted
                 (fun c d => str_leb (name c) (name d) = true) (snd g))
       (parse_consolidation_proposal
          (generate_consolidation_proposal groups)).
Proof.
  intros Hfmt. rewrite (parse_generated Hfmt). split.
  - apply StronglySorted_filter.
    apply StronglySorted_map
      with (R := fun g h => size_before g h = true).
    + intros g h H. unfold size_before in H. apply Nat.leb_le in H.
      unfold sorted_group. cbn [snd]. rewrite !sorted_by_length. exact H.
    + apply sorted_by_StronglySorted; unfold size_before.
      * intros x y H. apply Nat.leb_gt in H. apply Nat.leb_le. lia.
      * intros x y z H1 H2. apply Nat.leb_le in H1. apply Nat.leb_le in H2.
        apply Nat.leb_le. lia.
  - apply Forall_forall. intros g Hg. apply filter_In in Hg.
    destruct Hg as [Hg _]. apply in_map_iff in Hg.
    destruct Hg as [g0 [<- _]]. unfold sorted_group. cbn [snd].
    apply (@sorted_by_StronglySorted _ name_before); unfold name_before.
    + intros x y. apply str_leb_total.
    + intros x y z. apply str_leb_trans.
Qed.

Lemma written_proposal_order_witness :
  StronglySorted (fun g h => length (snd h) <= length (snd g))
    (parse_consolidation_proposal
       (generate_consolidation_proposal cheese_groups))
  /\ Forall (fun g =>
               StronglySorted
                 (fun c d => str_leb (name c) (name d) = true) (snd g))
       (parse_consolidation_proposal
          (generate_consolidation_proposal cheese_groups)).
Proof.
  apply (@written_proposal_order cheese_groups).
  split.
  - repeat constructor; simpl; intuition discriminate.
  - repeat constructor; try discriminate.
Defined.

(** ** HierarchyBuilder: further properties *)

Lemma add_children_edges (parent_name : str) (children : list child)
    (st : build_state) :
  snd (fold_left (add_child_edge parent_name) children st)
  = snd st ++ group_edges (parent_name, children).
Proof.
  unfold group_edges. cbn [fst snd]. revert st.
  induction children as [|c children IH]; intros st; cbn [fold_left filter map].
  - rewrite app_nil_r. reflexivity.
  - rewrite IH. unfold add_child_edge.
    destruct (str_eqb (name c) parent_name); cbn [negb snd map].
    + reflexivity.
    + rewrite <- app_assoc. reflexivity.
Qed.

Lemma add_parent_group_edges (st st' : build_state) (g : str * list child) :
  add_parent_group (Some st) g = Some st' ->
  snd st' = snd st ++ group_edges g.
Proof.
  unfold add_parent_group.
  destruct (determine_parent_food_group (snd g)); [|discriminate].
  intros H. inversion H. rewrite add_children_edges. cbn [snd].
  destruct g; reflexivity.
Qed.

Lemma add_parent_group_None (groups : dict (list child)) :
  fold_left add_parent_group groups None = None.
Proof. induction groups as [|g groups IH]; [reflexivity | exact IH]. Qed.

Lemma add_parent_groups_edges (groups : dict (list child))
    (st st' : build_state) :
  fold_left add_parent_group groups (Some st) = Some st' ->
  snd st' = snd st ++ non_self_edges groups.
Proof.
  revert st. induction groups as [|g groups IH]; intros st; cbn [fold_left].
  - intros H. inversion H. unfold non_self_edges. cbn.
    rewrite app_nil_r. reflexivity.
  - destruct (add_parent_group (Some st) g) as [st1|] eqn:E.
    + intros H. rewrite (IH _ H), (add_parent_group_edges _ _ E).
      unfold non_self_edges. cbn [flat_map]. rewrite app_assoc. reflexivity.
    + rewrite add_parent_group_None. discriminate.
Qed.

(** X19. The relationships that the builder emits are the children of the
    groups under their parents, group after group and child after child,
    without the children that have the name of their own parent: no
    relationship joins a name to itself. *)
Theorem relationships_exact (consolidations : dict (list child))
    (original_df : list row) (h : hierarchy) :
  generate_hierarchy_files consolidations original_df = Some h ->
  parent_child_relationships h = non_self_edges consolidations
  /\ Forall (fun rel => str_eqb (fst rel) (snd rel) = false)
            (parent_child_relationships h).
Proof.
  unfold generate_hierarchy_files.
  destruct (fold_left add_parent_group consolidations (Some ([], [])))
    as [[all rels]|] eqn:E; [|discriminate].
  intros H. inversion H; subst h. cbn [parent_child_relationships].
  apply add_parent_groups_edges in E. cbn [snd app] in E. subst rels.
  split; [reflexivity|].
  apply Forall_forall. intros rel Hrel. unfold non_self_edges in Hrel.
  apply in_flat_map in Hrel. destruct Hrel as [g [_ Hrel]].
  unfold group_edges in Hrel. apply in_map_iff in Hrel.
  destruct Hrel as [c [<- Hc]]. apply filter_In in Hc.
  destruct Hc as [_ Hc]. cbn [fst snd]. apply negb_true_iff in Hc.
  rewrite str_eqb_sym. exact Hc.
Qed.

Lemma relationships_exact_witness :
  parent_child_relationships
    (mk_hierarchy [ mk_ingredient $"A" $"x" 2; mk_ingredient $"B" $"x" 2 ]
                  cycle_relationships)
  = non_self_edges cycle_groups
  /\ Forall (fun rel => str_eqb (fst rel) (snd rel) = false)
            (parent_child_relationships
               (mk_hierarchy
                  [ mk_ingredient $"A" $"x" 2; mk_ingredient $"B" $"x" 2 ]
                  cycle_relationships)).
Proof.
  apply (@relationships_exact cycle_groups []). vm_compute. reflexivity.
Defined.

(** X20. The builder raises exactly when a group has no child, which the
    parser never returns. *)
Theorem generate_hierarchy_files_fails (consolidations : dict (list child))
    (original_df : list row) :
  generate_hierarchy_files consolidations original_df = None
  <-> has_empty_group consolidations = true.
Proof.
  unfold generate_hierarchy_files, has_empty_group.
  assert (H : forall st : build_state, names_ok (fst st) ->
            (fold_left add_parent_group consolidations (Some st) = None
             <-> existsb (fun g => negb (nonempty_group g)) consolidations
                 = true)).
  { induction consolidations as [|g groups IH]; intros st Hok;
      cbn [fold_left existsb].
    - split; discriminate.
    - destruct (snd g) as [|c cs] eqn:Eg.
      + unfold add_parent_group, nonempty_group. rewrite Eg. cbn.
        rewrite add_parent_group_None. split; reflexivity.
      + assert (Hne : snd g <> []) by (rewrite Eg; discriminate).
        destruct (@add_parent_group_spec st g Hok Hne)
          as [st1 [E [Hok1 _]]].
        rewrite E, (IH st1 Hok1). unfold nonempty_group. rewrite Eg.
        reflexivity. }
  specialize (H ([], []) (Forall_nil _)).
  destruct (fold_left add_parent_group consolidations (Some ([], [])))
    as [[all rels]|] eqn:E0.
  - split; [discriminate|]. intros E. apply (proj2 H) in E.
    assert (Hc : Some (all, rels) = None) by exact (eq_trans (eq_sym E0) E).
    discriminate Hc.
  - split; [intros _; apply (proj1 H); exact E0 | reflexivity].
Qed.

(** *** Depth *)

Lemma calculate_depth_fuel_enough (c2p : dict (list str)) (n : str)
    (visited : list str) :
  exists d, calculate_depth_fuel (depth_fuel c2p) c2p n visited = Some d.
Proof.
  unfold depth_fuel. fold (all_parents c2p).
  set (f := S (length (all_parents c2p))).
  assert (Hf : forall v, unvisited c2p v < f).
  { intros v. pose proof (unvisited_bound c2p v). unfold f. lia. }
  clearbody f. cbn [calculate_depth_fuel].
  destruct (str_mem n visited); [eexists; reflexivity|].
  pose proof (dict_get_parents c2p n) as Hps.
  destruct (dict_get_default c2p n []) as [|p ps]; [eexists; reflexivity|].
  destruct (@max_depth_fold_some
              (fun parent => calculate_depth_fuel f c2p parent
                               (set_add n visited)) (p :: ps))
    with (m := 0) as [m' E].
  - intros q Hq. apply calculate_depth_fuel_parent;
      [apply Hps; assumption | apply Hf].
  - rewrite E. eexists; reflexivity.
Qed.

Lemma calculate_depth_fuel_root (fuel : nat) (c2p : dict (list str))
    (n : str) (visited : list str) :
  dict_get_default c2p n [] = [] ->
  calculate_depth_fuel (S fuel) c2p n visited = Some 0.
Proof.
  intros H. cbn [calculate_depth_fuel]. rewrite H.
  destruct (str_mem n visited); reflexivity.
Qed.

Lemma calculate_depth_fuel_inv (fuel : nat) (c2p : dict (list str))
    (n : str) (visited : list str) (d : nat) :
  calculate_depth_fuel (S fuel) c2p n visited = Some d ->
  str_mem n visited = false -> dict_get_default c2p n [] <> [] ->
  exists m,
    fold_left
      (max_depth_step
         (fun parent => calculate_depth_fuel fuel c2p parent
                          (set_add n visited)))
      (dict_get_default c2p n []) (Some 0) = Some m
    /\ d = m + 1.
Proof.
  cbn [calculate_depth_fuel]. intros H Hv Hp. rewrite Hv in H.
  destruct (dict_get_default c2p n []) as [|p ps]; [contradiction|].
  destruct (fold_left _ (p :: ps) (Some 0)) as [m|]; [|discriminate].
  exists m. inversion H. auto.
Qed.

(** X21. A node has the depth 0 exactly when it has no parent, in a graph
    with cycles too. *)
Theorem depth_zero_iff_no_parent (child_to_parents : dict (list str))
    (ingredient_name : str) :
  calculate_depth child_to_parents ingredient_name = 0
  <-> dict_get_default child_to_parents ingredient_name [] = [].
Proof.
  unfold calculate_depth.
  destruct (calculate_depth_fuel_enough child_to_parents ingredient_name [])
    as [d E].
  rewrite E. unfold depth_fuel in E. split.
  - intros ->.
    destruct (dict_get_default child_to_parents ingredient_name [])
      as [|p ps] eqn:Ep; [reflexivity|].
    destruct (@calculate_depth_fuel_inv _ _ _ _ _ E) as [m [_ Hm]];
      [reflexivity | rewrite Ep; discriminate | lia].
  - intros Hp. rewrite (@calculate_depth_fuel_root _ _ _ _ Hp) in E.
    inversion E. reflexivity.
Qed.

(** X22. A node whose parents have no parent of their own has the depth 1:
    the children of top-level parents are one level down. *)
Theorem child_of_roots_depth_one (rels : list relationship) (n : str) :
  parents_of rels n <> [] ->
  (forall p, In p (parents_of rels n) -> parents_of rels p = []) ->
  calculate_depth (child_to_parents_of rels) n = 1.
Proof.
  intros Hp Hroots. unfold calculate_depth, depth_fuel.
  set (k := length (concat (map snd (child_to_parents_of rels)))).
  assert (E : calculate_depth_fuel (S (S k)) (child_to_parents_of rels) n []
              = Some (0 + 1)).
  { apply calculate_depth_fuel_parents.
    - reflexivity.
    - rewrite child_to_parents_get. exact Hp.
    - rewrite child_to_parents_get. rewrite (@max_depth_fold_const _ 0).
      + destruct (parents_of rels n); [contradiction | reflexivity].
      + intros p Hin. apply calculate_depth_fuel_root.
        rewrite child_to_parents_get. apply Hroots. exact Hin. }
  rewrite E. reflexivity.
Qed.

Lemma child_of_roots_depth_one_witness :
  calculate_depth (child_to_parents_of dairy_relationships) $"BRIE" = 1.
Proof.
  apply (@child_of_roots_depth_one dairy_relationships $"BRIE").
  - vm_compute. discriminate.
  - intros p Hp. vm_compute in Hp. destruct Hp as [<-|[]].
    vm_compute. reflexivity.
Defined.

Lemma max_depth_fold_bound (depth_of : str -> option nat) (B : nat)
    (parents : list str) (a m : nat) :
  (forall p d, In p parents -> depth_of p = Some d -> d <= B) ->
  fold_left (max_depth_step depth_of) parents (Some a) = Some m ->
  m <= Nat.max a B.
Proof.
  revert a. induction parents as [|p parents IH]; intros a H; cbn [fold_left].
  - intros E. inversion E. lia.
  - unfold max_depth_step at 2. destruct (depth_of p) as [d|] eqn:Ed.
    + intros E. apply IH in E; [|intros q d' Hq; apply H; right; exact Hq].
      pose proof (H p d (or_introl eq_refl) Ed). lia.
    + intros E. exfalso. clear -E.
      induction parents as [|q parents IHp]; cbn in E; [discriminate|auto].
Qed.

Lemma calculate_depth_fuel_bound (c2p : dict (list str)) (fuel : nat)
    (n : str) (visited : list str) (d : nat) :
  calculate_depth_fuel fuel c2p n visited = Some d ->
  d <= S (unvisited c2p visited)
  /\ (In n (all_parents c2p) -> d <= unvisited c2p visited).
Proof.
  revert n visited d. induction fuel as [|fuel IH]; intros n visited d;
    [discriminate|].
  destruct (str_mem n visited) eqn:Ev.
  - rewrite (@calculate_depth_fuel_visited _ _ _ _ Ev). intros E.
    inversion E. split; [lia | intros _; lia].
  - destruct (dict_get_default c2p n []) as [|p ps] eqn:Ep.
    + rewrite (@calculate_depth_fuel_root _ _ _ _ Ep). intros E.
      inversion E. split; [lia | intros _; lia].
    + intros E.
      destruct (@calculate_depth_fuel_inv _ _ _ _ _ E Ev) as [m [Hfold ->]];
        [rewrite Ep; discriminate|].
      pose proof (dict_get_parents c2p n) as Hps.
      apply max_depth_fold_bound
        with (B := unvisited c2p (set_add n visited)) in Hfold.
      * pose proof (unvisited_le c2p n visited) as Hle. split; [lia|].
        intros Hn. pose proof (unvisited_lt c2p n visited Hn Ev). lia.
      * intros q dq Hq Hdq. apply (IH _ _ _ Hdq). apply Hps. exact Hq.
Qed.

(** X23. The depth of a node is at most one more than the number of
    distinct parents of the graph, whatever cycles the graph has. *)
Theorem depth_bounded (child_to_parents : dict (list str))
    (ingredient_name : str) :
  calculate_depth child_to_parents ingredient_name
  <= S (length (nodup str_dec (all_parents child_to_parents))).
Proof.
  unfold calculate_depth.
  destruct (calculate_depth_fuel _ _ _ _) as [d|] eqn:E; [|lia].
  apply calculate_depth_fuel_bound in E. destruct E as [E _].
  eapply Nat.le_trans; [exact E|]. apply le_n_S. unfold unvisited.
  apply List.filter_length_le.
Qed.

(** *** Nodes *)

Lemma register_keys (all_ingredients : dict ingredient) (k : str)
    (v : ingredient) (n : str) :
  In n (map fst (if dict_mem all_ingredients k then all_ingredients
                 else dict_set k v all_ingredients))
  <-> In n (map fst all_ingredients) \/ n = k.
Proof.
  destruct (dict_mem all_ingredients k) eqn:E.
  - apply dict_mem_keys in E. split; [auto | intros [H | ->]; assumption].
  - rewrite dict_set_fresh by (apply dict_mem_false; exact E).
    rewrite map_app, in_app_iff. simpl. intuition auto.
Qed.

Lemma register_NoDup (all_ingredients : dict ingredient) (k : str)
    (v : ingredient) :
  NoDup (map fst all_ingredients) ->
  NoDup (map fst (if dict_mem all_ingredients k then all_ingredients
                  else dict_set k v all_ingredients)).
Proof.
  intros H. destruct (dict_mem all_ingredients k); [exact H|].
  unfold dict_set. apply dict_upd_keys_NoDup. exact H.
Qed.

Lemma add_children_keys (parent_name : str) (children : list child)
    (st : build_state) (n : str) :
  (NoDup (map fst (fst st)) ->
   NoDup (map fst (fst (fold_left (add_child_edge parent_name) children st))))
  /\ (In n (map fst (fst (fold_left (add_child_edge parent_name)
                                    children st)))
      <-> In n (map fst (fst st))
          \/ exists c, In c children /\ name c = n /\ n <> parent_name).
Proof.
  revert st. induction children as [|c children IH]; intros st;
    cbn [fold_left].
  - split; [auto|]. split; [auto | intros [H|[c [[] _]]]; exact H].
  - destruct (IH (add_child_edge parent_name st c)) as [IH1 IH2].
    assert (Hstep : In n (map fst (fst (add_child_edge parent_name st c)))
                    <-> In n (map fst (fst st))
                        \/ (name c = n /\ n <> parent_name)).
    { unfold add_child_edge. str_cases (name c) parent_name.
      - split; [auto | intros [H|[H1 H2]]; [exact H | congruence]].
      - cbn [fst]. rewrite register_keys. split.
        + intros [H | ->]; auto.
        + intros [H|[H1 H2]]; auto. }
    split.
    + intros Hnd. apply IH1. unfold add_child_edge.
      destruct (str_eqb (name c) parent_name); [exact Hnd|].
      cbn [fst]. apply register_NoDup. exact Hnd.
    + rewrite IH2, Hstep. split.
      * intros [[H|[H1 H2]]|[c' [H1 H2]]]; auto.
        -- right. exists c. simpl. auto.
        -- right. exists c'. simpl. tauto.
      * intros [H|[c' [[<-|H1] H2]]]; auto. right. exists c'. auto.
Qed.

Lemma add_parent_group_keys (st st' : build_state) (g : str * list child)
    (n : str) :
  add_parent_group (Some st) g = Some st' ->
  (NoDup (map fst (fst st)) -> NoDup (map fst (fst st')))
  /\ (In n (map fst (fst st'))
      <-> In n (map fst (fst st)) \/ n = fst g
          \/ exists c, In c (snd g) /\ name c = n).
Proof.
  unfold add_parent_group.
  destruct (determine_parent_food_group (snd g)) as [pfg|]; [|discriminate].
  intros H. inversion H; subst st'. clear H.
  set (all' := if dict_mem (fst st) (fst g) then fst st
               else dict_set (fst g) (mk_ingredient (fst g) pfg 0) (fst st)).
  destruct (@add_children_keys (fst g) (snd g) (all', snd st) n) as [H1 H2].
  cbn [fst] in H1, H2. split.
  - intros Hnd. apply H1. apply register_NoDup. exact Hnd.
  - rewrite H2. unfold all'. rewrite register_keys. split.
    + intros [[H|H]|[c [Hc [Hn _]]]]; auto. right. right. exists c. auto.
    + intros [H|[H|[c [Hc Hn]]]]; auto.
      destruct (str_dec n (fst g)) as [E|E]; [auto|].
      right. exists c. auto.
Qed.

Lemma add_parent_groups_keys (groups : dict (list child))
    (st st' : build_state) (n : str) :
  fold_left add_parent_group groups (Some st) = Some st' ->
  (NoDup (map fst (fst st)) -> NoDup (map fst (fst st')))
  /\ (In n (map fst (fst st'))
      <-> In n (map fst (fst st)) \/ grouped_name groups n).
Proof.
  unfold grouped_name. revert st.
  induction groups as [|g groups IH]; intros st; cbn [fold_left].
  - intros H. inversion H. split; [auto|]. simpl. split; [auto|].
    intros [Hk|[[]|[g [c [[] _]]]]]. exact Hk.
  - destruct (add_parent_group (Some st) g) as [st1|] eqn:E;
      [|rewrite add_parent_group_None; discriminate].
    intros H. destruct (IH _ H) as [IH1 IH2].
    destruct (@add_parent_group_keys st st1 g n E) as [H1 H2].
    split; [auto|]. rewrite IH2, H2. cbn [map In]. split.
    + intros [[H3|[H3|[c [H3 H4]]]]|[H3|[g' [c [H3 H4]]]]]; auto.
      * right. right. exists g, c. auto.
      * right. right. exists g', c. tauto.
    + intros [H3|[[H3|H3]|[g' [c [[<-|H3] H4]]]]]; auto.
      * left. right. right. exists c. tauto.
      * right. right. exists g', c. auto.
Qed.

Lemma add_standalone_keys (df : list row) (all_ingredients : dict ingredient)
    (n : str) :
  (NoDup (map fst all_ingredients) ->
   NoDup (map fst (fold_left add_standalone df all_ingredients)))
  /\ (In n (map fst (fold_left add_standalone df all_ingredients))
      <-> In n (map fst all_ingredients) \/ In n (map pd_name df)).
Proof.
  revert all_ingredients. induction df as [|r df IH]; intros d;
    cbn [fold_left map].
  - split; [auto|]. simpl. tauto.
  - destruct (IH (add_standalone d r)) as [IH1 IH2]. split.
    + intros H. apply IH1. unfold add_standalone. apply register_NoDup.
      exact H.
    + rewrite IH2. unfold add_standalone. rewrite register_keys.
      simpl. intuition auto.
Qed.

Lemma add_parent_group_names_ok (st st' : build_state)
    (g : str * list child) :
  add_parent_group (Some st) g = Some st' ->
  names_ok (fst st) -> names_ok (fst st').
Proof.
  unfold add_parent_group.
  destruct (determine_parent_food_group (snd g)) as [pfg|]; [|discriminate].
  intros H Hok. inversion H; subst st'. clear H.
  destruct (@register_spec (fst st) (fst g) pfg 0 Hok) as [H1 _].
  cbn zeta in H1.
  destruct (@add_children_spec (fst g) (snd g) (_, snd st) H1) as [H2 _].
  exact H2.
Qed.

Lemma add_parent_groups_names_ok (groups : dict (list child))
    (st st' : build_state) :
  fold_left add_parent_group groups (Some st) = Some st' ->
  names_ok (fst st) -> names_ok (fst st').
Proof.
  revert st. induction groups as [|g groups IH]; intros st; cbn [fold_left].
  - intros H. inversion H. auto.
  - destruct (add_parent_group (Some st) g) as [st1|] eqn:E;
      [|rewrite add_parent_group_None; discriminate].
    intros H Hok. apply (IH _ H).
    apply (add_parent_group_names_ok _ _ E Hok).
Qed.

Lemma generate_hierarchy_files_inv (consolidations : dict (list child))
    (original_df : list row) (h : hierarchy) :
  generate_hierarchy_files consolidations original_df = Some h ->
  exists all rels,
    fold_left add_parent_group consolidations (Some ([], []))
    = Some (all, rels)
    /\ names_ok all /\ NoDup (map fst all)
    /\ rels = non_self_edges consolidations
    /\ (forall n, In n (map fst all) <-> grouped_name consolidations n)
    /\ h = mk_hierarchy
             (map (fun kv =>
                     mk_ingredient (i_name (snd kv)) (i_food_group (snd kv))
                       (calculate_depth (child_to_parents_of rels) (fst kv)))
                  (fold_left add_standalone original_df all))
             rels.
Proof.
  unfold generate_hierarchy_files. intros H.
  destruct (fold_left add_parent_group consolidations (Some ([], [])))
    as [[all rels]|] eqn:E; [|discriminate].
  exists all, rels. split; [reflexivity|].
  split; [apply (add_parent_groups_names_ok _ _ E); constructor|].
  split; [apply (add_parent_groups_keys _ _ [] E); constructor|].
  split; [apply (add_parent_groups_edges _ _ E)|].
  split; [|inversion H; reflexivity].
  intros n. rewrite (proj2 (add_parent_groups_keys _ _ n E)). simpl. tauto.
Qed.

(** X24. The ingredients that the builder emits have pairwise different
    names, and they are the names of the group mapping, parents and
    children, and the names of the rows. *)
Theorem hierarchy_nodes (consolidations : dict (list child))
    (original_df : list row) (h : hierarchy) (n : str) :
  generate_hierarchy_files consolidations original_df = Some h ->
  NoDup (map i_name (ingredients h))
  /\ (In n (map i_name (ingredients h))
      <-> grouped_name consolidations n \/ In n (map pd_name original_df)).
Proof.
  intros H. apply generate_hierarchy_files_inv in H.
  destruct H as [all [rels [_ [Hok [Hnd [_ [Hkeys ->]]]]]]].
  cbn [ingredients]. rewrite map_map. cbn [i_name].
  destruct (@add_standalone_spec original_df all Hok) as [Hok' _].
  rewrite (@names_ok_names _ Hok').
  destruct (add_standalone_keys original_df all n) as [H1 H2].
  split; [apply H1; exact Hnd|]. rewrite H2, Hkeys. reflexivity.
Qed.

Lemma hierarchy_nodes_witness :
  NoDup (map i_name
           [ mk_ingredient $"A" $"x" 2; mk_ingredient $"B" $"x" 2 ])
  /\ (In $"A" (map i_name
                 [ mk_ingredient $"A" $"x" 2; mk_ingredient $"B" $"x" 2 ])
      <-> grouped_name cycle_groups $"A" \/ In $"A" (map pd_name [])).
Proof.
  apply (@hierarchy_nodes cycle_groups []
           (mk_hierarchy
              [ mk_ingredient $"A" $"x" 2; mk_ingredient $"B" $"x" 2 ]
              cycle_relationships) $"A").
  vm_compute. reflexivity.
Defined.

Lemma add_standalone_get_kept (df : list row) (d : dict ingredient)
    (n : str) (v : ingredient) :
  dict_get d n = Some v ->
  dict_get (fold_left add_standalone df d) n = Some v.
Proof.
  revert d. induction df as [|r df IH]; intros d H; cbn [fold_left];
    [exact H|].
  apply IH. unfold add_standalone.
  destruct (dict_mem d (pd_name r)) eqn:E; [exact H|].
  unfold dict_set. rewrite dict_get_upd.
  str_cases n (pd_name r); [|exact H].
  subst n. apply dict_mem_false in E.
  apply dict_get_None in E. congruence.
Qed.

Lemma add_standalone_get_new (df : list row) (d : dict ingredient)
    (n : str) :
  ~ In n (map fst d) -> In n (map pd_name df) ->
  dict_get (fold_left add_standalone df d) n
  = Some (mk_ingredient n (lookup_food_group df n) 0).
Proof.
  revert d. induction df as [|r df IH]; intros d Hfresh Hin;
    [destruct Hin|].
  cbn [fold_left]. unfold lookup_food_group. cbn [find].
  str_cases (pd_name r) n.
  - apply add_standalone_get_kept. unfold add_standalone.
    assert (Em : dict_mem d (pd_name r) = false).
    { destruct (dict_mem d (pd_name r)) eqn:Em; [|reflexivity].
      apply dict_mem_keys in Em. subst n. contradiction. }
    rewrite Em. unfold dict_set. rewrite dict_get_upd.
    subst n. rewrite str_eqb_refl. reflexivity.
  - apply IH.
    + unfold add_standalone. rewrite register_keys.
      intros [H|H]; [contradiction | congruence].
    + destruct Hin as [H|H]; [congruence | exact H].
Qed.

Lemma parents_of_not_child (consolidations : dict (list child)) (n : str) :
  ~ grouped_name consolidations n ->
  parents_of (non_self_edges consolidations) n = [].
Proof.
  intros Hn. unfold parents_of.
  destruct (filter _ _) as [|rel l] eqn:E; [reflexivity|].
  exfalso. assert (Hin : In rel (rel :: l)) by (left; reflexivity).
  rewrite <- E in Hin. apply filter_In in Hin. destruct Hin as [Hin Hc].
  apply str_eqb_eq in Hc. unfold non_self_edges in Hin.
  apply in_flat_map in Hin. destruct Hin as [g [Hg Hrel]].
  unfold group_edges in Hrel. apply in_map_iff in Hrel.
  destruct Hrel as [c [<- Hc']]. apply filter_In in Hc'.
  apply Hn. right. exists g, c. cbn [snd] in Hc. tauto.
Qed.

Lemma calculate_depth_root (c2p : dict (list str)) (n : str) :
  dict_get_default c2p n [] = [] -> calculate_depth c2p n = 0.
Proof.
  intros H. unfold calculate_depth, depth_fuel.
  rewrite (@calculate_depth_fuel_root _ _ _ _ H). reflexivity.
Qed.

(** X25. A row whose name occurs in no group, as a parent or as a child,
    is emitted as a top-level ingredient: with the food group of the first
    row of that name and with the depth 0. *)
Theorem standalone_ingredient (consolidations : dict (list child))
    (original_df : list row) (h : hierarchy) (n : str) :
  generate_hierarchy_files consolidations original_df = Some h ->
  In n (map pd_name original_df) ->
  ~ grouped_name consolidations n ->
  In (mk_ingredient n (lookup_food_group original_df n) 0) (ingredients h).
Proof.
  intros H Hrow Hfree. apply generate_hierarchy_files_inv in H.
  destruct H as [all [rels [_ [_ [_ [Hrels [Hkeys ->]]]]]]].
  cbn [ingredients].
  assert (Hget : dict_get (fold_left add_standalone original_df all) n
                 = Some (mk_ingredient n (lookup_food_group original_df n) 0)).
  { apply add_standalone_get_new; [|exact Hrow].
    rewrite Hkeys. exact Hfree. }
  apply dict_get_In in Hget. apply in_map_iff.
  exists (n, mk_ingredient n (lookup_food_group original_df n) 0).
  split; [|exact Hget]. cbn [fst snd i_name i_food_group]. f_equal.
  apply calculate_depth_root.
  rewrite child_to_parents_get, Hrels. apply parents_of_not_child. exact Hfree.
Qed.

Lemma standalone_ingredient_witness :
  In (mk_ingredient $"ORANGE JUICE"
                    (lookup_food_group cheese_df $"ORANGE JUICE") 0)
     (ingredients
        (mk_hierarchy
           [ mk_ingredient $"A" $"x" 2; mk_ingredient $"B" $"x" 2;
             mk_ingredient $"CHEDDAR CHEESE" $"Dairy" 0;
             mk_ingredient $"SWISS CHEESE" $"Dairy" 0;
             mk_ingredient $"COTTAGE CHEESE" $"Dairy" 0;
             mk_ingredient $"ORANGE JUICE" $"Fruit" 0 ]
           cycle_relationships)).
Proof.
  apply (@standalone_ingredient cycle_groups cheese_df _ $"ORANGE JUICE").
  - vm_compute. reflexivity.
  - vm_compute. auto.
  - intros [H|[g [c [Hg [Hc Hn]]]]].
    + vm_compute in H. destruct H as [H|[H|[]]]; discriminate H.
    + destruct Hg as [<-|[<-|[]]]; destruct Hc as [<-|[]];
        vm_compute in Hn; discriminate Hn.
Defined.

(** *** The food group of a parent *)

Lemma first_max_spec (best : str * nat) (l : list (str * nat)) :
  exists l1 l2,
    best :: l = l1 ++ first_max best l :: l2
    /\ (forall e, In e l1 -> snd e < snd (first_max best l))
    /\ (forall e, In e l2 -> snd e <= snd (first_max best l)).
Proof.
  revert best. induction l as [|kv l IH]; intros best; cbn [first_max].
  - exists [], []. split; [reflexivity|]. split; intros e [].
  - destruct (snd best <? snd kv) eqn:E.
    + apply Nat.ltb_lt in E. destruct (IH kv) as [l1 [l2 [H1 [H2 H3]]]].
      set (r := first_max kv l) in *.
      exists (best :: l1), l2. split; [cbn [app]; f_equal; exact H1|].
      split; [|exact H3]. intros e [<-|He]; [|apply H2; exact He].
      assert (Hkv : snd kv <= snd r).
      { destruct l1 as [|x l1]; cbn [app] in H1; inversion H1.
        - lia.
        - apply Nat.lt_le_incl, H2. left. reflexivity. }
      lia.
    + apply Nat.ltb_ge in E. destruct (IH best) as [l1 [l2 [H1 [H2 H3]]]].
      set (r := first_max best l) in *.
      destruct l1 as [|x l1]; cbn [app] in H1; inversion H1 as [[Hb Hl]].
      * exists [], (kv :: l2). split; [reflexivity|].
        split; [intros e []|].
        intros e [<-|He]; [rewrite <- Hb; exact E | apply H3; exact He].
      * exists (x :: kv :: l1), l2. split; [reflexivity|].
        split; [|exact H3].
        assert (Hbest : snd best < snd r).
        { apply H2. left. symmetry. exact Hb. }
        intros e [<-|[<-|He]]; [rewrite <- Hb; exact Hbest | lia |].
        apply H2. right. exact He.
Qed.

Lemma counter_fold_keys (l : list str) (c : dict nat) :
  map fst (fold_left (fun c g => counter_incr g c) l c)
  = fold_left (fun acc x => set_add x acc) l (map fst c).
Proof.
  revert c. induction l as [|x l IH]; intros c; cbn [fold_left];
    [reflexivity|].
  rewrite IH. f_equal. unfold counter_incr, set_add.
  rewrite dict_upd_keys, dict_mem_existsb. reflexivity.
Qed.

Lemma counter_fold_keys_NoDup (l : list str) (c : dict nat) :
  NoDup (map fst c) ->
  NoDup (map fst (fold_left (fun c g => counter_incr g c) l c)).
Proof.
  revert c. induction l as [|x l IH]; intros c H; cbn [fold_left];
    [exact H|].
  apply IH. unfold counter_incr. apply dict_upd_keys_NoDup. exact H.
Qed.

Lemma set_add_fold_prefix (l acc : list str) :
  exists ext, fold_left (fun acc x => set_add x acc) l acc = acc ++ ext.
Proof.
  revert acc. induction l as [|x l IH]; intros acc; cbn [fold_left].
  - exists []. rewrite app_nil_r. reflexivity.
  - destruct (IH (set_add x acc)) as [ext E]. rewrite E. unfold set_add.
    destruct (str_mem x acc); [exists ext; reflexivity|].
    exists (x :: ext). rewrite <- app_assoc. reflexivity.
Qed.

Lemma set_add_fold_In (l acc : list str) (x : str) :
  In x (fold_left (fun acc x => set_add x acc) l acc) <-> In x acc \/ In x l.
Proof.
  revert acc. induction l as [|y l IH]; intros acc; cbn [fold_left].
  - simpl. tauto.
  - rewrite IH, set_add_In. simpl. intuition auto.
Qed.

Lemma first_occurrence (x : str) (l : list str) :
  In x l -> exists l1 l2, l = l1 ++ x :: l2 /\ ~ In x l1.
Proof.
  induction l as [|y l IH]; [intros []|].
  intros H. destruct (str_dec y x) as [->|Hne].
  - exists [], l. split; [reflexivity | intros []].
  - destruct H as [H|H]; [contradiction|].
    destruct (IH H) as [l1 [l2 [-> Hn]]].
    exists (y :: l1), l2. split; [reflexivity|].
    intros [E|E]; [contradiction | auto].
Qed.

Lemma NoDup_split_unique (a a' b b' : list str) (x : str) :
  NoDup (a ++ x :: b) -> a ++ x :: b = a' ++ x :: b' -> a = a'.
Proof.
  revert a'. induction a as [|y a IH]; intros [|y' a'] Hnd E;
    cbn [app] in *.
  - reflexivity.
  - injection E as Ey Eb. apply NoDup_cons_iff in Hnd. destruct Hnd as [Hn _].
    exfalso. apply Hn. rewrite Eb. apply in_or_app. right. left. reflexivity.
  - injection E as Ey Eb. apply NoDup_cons_iff in Hnd. destruct Hnd as [Hn _].
    exfalso. apply Hn. rewrite Ey. apply in_or_app. right. left. reflexivity.
  - injection E as Ey Et. apply NoDup_cons_iff in Hnd.
    destruct Hnd as [_ Hnd]. f_equal; [exact Ey | apply IH; assumption].
Qed.

Lemma food_group_counts (fgs : list str) (k : str) (v : nat) :
  In (k, v) (fold_left (fun c g => counter_incr g c) fgs []) ->
  v = occurrences k fgs.
Proof.
  intros H. apply dict_In_get in H;
    [|apply counter_fold_keys_NoDup; constructor].
  pose proof (counter_get_fold_incr fgs [] k) as Hc.
  unfold counter_get, dict_get_default in Hc. rewrite H in Hc. simpl in Hc.
  exact Hc.
Qed.

(** X26. The food group of a parent is [None] for no children only;
    otherwise it is the food group of one of the children, no other food
    group occurs more often among them, and every food group that is seen
    before it occurs less often. *)
Theorem determine_parent_food_group_spec (children : list child) :
  match determine_parent_food_group children with
  | None => children = []
  | Some g =>
      (forall g', occurrences g' (map food_group children)
                  <= occurrences g (map food_group children))
      /\ exists seen_before rest,
           map food_group children = seen_before ++ g :: rest
           /\ Forall (fun g' => g' <> g
                                /\ occurrences g' (map food_group children)
                                   < occurrences g (map food_group children))
                     seen_before
  end.
Proof.
  unfold determine_parent_food_group.
  set (fgs := map food_group children).
  set (counter := fold_left (fun c g => counter_incr g c) fgs []).
  pose proof (counter_fold_keys fgs []) as Hkeys. fold counter in Hkeys.
  pose proof (@counter_fold_keys_NoDup fgs [] (NoDup_nil _)) as Hnd.
  fold counter in Hnd. cbn [map] in Hkeys.
  destruct counter as [|kv rest] eqn:Ec.
  - destruct children as [|c children]; [reflexivity|]. exfalso.
    assert (Hin : In (food_group c)
                     (fold_left (fun acc x => set_add x acc) fgs []))
      by (apply set_add_fold_In; right; left; reflexivity).
    rewrite <- Hkeys in Hin. destruct Hin.
  - destruct (first_max_spec kv rest) as [c1 [c2 [Hsplit [Hlt Hle]]]].
    set (r := first_max kv rest) in *.
    assert (Hcount : forall e, In e (kv :: rest) ->
                               snd e = occurrences (fst e) fgs).
    { intros [k v] He. apply food_group_counts. fold counter.
      rewrite Ec. exact He. }
    assert (Hr : In r (kv :: rest))
      by (rewrite Hsplit; apply in_or_app; right; left; reflexivity).
    assert (Hmax : forall e, In e (kv :: rest) -> snd e <= snd r).
    { intros e He. rewrite Hsplit in He. apply in_app_or in He.
      destruct He as [He|[<-|He]]; [apply Nat.lt_le_incl, Hlt, He | lia |].
      apply Hle, He. }
    rewrite <- (Hcount r Hr). split.
    + intros g'. destruct (in_dec str_dec g' (map fst (kv :: rest)))
        as [Hin|Hout].
      * apply in_map_iff in Hin. destruct Hin as [e [<- He]].
        rewrite <- (Hcount e He). apply Hmax, He.
      * rewrite Hkeys in Hout.
        destruct (Nat.eq_dec (occurrences g' fgs) 0) as [E|E]; [lia|].
        exfalso. apply Hout. apply set_add_fold_In. right.
        apply occurrences_pos_In. lia.
    + assert (Hg : In (fst r) fgs).
      { assert (H : In (fst r) (map fst (kv :: rest)))
          by (apply in_map; exact Hr).
        rewrite Hkeys in H. apply set_add_fold_In in H.
        destruct H as [[]|H]. exact H. }
      destruct (first_occurrence _ _ Hg) as [l1 [l2 [Hfgs Hfirst]]].
      exists l1, l2. split; [exact Hfgs|].
      assert (Hseen : map fst c1
                      = fold_left (fun acc x => set_add x acc) l1 []).
      { assert (Hfresh : str_mem (fst r)
                           (fold_left (fun acc x => set_add x acc) l1 [])
                         = false).
        { apply str_mem_not_In. intros H. apply set_add_fold_In in H.
          destruct H as [[]|H]. contradiction. }
        destruct (set_add_fold_prefix l2
                    (fold_left (fun acc x => set_add x acc) l1 []
                     ++ [fst r])) as [ext Hext].
        assert (E : map fst (kv :: rest)
                    = fold_left (fun acc x => set_add x acc) l1 []
                      ++ fst r :: ext).
        { rewrite Hkeys, Hfgs, fold_left_app. cbn [fold_left].
          unfold set_add at 2. rewrite Hfresh, Hext, <- app_assoc.
          reflexivity. }
        rewrite Hsplit, map_app in E. cbn [map] in E.
        apply (NoDup_split_unique _ _ _ _ _ (eq_ind _ _ Hnd _
                 (eq_trans (f_equal (map fst) Hsplit)
                           (map_app fst c1 (r :: c2)))) E). }
      apply Forall_forall. intros g' Hg'.
      split; [intros ->; contradiction|].
      assert (Hin : In g' (map fst c1)).
      { rewrite Hseen. apply set_add_fold_In. right. exact Hg'. }
      apply in_map_iff in Hin. destruct Hin as [e [<- He]].
      assert (He' : In e (kv :: rest))
        by (rewrite Hsplit; apply in_or_app; left; exact He).
      rewrite <- (Hcount e He'). apply Hlt, He.
Qed.

(** ** generateCSVs.py: normalized names *)

Example normalize_example :
  normalize_ingredient_name $" Cheese (aged (24 months)), cheddar "
  = $"CHEESE )".
Proof. vm_compute. reflexivity. Qed.

Lemma upper_char_class (c : ascii) :
  is_space (upper_char c) = is_space c
  /\ ascii_eqb comma (upper_char c) = ascii_eqb comma c
  /\ ascii_eqb (upper_char c) lparen = ascii_eqb c lparen
  /\ ascii_eqb rparen (upper_char c) = ascii_eqb rparen c.
Proof.
  destruct c as [b0 b1 b2 b3 b4 b5 b6 b7].
  destruct b0, b1, b2, b3, b4, b5, b6, b7; repeat split; reflexivity.
Qed.

Lemma lstrip_upper (s : str) : lstrip (upper s) = upper (lstrip s).
Proof.
  induction s as [|c s IH]; [reflexivity|]. cbn [upper map lstrip].
  rewrite (proj1 (upper_char_class c)).
  destruct (is_space c); [exact IH | reflexivity].
Qed.

Lemma rstrip_upper (s : str) : rstrip (upper s) = upper (rstrip s).
Proof.
  induction s as [|c s IH]; [reflexivity|]. cbn [upper map rstrip].
  fold (upper s). rewrite IH, (proj1 (upper_char_class c)).
  destruct (rstrip s); cbn [upper map]; [|reflexivity].
  destruct (is_space c); reflexivity.
Qed.

Lemma strip_upper (s : str) : strip (upper s) = upper (strip s).
Proof. unfold strip. rewrite lstrip_upper, rstrip_upper. reflexivity. Qed.

Lemma Forall_remove_parens (P : ascii -> Prop) (inside : bool) (s : str) :
  Forall P s -> Forall P (remove_parens inside s).
Proof.
  intros H. revert inside. induction H as [|c s Hc Hs IH]; intros inside;
    cbn [remove_parens]; [constructor|].
  destruct inside.
  - destruct (ascii_eqb c rparen); apply IH.
  - destruct (ascii_eqb c lparen && has_close s); [apply IH|].
    constructor; [exact Hc | apply IH].
Qed.

Lemma existsb_false_Forall (f : ascii -> bool) (s : str) :
  existsb f s = false <-> Forall (fun c => f c = false) s.
Proof.
  induction s as [|c s IH]; cbn [existsb].
  - split; [constructor | reflexivity].
  - rewrite orb_false_iff, IH. split.
    + intros [H1 H2]. constructor; assumption.
    + intros H. inversion H. auto.
Qed.

Lemma has_close_upper (s : str) : has_close (upper s) = has_close s.
Proof.
  unfold has_close. induction s as [|c s IH]; [reflexivity|].
  cbn [upper map existsb]. fold (upper s).
  rewrite IH, (proj2 (proj2 (proj2 (upper_char_class c)))). reflexivity.
Qed.

Lemma remove_parens_no_parenthetical (inside : bool) (s : str) :
  no_parenthetical (remove_parens inside s).
Proof.
  revert inside. induction s as [|c s IH]; intros inside;
    cbn [remove_parens]; [exact I|].
  destruct inside.
  - destruct (ascii_eqb c rparen); apply IH.
  - destruct (ascii_eqb c lparen && has_close s) eqn:E; [apply IH|].
    split; [|apply IH]. intros Hc. rewrite Hc in E. cbn [andb] in E.
    unfold has_close in *. apply existsb_false_Forall.
    apply Forall_remove_parens. apply existsb_false_Forall. exact E.
Qed.

Lemma no_parenthetical_lstrip (s : str) :
  no_parenthetical s -> no_parenthetical (lstrip s).
Proof.
  induction s as [|c s IH]; [auto|]. intros [Hc Hs]. cbn [lstrip].
  destruct (is_space c); [auto | split; assumption].
Qed.

Lemma no_parenthetical_rstrip (s : str) :
  no_parenthetical s -> no_parenthetical (rstrip s).
Proof.
  induction s as [|c s IH]; [auto|]. intros [Hc Hs]. cbn [rstrip].
  destruct (rstrip s) as [|d r] eqn:E.
  - destruct (is_space c); [exact I|]. split; [reflexivity | exact I].
  - split; [|auto]. intros H. specialize (Hc H). rewrite <- E.
    unfold has_close in *. apply existsb_false_Forall.
    apply Forall_rstrip. apply existsb_false_Forall. exact Hc.
Qed.

Lemma no_parenthetical_upper (s : str) :
  no_parenthetical s -> no_parenthetical (upper s).
Proof.
  induction s as [|c s IH]; [auto|]. intros [Hc Hs].
  cbn [upper map no_parenthetical]. fold (upper s).
  rewrite has_close_upper, (proj1 (proj2 (proj2 (upper_char_class c)))).
  auto.
Qed.

Lemma remove_parens_fixed (s : str) :
  no_parenthetical s -> remove_parens false s = s.
Proof.
  induction s as [|c s IH]; [reflexivity|]. intros [Hc Hs].
  cbn [remove_parens]. rewrite (IH Hs).
  destruct (ascii_eqb c lparen); [|reflexivity].
  rewrite (Hc eq_refl). reflexivity.
Qed.

Lemma first_part_no_comma (pd_name : str) :
  has_comma (if has_comma pd_name
             then strip (fst (split_first_comma pd_name)) else pd_name)
  = false.
Proof.
  destruct (has_comma pd_name) eqn:E; [|exact E].
  unfold has_comma. apply existsb_false_Forall.
  apply Forall_strip, split_first_comma_fst.
Qed.

Lemma normalize_no_comma (pd_name : str) :
  has_comma (normalize_ingredient_name pd_name) = false.
Proof.
  unfold normalize_ingredient_name.
  pose proof (first_part_no_comma pd_name) as H.
  set (p := if has_comma pd_name then _ else _) in *.
  unfold has_comma in *. apply existsb_false_Forall.
  apply existsb_false_Forall in H.
  unfold upper. apply Forall_forall. intros c Hc.
  apply in_map_iff in Hc. destruct Hc as [x [<- Hx]].
  rewrite (proj1 (proj2 (upper_char_class x))).
  assert (Hall : Forall (fun c => ascii_eqb comma c = false)
                        (strip (remove_parens false p)))
    by (apply Forall_strip, Forall_remove_parens; exact H).
  rewrite Forall_forall in Hall. apply Hall. exact Hx.
Qed.

Lemma normalize_no_parenthetical (pd_name : str) :
  no_parenthetical (normalize_ingredient_name pd_name).
Proof.
  unfold normalize_ingredient_name, strip.
  apply no_parenthetical_upper, no_parenthetical_rstrip,
    no_parenthetical_lstrip, remove_parens_no_parenthetical.
Qed.

Lemma normalize_stripped (pd_name : str) :
  strip (normalize_ingredient_name pd_name)
  = normalize_ingredient_name pd_name.
Proof.
  unfold normalize_ingredient_name. rewrite strip_upper, strip_idem.
  reflexivity.
Qed.

(** X27. A normalized name has no comma, no lower case letter, no white
    space at either end, and no opening parenthesis with a closing one
    after it. *)
Theorem normalize_ingredient_name_form (pd_name : str) :
  has_comma (normalize_ingredient_name pd_name) = false
  /\ Forall (fun c => is_lower c = false) (normalize_ingredient_name pd_name)
  /\ strip (normalize_ingredient_name pd_name)
     = normalize_ingredient_name pd_name
  /\ no_parenthetical (normalize_ingredient_name pd_name).
Proof.
  split; [apply normalize_no_comma|]. split; [|split].
  - unfold normalize_ingredient_name, upper. apply Forall_forall.
    intros c Hc. apply in_map_iff in Hc. destruct Hc as [x [<- _]].
    apply upper_char_not_lower.
  - apply normalize_stripped.
  - apply normalize_no_parenthetical.
Qed.

(** X28. Normalizing is idempotent: a normalized name is its own
    normalization, which is what the removal of duplicates after the
    normalization relies on. *)
Theorem normalize_ingredient_name_idempotent (pd_name : str) :
  normalize_ingredient_name (normalize_ingredient_name pd_name)
  = normalize_ingredient_name pd_name.
Proof.
  assert (H1 : has_comma (normalize_ingredient_name pd_name) = false)
    by apply normalize_no_comma.
  assert (H2 : remove_parens false (normalize_ingredient_name pd_name)
               = normalize_ingredient_name pd_name)
    by apply remove_parens_fixed, normalize_no_parenthetical.
  assert (H3 : strip (normalize_ingredient_name pd_name)
               = normalize_ingredient_name pd_name)
    by apply normalize_stripped.
  assert (H4 : upper (normalize_ingredient_name pd_name)
               = normalize_ingredient_name pd_name).
  { apply upper_fixed. unfold normalize_ingredient_name.
    apply upper_is_upper. }
  generalize dependent (normalize_ingredient_name pd_name). intros t H1 H2 H3 H4.
  unfold normalize_ingredient_name. rewrite H1, H2, H3. exact H4.
Qed.

(** ** GroupAssigner: when the cap does not bite *)





(** * The order of the candidate words, in binary64 *)

(** [round64] computes what the binary64 operations of the kernel compute:
    the sums and the products of the sample floats, and the quotients of
    the natural numbers up to 40. *)
Lemma round64_is_binary64 :
  agrees_on_samples Qplus PrimFloat.add = true
  /\ agrees_on_samples Qmult PrimFloat.mul = true
  /\ forallb (fun b =>
                forallb (fun a =>
                           Qeq_bool (Binary64.true_div a b)
                                    (Q_of_float
                                       (PrimFloat.div (float_of_nat a)
                                                      (float_of_nat b))))
                        (seq 0 41))
             (seq 1 40) = true.
Proof. vm_compute. repeat split. Qed.

(** In exact arithmetic [BUTTER] and [HAM] both score 160/3, and [BUTTER],
    seen first, comes first.  In binary64 the score of [BUTTER] is
    53.33333333333333 and the score of [HAM] is 53.333333333333336, and
    [HAM] comes first. *)
Lemma rounding_breaks_tie :
  map fst (sorted_words_of larder_df)
  = [ $"SMOKED"; $"PORK"; $"BONE"; $"DELI"; $"BUTTER"; $"LEG"; $"HAM";
      $"NUT" ]
  /\ (score_of larder_df $"BUTTER" == score_of larder_df $"HAM")%Q
  /\ map fst (Binary64.sorted_words_of larder_df)
     = [ $"SMOKED"; $"PORK"; $"BONE"; $"DELI"; $"LEG"; $"HAM"; $"BUTTER";
         $"NUT" ]
  /\ dict_get (Binary64.word_scores_of larder_df) $"BUTTER"
     = Some (3752999689475413 # 70368744177664)%Q
  /\ dict_get (Binary64.word_scores_of larder_df) $"HAM"
     = Some (7505999378950827 # 140737488355328)%Q.
Proof. vm_compute. repeat split. Qed.

(** ** The word index is in first-seen order *)

Lemma dict_mem_str_mem (V : Type) (d : dict V) (k : str) :
  dict_mem d k = str_mem k (map fst d).
Proof.
  unfold dict_mem, str_mem. induction d as [|kv d IH]; [reflexivity|].
  cbn [existsb map]. rewrite IH. reflexivity.
Qed.

Lemma index_words_first_seen (ing : str) (words : list str)
    (st : dict nat * dict (list str)) :
  map fst (snd (fold_left (index_word ing) words st))
  = fold_left (fun seen w => if str_mem w seen then seen else seen ++ [w])
              words (map fst (snd st)).
Proof.
  revert st. induction words as [|w words IH]; intros st; cbn [fold_left];
    [reflexivity|].
  rewrite IH. f_equal. unfold index_word. cbn [snd].
  rewrite dict_upd_keys, dict_mem_str_mem. reflexivity.
Qed.

Lemma index_rows_first_seen (rows : list row)
    (st : dict nat * dict (list str)) :
  map fst (snd (fold_left index_row rows st))
  = fold_left (fun seen w => if str_mem w seen then seen else seen ++ [w])
              (all_tokens rows) (map fst (snd st)).
Proof.
  revert st. induction rows as [|r rows IH]; intros st;
    cbn [fold_left all_tokens flat_map]; [reflexivity|].
  rewrite IH. unfold all_tokens. rewrite fold_left_app. f_equal.
  unfold index_row. apply index_words_first_seen.
Qed.

Lemma word_index_first_seen (df : list row) :
  map fst (snd (find_word_frequencies df)) = first_seen (all_tokens df).
Proof. unfold find_word_frequencies. apply index_rows_first_seen. Qed.

(** ** The candidates and their binary64 scores *)

Lemma binary64_fold_score_word (df : list row) (pts : list str)
    (l : dict (list str)) (acc : dict Q) :
  NoDup (map fst acc ++ map fst l) ->
  fold_left (Binary64.score_word df pts) l acc
  = acc ++ map (fun e => (fst e, binary64_score df e))
               (filter (binary64_candidate df pts) l).
Proof.
  revert acc. induction l as [|e l IH]; intros acc Hnd; cbn [fold_left].
  - cbn. rewrite app_nil_r. reflexivity.
  - assert (Hfresh : ~ In (fst e) (map fst acc)).
    { intros Hin. apply NoDup_remove_2 in Hnd. apply Hnd.
      apply in_or_app. left. assumption. }
    assert (Hnd0 : NoDup (map fst acc ++ map fst l)).
    { apply NoDup_remove_1 in Hnd. exact Hnd. }
    assert (Hnd' : NoDup (map fst (acc ++ [(fst e, binary64_score df e)])
                          ++ map fst l)).
    { rewrite map_app, <- app_assoc. exact Hnd. }
    cbn [filter]. unfold Binary64.score_word at 2, binary64_candidate at 1.
    fold (binary64_score df e).
    destruct (str_mem (fst e) pts); cbn [negb andb]; [apply IH; exact Hnd0|].
    destruct (Qle_bool MIN_SCORE_THRESHOLD (binary64_score df e));
      [|apply IH; exact Hnd0].
    rewrite dict_set_fresh by assumption.
    rewrite IH by exact Hnd'. rewrite <- app_assoc. reflexivity.
Qed.

Lemma binary64_word_scores (df : list row) :
  Binary64.word_scores_of df
  = map (fun e => (fst e, binary64_score df e))
        (filter (binary64_candidate df
                   (Binary64.identify_processing_terms_dynamically
                      (fst (find_word_frequencies df))
                      (snd (find_word_frequencies df))))
                (snd (find_word_frequencies df))).
Proof.
  unfold Binary64.word_scores_of.
  pose proof (find_word_frequencies_keys df) as Hk.
  destruct (find_word_frequencies df) as [wf w2i]. cbn [fst snd] in *.
  rewrite binary64_fold_score_word; [reflexivity | exact Hk].
Qed.

Lemma scored_keys (sc : str * list str -> Q) (c : str * list str -> bool)
    (l : dict (list str)) (k : str) :
  In k (map fst (map (fun e => (fst e, sc e)) (filter c l))) ->
  In k (map fst l).
Proof.
  rewrite map_map. cbn [fst]. intros H. apply in_map_iff in H.
  destruct H as [e [<- He]]. apply filter_In in He.
  apply in_map. apply He.
Qed.

Lemma binary64_word_scores_spec (df : list row) (w : str) (q : Q) :
  In (w, q) (Binary64.word_scores_of df) ->
  q = Binary64.calculate_grouping_potential w (postings_of df w)
        (map pd_name df)
  /\ Qle_bool MIN_SCORE_THRESHOLD q = true.
Proof.
  rewrite binary64_word_scores. unfold postings_of.
  pose proof (find_word_frequencies_keys df) as Hk.
  destruct (find_word_frequencies df) as [wf w2i]. cbn [fst snd] in *.
  intros H. apply in_map_iff in H. destruct H as [[w' ings] [E Hin]].
  apply filter_In in Hin. destruct Hin as [Hin Hc].
  cbn [fst] in E. inversion E; subst w' q.
  unfold dict_get_default. rewrite (@dict_In_get _ w2i w ings Hk Hin).
  unfold binary64_candidate in Hc. apply andb_true_iff in Hc.
  split; [reflexivity | apply Hc].
Qed.

Lemma binary64_word_scores_NoDup (df : list row) :
  NoDup (map fst (Binary64.word_scores_of df)).
Proof.
  rewrite binary64_word_scores, map_map. cbn [fst].
  pose proof (find_word_frequencies_keys df) as Hk.
  revert Hk.
  generalize (binary64_candidate df
                (Binary64.identify_processing_terms_dynamically
                   (fst (find_word_frequencies df))
                   (snd (find_word_frequencies df)))) as c.
  generalize (snd (find_word_frequencies df)) as l.
  intros l c. induction l as [|e l IH]; intros Hk; cbn [filter map];
    [constructor|].
  inversion Hk as [|? ? Hn Hnd]; subst.
  destruct (c e); [|apply IH; exact Hnd].
  cbn [map]. constructor; [|apply IH; exact Hnd].
  intros Hin. apply Hn. apply in_map_iff in Hin.
  destruct Hin as [e' [E He]]. apply filter_In in He.
  rewrite <- E. apply in_map. apply He.
Qed.

(** The candidates with the score [q], in the order of the word index. *)
Lemma tied_in_key_order (sc : str * list str -> Q)
    (c : str * list str -> bool) (q : Q) (l : dict (list str)) :
  NoDup (map fst l) ->
  map fst (filter (has_score q) (map (fun e => (fst e, sc e)) (filter c l)))
  = filter (scored (map (fun e => (fst e, sc e)) (filter c l)) q)
           (map fst l).
Proof.
  induction l as [|e l IH]; intros Hnd; [reflexivity|].
  inversion Hnd as [|? ? Hn Hnd']; subst.
  cbn [filter map]. destruct (c e) eqn:Ec.
  - cbn [map filter]. unfold scored at 1, has_score at 1.
    cbn [dict_get fst snd]. rewrite str_eqb_refl.
    assert (Hrest :
      filter (scored ((fst e, sc e)
                      :: map (fun e0 => (fst e0, sc e0)) (filter c l)) q)
             (map fst l)
      = filter (scored (map (fun e0 => (fst e0, sc e0)) (filter c l)) q)
               (map fst l)).
    { apply filter_ext_in. intros k Hk. unfold scored. cbn [dict_get].
      str_cases k (fst e); [subst k; contradiction | reflexivity]. }
    rewrite Hrest, <- (IH Hnd').
    destruct (Qeq_bool (sc e) q); reflexivity.
  - rewrite (IH Hnd'). unfold scored at 2.
    assert (Hnone : dict_get (map (fun e0 => (fst e0, sc e0)) (filter c l))
                             (fst e) = None).
    { apply dict_get_None. intros Hin. apply Hn.
      eapply scored_keys. exact Hin. }
    rewrite Hnone. reflexivity.
Qed.

(** C8, as the code has it.  The candidate words are processed in
    descending order of their binary64 scores; they are the entries of
    [word_scores], each with the score that the scorer gives it; and the
    candidates with one and the same score are processed in the order in
    which the words are first seen in the data, by row and then by position
    in the name, whatever their alphabetical order. *)
Theorem sorted_words_descending_stable (ingredients_df : list row) :
  StronglySorted (fun x y => (snd y <= snd x)%Q)
                 (Binary64.sorted_words_of ingredients_df)
  /\ Permutation (Binary64.sorted_words_of ingredients_df)
                 (Binary64.word_scores_of ingredients_df)
  /\ Forall (fun ws =>
               snd ws = Binary64.calculate_grouping_potential (fst ws)
                          (postings_of ingredients_df (fst ws))
                          (map pd_name ingredients_df))
            (Binary64.sorted_words_of ingredients_df)
  /\ forall q : Q,
       map fst (filter (has_score q)
                       (Binary64.sorted_words_of ingredients_df))
       = filter (scored (Binary64.word_scores_of ingredients_df) q)
                (first_seen (all_tokens ingredients_df)).
Proof.
  unfold Binary64.sorted_words_of. split; [|split; [|split]].
  - assert (Hs : StronglySorted (fun x y => score_before x y = true)
                   (sorted_by score_before
                      (Binary64.word_scores_of ingredients_df))).
    { apply Sorted_StronglySorted.
      - intros x y z. apply score_before_trans.
      - apply sorted_by_Sorted. exact score_before_total. }
    induction Hs as [|x l Hl IH Hx]; constructor; [exact IH|].
    eapply Forall_impl; [|exact Hx].
    intros y Hy. apply Qle_bool_iff. exact Hy.
  - apply sorted_by_perm.
  - apply Forall_forall. intros [w q] Hin. cbn [fst snd].
    apply (Permutation_in _ (sorted_by_perm score_before
             (Binary64.word_scores_of ingredients_df))) in Hin.
    apply binary64_word_scores_spec in Hin. apply Hin.
  - intros q.
    rewrite (@sorted_by_stable _ score_before (has_score q)
               (@has_score_tied q)).
    rewrite <- word_index_first_seen, binary64_word_scores.
    apply tied_in_key_order. apply find_word_frequencies_keys.
Qed.

(** C8, as the specification states it, fails: [PEAR] and [APPLE] both have
    the score 60, every step of which is an integer and exact in binary64,
    and [PEAR], seen first, is processed first. *)
Lemma tied_words_not_alphabetical :
  map fst (Binary64.sorted_words_of orchard_df) = [$"PEAR"; $"APPLE"]
  /\ Forall (fun ws => (snd ws == 60)%Q) (Binary64.sorted_words_of orchard_df)
  /\ str_leb $"APPLE" $"PEAR" = true
  /\ str_leb $"PEAR" $"APPLE" = false.
Proof.
  vm_compute. repeat split; repeat constructor.
Qed.

(** ** The group of the best candidate *)

Lemma binary64_potential_rejected (word : str) (ings all : list str) :
  length ings < MIN_GROUP_SIZE ->
  Binary64.calculate_grouping_potential word ings all = 0%Q.
Proof.
  intros H. unfold Binary64.calculate_grouping_potential.
  apply Nat.ltb_lt in H. rewrite H. reflexivity.
Qed.

(** X12. The candidate that is processed first, the one with the best
    binary64 score, gets a group whose children are the names of its
    posting set, every one of them, each with the food group of its first
    row.  (The order of the children is the order in which the code
    iterates a set; the statement leaves it open.) *)
Theorem top_candidate_group_complete (ingredients_df : list row)
    (w : str) (q : Q) (rest : list (str * Q)) :
  Binary64.sorted_words_of ingredients_df = (w, q) :: rest ->
  exists children : list child,
    dict_get (Binary64.find_consolidation_groups ingredients_df) w
    = Some children
    /\ Permutation children
         (map (fun ing =>
                 mk_child ing (lookup_food_group ingredients_df ing))
              (postings_of ingredients_df w)).
Proof.
  intros Hsorted.
  pose proof (sorted_by_perm score_before
                (Binary64.word_scores_of ingredients_df)) as Hperm.
  fold (Binary64.sorted_words_of ingredients_df) in Hperm.
  assert (Hnd : NoDup (map fst (Binary64.sorted_words_of ingredients_df))).
  { eapply Permutation_NoDup; [|apply binary64_word_scores_NoDup].
    apply Permutation_map, Permutation_sym. exact Hperm. }
  assert (Hcand : In (w, q) (Binary64.word_scores_of ingredients_df)).
  { apply (Permutation_in _ Hperm). rewrite Hsorted. left. reflexivity. }
  apply binary64_word_scores_spec in Hcand. destruct Hcand as [Hq Hscore].
  assert (Hn : 2 <= length (postings_of ingredients_df w)).
  { destruct (Nat.lt_ge_cases (length (postings_of ingredients_df w)) 2)
      as [Hlt|Hge]; [|exact Hge].
    rewrite Hq, binary64_potential_rejected in Hscore by exact Hlt.
    discriminate Hscore. }
  exists (map (fun ing => mk_child ing (lookup_food_group ingredients_df ing))
              (postings_of ingredients_df w)).
  split; [|apply Permutation_refl].
  unfold Binary64.find_consolidation_groups, assign_groups.
  rewrite Hsorted in *. cbn [fold_left map fst] in *.
  inversion Hnd as [|? ? Hfresh _]; subst.
  rewrite assign_groups_other_words by exact Hfresh.
  unfold assign_word. cbn [fst snd].
  fold (postings_of ingredients_df w). rewrite available_all.
  apply Nat.leb_le in Hn. rewrite Hn.
  rewrite fold_add_group_child. cbn [fst app]. unfold dict_set.
  cbn [dict_upd dict_get]. rewrite str_eqb_refl. reflexivity.
Qed.

Lemma top_candidate_group_complete_witness :
  exists children : list child,
    dict_get (Binary64.find_consolidation_groups orchard_df) $"PEAR"
    = Some children
    /\ Permutation children
         (map (fun ing => mk_child ing (lookup_food_group orchard_df ing))
              (postings_of orchard_df $"PEAR")).
Proof.
  apply (@top_candidate_group_complete orchard_df $"PEAR"
           (snd (hd ([], 0%Q) (Binary64.sorted_words_of orchard_df)))
           (tl (Binary64.sorted_words_of orchard_df))).
  vm_compute. reflexivity.
Defined.
